(** * 3d-text-experiment: scene assembly, line wrapping, glyph cache, hover

    A shallow embedding of [src/index.js] (class [App]).

    - JavaScript numbers are modelled as exact rationals [Q]; rounding of
      IEEE doubles is not part of the model.
    - Scene objects live in a heap addressed by references, so that object
      identity ([===], a cache entry that is also a scene child, [clone()]
      producing a new object) is what it is in the source.
    - Private fields of [App] are fields of the record [App]; methods are
      computations in a state monad that can get stuck ([None]) when a
      method is called on something that is not an object of the class the
      source calls it on.
    - Every call that mutates a three.js / troika object, or the cursor
      style, is appended to [calls], in program order.
    - The text shaper, the random generator and the ray caster are outside
      the repository; they are parameters. *)

From Stdlib Require Import QArith Lqa.
From stdpp Require Import gmap strings list fin_maps.

(** ** Values of the rendering library *)

Record Vector3 := mkVector3 { vx : Q; vy : Q; vz : Q }.
Record Euler := mkEuler { ex : Q; ey : Q; ez : Q }.

(** [new THREE.Matrix4().makeRotationFromEuler(rotation).setPosition(position)]:
    the matrix is kept as the pair it is built from. *)
Record Matrix4 := mkMatrix4 { mRotation : Euler; mPosition : Vector3 }.

(** [Math.PI], the double closest to pi, as the rational it is. *)
Definition Math_PI : Q := 884279719003555 # 281474976710656.

Definition ref := nat.

(** A JavaScript value that holds an object, [null] or [undefined]. *)
Inductive JsRef :=
| undefined
| null
| object (r : ref).

#[global] Instance JsRef_eq_dec : EqDecision JsRef.
Proof. solve_decision. Defined.

(** troika's [textRenderInfo]; [blockBounds] is [minX, minY, maxX, maxY]. *)
Record TextRenderInfo := mkTextRenderInfo { blockBounds : option (Q * Q * Q * Q) }.

Module Text.
(** A troika [Text] mesh: the properties the source writes or reads. *)
Record t := mk {
  text : string;
  fontSize : Q;
  font : string;
  maxWidth : Q;
  color : string;
  position : Vector3;
  textRenderInfo : option TextRenderInfo
}.

Definition set_position (v : Vector3) (m : t) : t :=
  mk (text m) (fontSize m) (font m) (maxWidth m) (color m) v (textRenderInfo m).
Definition set_color (c : string) (m : t) : t :=
  mk (text m) (fontSize m) (font m) (maxWidth m) c (position m) (textRenderInfo m).
Definition set_textRenderInfo (i : option TextRenderInfo) (m : t) : t :=
  mk (text m) (fontSize m) (font m) (maxWidth m) (color m) (position m) i.

(** [Text.copy]: the copyable properties and the [Object3D] transform are
    copied; the render info is not (a clone has to be synced again). *)
Definition clone (m : t) : t :=
  mk (text m) (fontSize m) (font m) (maxWidth m) (color m) (position m) None.
End Text.

Module Group.
(** A [THREE.Group] (also used for the [THREE.Scene] root). *)
Record t := mk {
  position : Vector3;
  rotation : Euler;
  children : list ref
}.

Definition empty : t := mk (mkVector3 0 0 0) (mkEuler 0 0 0) [].
Definition set_position (v : Vector3) (g : t) : t := mk v (rotation g) (children g).
Definition set_rotation (e : Euler) (g : t) : t := mk (position g) e (children g).
Definition add (c : ref) (g : t) : t := mk (position g) (rotation g) (children g ++ [c]).
End Group.

Module InstancedMesh.
(** A [THREE.InstancedMesh]: [count] instances, one matrix slot each;
    a slot is [None] until [setMatrixAt] writes it. *)
Record t := mk {
  count : Z;
  instanceMatrix : list (option Matrix4)
}.

Definition new (count : Z) : t := mk count (replicate (Z.to_nat count) None).
Definition setMatrixAt (i : nat) (m : Matrix4) (im : t) : t :=
  mk (count im) (<[i := Some m]> (instanceMatrix im)).
End InstancedMesh.

Inductive Object3D :=
| OText (m : Text.t)
| OGroup (g : Group.t)
| OInstancedMesh (im : InstancedMesh.t).

(** ** Calls into the rendering library, in program order *)

Inductive Call :=
| CSetMatrixAt (mesh : ref) (index : nat) (m : Matrix4)
| CNewText (r : ref) (word : string)
| CClone (src new : ref)
| CSync (r : ref)
| CPositionSet (r : ref) (v : Vector3)
| CAdd (parent child : ref)
| CSetColor (r : ref) (c : string)
| CSetCursor (c : string).

(** ** Options and application state *)

Record Options := mkOptions {
  gridSize : Z;
  gridOffset : Q;
  rectWidth : Q;
  rectBackgroundColor : string;
  textColor : string;
  highlightedTextColor : string;
  fontSize : Q;
  lineHeight : Q;
  spaceWidth : Q;
  fontUrl : string;
  text : string
}.

Record App := mkApp {
  heap : list Object3D;
  scene : JsRef;
  textMeshCache : gmap string ref;
  highlightedTextMesh : JsRef;
  interactableMeshes : list ref;
  cursor : string;
  randomCalls : nat;
  calls : list Call
}.

(** The fields right after [new App(options)]: [#highlightedTextMesh] has no
    initialiser, so it is [undefined]. *)
Definition newApp : App :=
  mkApp [] undefined ∅ undefined [] "" 0 [].

Definition set_heap (h : list Object3D) (s : App) : App :=
  mkApp h (scene s) (textMeshCache s) (highlightedTextMesh s)
        (interactableMeshes s) (cursor s) (randomCalls s) (calls s).
Definition set_scene (r : JsRef) (s : App) : App :=
  mkApp (heap s) r (textMeshCache s) (highlightedTextMesh s)
        (interactableMeshes s) (cursor s) (randomCalls s) (calls s).
Definition set_textMeshCache (c : gmap string ref) (s : App) : App :=
  mkApp (heap s) (scene s) c (highlightedTextMesh s)
        (interactableMeshes s) (cursor s) (randomCalls s) (calls s).
Definition set_highlightedTextMesh (r : JsRef) (s : App) : App :=
  mkApp (heap s) (scene s) (textMeshCache s) r
        (interactableMeshes s) (cursor s) (randomCalls s) (calls s).
Definition set_interactableMeshes (l : list ref) (s : App) : App :=
  mkApp (heap s) (scene s) (textMeshCache s) (highlightedTextMesh s)
        l (cursor s) (randomCalls s) (calls s).
Definition set_cursor (c : string) (s : App) : App :=
  mkApp (heap s) (scene s) (textMeshCache s) (highlightedTextMesh s)
        (interactableMeshes s) c (randomCalls s) (calls s).
Definition set_randomCalls (n : nat) (s : App) : App :=
  mkApp (heap s) (scene s) (textMeshCache s) (highlightedTextMesh s)
        (interactableMeshes s) (cursor s) n (calls s).
Definition set_calls (l : list Call) (s : App) : App :=
  mkApp (heap s) (scene s) (textMeshCache s) (highlightedTextMesh s)
        (interactableMeshes s) (cursor s) (randomCalls s) l.

(** ** The monad of methods *)

Definition M (A : Type) : Type := App → option (A * App).

Definition ret {A} (a : A) : M A := λ s, Some (a, s).
Definition bind {A B} (m : M A) (f : A → M B) : M B :=
  λ s, match m s with
       | Some (a, s') => f a s'
       | None => None
       end.
Definition stuck {A} : M A := λ _, None.
Definition gets {A} (f : App → A) : M A := λ s, Some (f s, s).
Definition modify (f : App → App) : M unit := λ s, Some (tt, f s).

Declare Scope js_scope.
Delimit Scope js_scope with js.
Notation "'let*' x ':=' m 'in' k" := (bind m (λ x, k))
  (at level 10, x name, m at level 100, k at level 200) : js_scope.
Notation "'let*' ' p ':=' m 'in' k" := (bind m (λ x, match x with p => k end))
  (at level 10, p pattern, m at level 100, k at level 200) : js_scope.
Notation "m ;; k" := (bind m (λ _, k))
  (at level 100, k at level 200, right associativity) : js_scope.
Open Scope js_scope.

(** [for (const a of l) acc = body(acc, a)]: a loop that threads its local
    variables. *)
Fixpoint foldM {A B} (body : B → A → M B) (acc : B) (l : list A) : M B :=
  match l with
  | [] => ret acc
  | a :: l' => let* acc' := body acc a in foldM body acc' l'
  end.

(** [l.map(f)] for an effectful [f], left to right. *)
Fixpoint mapM {A B} (f : A → M B) (l : list A) : M (list B) :=
  match l with
  | [] => ret []
  | a :: l' => let* b := f a in let* bs := mapM f l' in ret (b :: bs)
  end.

(** ** Heap primitives *)

Definition call (c : Call) : M unit :=
  modify (λ s, set_calls (calls s ++ [c]) s).

Definition alloc (o : Object3D) : M ref :=
  λ s, Some (length (heap s), set_heap (heap s ++ [o]) s).

Definition getText (r : ref) : M Text.t :=
  λ s, match heap s !! r with
       | Some (OText m) => Some (m, s)
       | _ => None
       end.

Definition getGroup (r : ref) : M Group.t :=
  λ s, match heap s !! r with
       | Some (OGroup g) => Some (g, s)
       | _ => None
       end.

Definition getInstancedMesh (r : ref) : M InstancedMesh.t :=
  λ s, match heap s !! r with
       | Some (OInstancedMesh im) => Some (im, s)
       | _ => None
       end.

Definition store (r : ref) (o : Object3D) : M unit :=
  modify (λ s, set_heap (<[r := o]> (heap s)) s).

(** ** three.js and troika operations *)

(** [new THREE.Group()] *)
Definition newGroup : M ref := alloc (OGroup Group.empty).

(** [o.position.set(x, y, z)] and [o.position.copy(v)] *)
Definition position_set (r : ref) (v : Vector3) : M unit :=
  λ s, match heap s !! r with
       | Some (OText m) =>
           (store r (OText (Text.set_position v m));; call (CPositionSet r v)) s
       | Some (OGroup g) =>
           (store r (OGroup (Group.set_position v g));; call (CPositionSet r v)) s
       | _ => None
       end.

(** [g.rotation.copy(e)] *)
Definition rotation_copy (r : ref) (e : Euler) : M unit :=
  let* g := getGroup r in store r (OGroup (Group.set_rotation e g)).

(** [g.rotateY(angle)], applied to a group that is not rotated yet. *)
Definition rotateY (r : ref) (angle : Q) : M unit :=
  let* g := getGroup r in
  store r (OGroup (Group.set_rotation (mkEuler (ex (Group.rotation g))
                                               (ey (Group.rotation g) + angle)
                                               (ez (Group.rotation g))) g)).

(** [parent.add(child)] *)
Definition add (parent child : ref) : M unit :=
  let* g := getGroup parent in
  store parent (OGroup (Group.add child g));;
  call (CAdd parent child).

(** [new THREE.InstancedMesh(geometry, material, count)]: the matrix buffer
    is a typed array of [count * 16] floats, which cannot have a negative
    length. *)
Definition newInstancedMesh (count : Z) : M ref :=
  if decide (0 ≤ count)%Z then alloc (OInstancedMesh (InstancedMesh.new count))
  else stuck.

(** [mesh.setMatrixAt(index, matrix)]: a write into the typed array, which
    ignores an index past its end. *)
Definition setMatrixAt (mesh : ref) (index : nat) (m : Matrix4) : M unit :=
  let* im := getInstancedMesh mesh in
  store mesh (OInstancedMesh (InstancedMesh.setMatrixAt index m im));;
  call (CSetMatrixAt mesh index m).

(** [mesh.clone()] on a text mesh: a new object. *)
Definition clone (r : ref) : M ref :=
  let* m := getText r in
  let* r' := alloc (OText (Text.clone m)) in
  call (CClone r r');;
  ret r'.

(** [mesh.sync(callback)]: the request. *)
Definition sync (r : ref) : M unit :=
  let* _ := getText r in call (CSync r).

(** [text.split(' ')] *)
Fixpoint split (s : string) : list string :=
  match s with
  | EmptyString => [EmptyString]
  | String c s' =>
      if Ascii.eqb c Ascii.Space then EmptyString :: split s'
      else match split s' with
           | w :: ws => String c w :: ws
           | [] => [String c EmptyString]
           end
  end.

(** JavaScript truthiness of a string. *)
Definition truthy (s : string) : bool :=
  match s with EmptyString => false | _ => true end.

(** [mesh.textRenderInfo?.blockBounds?.[2] || 0] *)
Definition measuredWidth (m : Text.t) : Q :=
  match Text.textRenderInfo m with
  | Some i => match blockBounds i with
              | Some (_, _, maxX, _) => maxX
              | None => 0
              end
  | None => 0
  end.

(** ** The methods of [App] *)

(** What [createTextMeshes] has built when it reaches its [await]. *)
Record Pending := mkPending {
  pGroup : ref;
  pFrontGroup : ref;
  pBackGroup : ref;
  pTextMeshes : list ref
}.

(** A ray of one frame: for each object, the distances at which the ray
    meets it (none when it misses). *)
Definition Ray := ref → list Q.

Record Intersection := mkIntersection { distance : Q; iobject : ref }.

Section AppMethods.

Local Open Scope Q_scope.

(** [this.options]; the text shaper behind [sync] (the render info a word
    gets, if any); the values [Math.random()] returns, call by call. *)
Variable options : Options.
Variable shape : string → option TextRenderInfo.
Variable randomValues : nat → Q.

Definition Math_random : M Q :=
  λ s, Some (randomValues (randomCalls s), set_randomCalls (S (randomCalls s)) s).

(** The callback of [mesh.sync(callback)] has run: the render info is there. *)
Definition synced (r : ref) : M unit :=
  let* m := getText r in
  store r (OText (Text.set_textRenderInfo (shape (Text.text m)) m)).

Definition calculateSceneSize : Q :=
  (rectWidth options + gridOffset options) * inject_Z (gridSize options).

Definition setupScene : M unit :=
  let sceneSize := calculateSceneSize in
  let* sc := newGroup in
  modify (set_scene (object sc));;
  position_set sc (mkVector3 (- sceneSize * (1#2)) (- sceneSize * (1#2)) (- sceneSize * (1#2))).

(** The arrow function of [words.map] in [generateTextMeshes]: a clone of
    the cached mesh, or a new mesh that is put into the cache. *)
Definition textMeshOf (word : string) : M ref :=
  let* cache := gets textMeshCache in
  match cache !! word with
  | Some cached => clone cached
  | None =>
      let* mesh := alloc (OText (Text.mk word (fontSize options) (fontUrl options)
                                         (rectWidth options) (textColor options)
                                         (mkVector3 0 0 0) None)) in
      call (CNewText mesh word);;
      modify (λ s, set_textMeshCache (<[word := mesh]> (textMeshCache s)) s);;
      ret mesh
  end.

(** [new Promise(res => mesh.sync(() => res(mesh)))]: the request is made
    now, the promise is settled with the mesh. *)
Definition syncPromise (mesh : ref) : M ref :=
  sync mesh;; ret mesh.

Definition generateTextMeshes : M (list ref) :=
  let words := split (text options) in
  let* meshes := mapM textMeshOf words in
  mapM syncPromise meshes.

(** The body of the [for (const mesh of meshes)] loop of
    [layoutTextMeshes], with the loop variables [x] and [y]; running out
    of the list or [break] ends it. *)
Fixpoint layoutLoop (meshes : list ref) (frontGroup backGroup : ref) (x y : Q) : M unit :=
  let lineHeight := fontSize options * lineHeight options in
  match meshes with
  | [] => ret tt
  | mesh :: rest =>
      let* m := getText mesh in
      let width := measuredWidth m in
      let '(x, y) := if Qlt_le_dec (rectWidth options) (x + width)
                     then (0, y - lineHeight) else (x, y) in
      if Qlt_le_dec (y - lineHeight) (- rectWidth options) then ret tt
      else
        position_set mesh (mkVector3 x y 0);;
        let* backMesh := clone mesh in
        position_set backMesh (mkVector3 x y 0);;
        add frontGroup mesh;;
        add backGroup backMesh;;
        modify (λ s, set_interactableMeshes (interactableMeshes s ++ [mesh; backMesh]) s);;
        layoutLoop rest frontGroup backGroup (x + width + spaceWidth options) y
  end.

Definition layoutTextMeshes (meshes : list ref) (frontGroup backGroup : ref) : M unit :=
  layoutLoop meshes frontGroup backGroup 0 0.

(** [createTextMeshes] up to its [await]. *)
Definition createTextMeshes_begin (position : Vector3) (rotation : Euler) : M Pending :=
  let* group := newGroup in
  let* frontGroup := newGroup in
  let* backGroup := newGroup in
  position_set group position;;
  rotation_copy group rotation;;
  position_set frontGroup (mkVector3 (- rectWidth options * (1#2)) (rectWidth options * (1#2)) (1#1000));;
  position_set backGroup (mkVector3 (rectWidth options * (1#2)) (rectWidth options * (1#2)) (- (1#1000)));;
  rotateY backGroup Math_PI;;
  let* textMeshes := generateTextMeshes in
  ret (mkPending group frontGroup backGroup textMeshes).

(** [createTextMeshes] from its [await] on: every [sync] has called back. *)
Definition createTextMeshes_resume (p : Pending) : M ref :=
  mapM synced (pTextMeshes p);;
  layoutTextMeshes (pTextMeshes p) (pFrontGroup p) (pBackGroup p);;
  add (pGroup p) (pFrontGroup p);;
  add (pGroup p) (pBackGroup p);;
  ret (pGroup p).

(** The body of the innermost [for] of [createCubeOfPlanes]; the local
    variables it changes are [instanceIndex] and [syncPromises]. *)
Definition cubeCell (planeMesh : ref) (x y z : Z) (acc : nat * list Pending)
  : M (nat * list Pending) :=
  let cellSize := rectWidth options + gridOffset options in
  let '(instanceIndex, syncPromises) := acc in
  let* r1 := Math_random in
  let positionOffset := r1 * cellSize * (1#2) in
  let* r2 := Math_random in
  let rotationAngle := r2 * Math_PI * 2 in
  let position := mkVector3 (inject_Z x * cellSize + positionOffset)
                            (inject_Z y * cellSize + positionOffset)
                            (inject_Z z * cellSize + positionOffset) in
  let rotation := mkEuler rotationAngle rotationAngle rotationAngle in
  let matrix := mkMatrix4 rotation position in
  setMatrixAt planeMesh instanceIndex matrix;;
  let* p := createTextMeshes_begin position rotation in
  ret (S instanceIndex, syncPromises ++ [p]).

(** One call of [createTextMeshes] resumed, and the [then] callback of
    [createCubeOfPlanes] behind it. *)
Definition resumeCell (textGroup : ref) (p : Pending) : M ref :=
  let* group := createTextMeshes_resume p in
  add textGroup group;;
  ret group.

(** The three nested [for] loops of [createCubeOfPlanes]. *)
Definition cubeLoops (planeMesh : ref) : M (nat * list Pending) :=
  let G := gridSize options in
  foldM (λ acc x,
    foldM (λ acc y,
      foldM (λ acc z, cubeCell planeMesh x y z acc) acc (seqZ 0 G))
      acc (seqZ 0 G))
    (0%nat, []) (seqZ 0 G).

(** [createCubeOfPlanes]. The calls of [createTextMeshes] run up to their
    [await] inside the loops; they resume, in the order they were started,
    after the synchronous part of [createCubeOfPlanes] is over, and
    [Promise.all] gathers the groups. *)
Definition createCubeOfPlanes : M (list ref) :=
  let G := gridSize options in
  let* planeMesh := newInstancedMesh (G ^ 3) in
  let* textGroup := newGroup in
  let* '(_, syncPromises) := cubeLoops planeMesh in
  modify (λ s, set_interactableMeshes (interactableMeshes s ++ [planeMesh]) s);;
  let* sc := gets scene in
  match sc with
  | object sc =>
      add sc planeMesh;;
      add sc textGroup;;
      mapM (resumeCell textGroup) syncPromises
  | _ => stuck
  end.

(** [init], as far as it touches the state the methods above use. *)
Definition init : M (list ref) :=
  setupScene;;
  createCubeOfPlanes.

(** *** Hover *)

(** [o?.text], for a reference that may be [null] or [undefined]; an
    object that is not a text mesh has no [text]. *)
Definition textOf (s : App) (o : JsRef) : option string :=
  match o with
  | object r => match heap s !! r with
                | Some (OText m) => Some (Text.text m)
                | _ => None
                end
  | _ => None
  end.

(** The condition [o?.text] of an [if]. *)
Definition hasText (s : App) (o : JsRef) : bool :=
  match textOf s o with
  | Some w => truthy w
  | None => false
  end.

(** [mesh.color = c; mesh.sync()] *)
Definition colorAndSync (r : ref) (c : string) (s : App) : App :=
  match heap s !! r with
  | Some (OText m) =>
      set_calls (calls s ++ [CSetColor r c; CSync r])
                (set_heap (<[r := OText (Text.set_color c m)]> (heap s)) s)
  | _ => s
  end.

Definition setCursorStyle (c : string) (s : App) : App :=
  set_calls (calls s ++ [CSetCursor c]) (set_cursor c s).

Definition resetHighlight (s : App) : App :=
  let s :=
    if hasText s (highlightedTextMesh s) then
      match highlightedTextMesh s with
      | object r => colorAndSync r (textColor options) s
      | _ => s
      end
    else s in
  setCursorStyle "auto" s.

Definition applyHighlight (textMesh : JsRef) (color : string) (s : App) : App :=
  if hasText s textMesh then
    match textMesh with
    | object r => setCursorStyle "pointer" (colorAndSync r color s)
    | _ => s
    end
  else s.

(** [raycaster.intersectObjects(objects, false)]: the intersections of
    the objects themselves, nearest first. *)
Fixpoint insertByDistance (i : Intersection) (l : list Intersection) : list Intersection :=
  match l with
  | [] => [i]
  | j :: l' => if Qlt_le_dec (distance j) (distance i)
               then j :: insertByDistance i l'
               else i :: l
  end.

Definition intersectObjects (ray : Ray) (objects : list ref) : list Intersection :=
  foldr insertByDistance []
        (concat (map (λ o, map (λ d, mkIntersection d o) (ray o)) objects)).

(** [intersects[0]?.object || null] *)
Definition hoveredOf (intersects : list Intersection) : JsRef :=
  match intersects with
  | i :: _ => object (iobject i)
  | [] => null
  end.

Definition processIntersections (ray : Ray) (s : App) : App :=
  let intersects := intersectObjects ray (interactableMeshes s) in
  let hovered := hoveredOf intersects in
  if decide (highlightedTextMesh s = hovered) then s
  else
    let s := resetHighlight s in
    let s := applyHighlight hovered (highlightedTextColor options) s in
    set_highlightedTextMesh hovered s.

End AppMethods.


(** ** Pointer, camera and controls *)

(** A JavaScript division. A division by zero gives [Infinity] or [NaN],
    for which [None] stands (as for every number computed from one). *)
Definition js_div (a b : Q) : option Q :=
  if Qeq_bool b 0 then None else Some (a / b)%Q.

(** [options.container]: the size the source reads. *)
Record Container := mkContainer { clientWidth : Q; clientHeight : Q }.

Record PointerEvent := mkPointerEvent { clientX : Q; clientY : Q }.

Record Vector2 := mkVector2 { v2x : option Q; v2y : option Q }.

(** [handlePointerMove]: the new value of [mouse]. *)
Definition handlePointerMove (container : Container) (event : PointerEvent) : Vector2 :=
  mkVector2 ((λ q, q * 2 - 1)%Q <$> js_div (clientX event) (clientWidth container))
            ((λ q, - q * 2 + 1)%Q <$> js_div (clientY event) (clientHeight container)).

Record PerspectiveCamera := mkPerspectiveCamera {
  fov : Q;
  aspect : option Q;
  near : Q;
  far : Q;
  cameraPosition : Vector3
}.

Definition CAMERA_FOV : Q := 70.

Definition setupCamera (options : Options) (container : Container) : PerspectiveCamera :=
  let sceneSize := calculateSceneSize options in
  mkPerspectiveCamera CAMERA_FOV
    (js_div (clientWidth container) (clientHeight container))
    (1 # 10) (sceneSize * 10)%Q
    (mkVector3 (sceneSize * (1 # 4)) (sceneSize * (1 # 4)) (sceneSize * (1 # 2)))%Q.

(** The fields [setupControls] sets; [playIntroAnimation] has switched
    [autoRotate] on, its timer has not run yet. *)
Record OrbitControls := mkOrbitControls {
  enableDamping : bool;
  minDistance : Q;
  maxDistance : Q;
  autoRotate : bool
}.

Definition setupControls (options : Options) : OrbitControls :=
  mkOrbitControls true 1 (calculateSceneSize options) true.
(** * Vocabulary of the statements *)

(** [wp m Q s]: run from [s], the method [m] returns, and its result and
    final state satisfy [Q]. *)
Definition wp {A} (m : M A) (Q : A → App → Prop) (s : App) : Prop :=
  ∃ a s', m s = Some (a, s') ∧ Q a s'.

Definition isText (s : App) (r : ref) : Prop := ∃ m, heap s !! r = Some (OText m).
Definition isGroup (s : App) (r : ref) : Prop := ∃ g, heap s !! r = Some (OGroup g).
Definition isInstancedMesh (s : App) (r : ref) : Prop :=
  ∃ im, heap s !! r = Some (OInstancedMesh im).

(** An object keeps its class; a text mesh keeps its text and its colour. *)
Definition stable (o o' : Object3D) : Prop :=
  match o, o' with
  | OText m, OText m' => Text.text m' = Text.text m ∧ Text.color m' = Text.color m
  | OGroup _, OGroup _ => True
  | OInstancedMesh _, OInstancedMesh _ => True
  | _, _ => False
  end.

(** What every step of the assembly respects: objects stay, calls
    and registry only grow, the hover fields are not touched. *)
Record grows (s s' : App) : Prop := mkGrows {
  grows_heap : ∀ r o, heap s !! r = Some o → ∃ o', heap s' !! r = Some o' ∧ stable o o';
  grows_calls : calls s `prefix_of` calls s';
  grows_registry : interactableMeshes s `prefix_of` interactableMeshes s';
  grows_scene : scene s' = scene s;
  grows_highlighted : highlightedTextMesh s' = highlightedTextMesh s;
  grows_cursor : cursor s' = cursor s
}.

(** Objects evolve along a relation [P] (indexed by the reference). *)
Definition evolves (P : ref → Object3D → Object3D → Prop) (s s' : App) : Prop :=
  ∀ r o, heap s !! r = Some o → ∃ o', heap s' !! r = Some o' ∧ P r o o'.

Class Evolution (P : ref → Object3D → Object3D → Prop) : Prop := {
  evolution_refl : ∀ r o, P r o o;
  evolution_trans : ∀ r o1 o2 o3, P r o1 o2 → P r o2 o3 → P r o1 o3
}.

(** [keeps F]: outside the footprint [F] a text mesh keeps its render info,
    a group its children and an instanced mesh its matrices; everywhere a
    text mesh keeps text and colour and a group only gains children. *)
Definition keeps (F : gset ref) (r : ref) (o o' : Object3D) : Prop :=
  match o, o' with
  | OText m, OText m' =>
      Text.text m' = Text.text m ∧ Text.color m' = Text.color m ∧
      (r ∉ F → Text.textRenderInfo m' = Text.textRenderInfo m)
  | OGroup g, OGroup g' =>
      Group.children g `prefix_of` Group.children g' ∧
      (r ∉ F → Group.children g' = Group.children g)
  | OInstancedMesh im, OInstancedMesh im' => r ∉ F → im' = im
  | _, _ => False
  end.

(** The words for which a mesh is built, with the mesh, call by call. *)
Definition newTexts (evs : list Call) : list (string * ref) :=
  omap (λ c, match c with CNewText r w => Some (w, r) | _ => None end) evs.

(** [cache.set(word, mesh)] for each of them, in order. *)
Definition cacheWith (new : list (string * ref)) (c : gmap string ref) : gmap string ref :=
  foldl (λ c e, <[e.1 := e.2]> c) c new.

(** [effect F evs reg s s']: from [s] to [s'] the calls [evs] were made, the
    meshes [reg] were registered, and the heap changed within [F]. *)
Record effect (F : gset ref) (evs : list Call) (reg : list ref) (s s' : App) : Prop := mkEffect {
  effect_keeps : evolves (keeps F) s s';
  effect_calls : calls s' = calls s ++ evs;
  effect_registry : interactableMeshes s' = interactableMeshes s ++ reg;
  effect_cache : textMeshCache s' = cacheWith (newTexts evs) (textMeshCache s);
  effect_random : randomCalls s' = randomCalls s;
  effect_scene : scene s' = scene s;
  effect_highlighted : highlightedTextMesh s' = highlightedTextMesh s;
  effect_cursor : cursor s' = cursor s
}.

(** ** Line wrapping *)

Section LayoutVocabulary.

Variable options : Options.

Local Open Scope Q_scope.

(** The line height [layoutTextMeshes] computes. *)
Definition lineHeightOf : Q := fontSize options * lineHeight options.

(** What a position write of the layout satisfies: the line fits above
    the lower bound, and a word that was measured in [s] starts at the
    left edge or ends within the bound width. *)
Definition placementOK (s : App) (c : Call) : Prop :=
  match c with
  | CPositionSet r v =>
      - rectWidth options <= vy v - lineHeightOf ∧
      ∀ m, heap s !! r = Some (OText m) →
           vx v == 0 ∨ vx v + measuredWidth m <= rectWidth options
  | _ => True
  end.

(** The calls the layout makes. *)
Definition isLayoutCall (c : Call) : Prop :=
  match c with
  | CPositionSet _ _ | CClone _ _ | CAdd _ _ => True
  | _ => False
  end.

(** The references whose position is written, call by call. *)
Definition positioned (evs : list Call) : list ref :=
  omap (λ c, match c with CPositionSet r _ => Some r | _ => None end) evs.

(** Word meshes and their back copies, pair by pair. *)
Fixpoint pairsOf (fronts backs : list ref) : list ref :=
  match fronts, backs with
  | f :: fs, b :: bs => f :: b :: pairsOf fs bs
  | _, _ => []
  end.

(** What the layout leaves: calls and registrations within the footprint
    of the two groups. The meshes positioned and registered are the first
    [n] of the list, each followed by its new back copy. Every registered
    mesh is a text mesh, and one that was handed in is now a child of the
    front group. *)
Definition laidOut (meshes : list ref) (frontGroup backGroup : ref) (s s' : App) : Prop :=
  ∃ evs reg,
    effect {[frontGroup; backGroup]} evs reg s s' ∧
    Forall (placementOK s) evs ∧
    Forall (isText s') reg ∧
    (∃ n backs, length backs = n ∧ (n ≤ length meshes)%nat ∧
                Forall (λ b, length (heap s) ≤ b)%nat backs ∧
                reg = pairsOf (take n meshes) backs ∧ positioned evs = reg) ∧
    Forall isLayoutCall evs ∧
    ∀ r, r ∈ reg → r ∈ meshes →
         (∃ g, heap s' !! frontGroup = Some (OGroup g) ∧ r ∈ Group.children g) ∧
         (∃ v, CPositionSet r v ∈ evs).

(** The statements of the loop body of [layoutTextMeshes] that place one
    word at the cursor [(x, y)]. *)
Definition placeWord (mesh frontGroup backGroup : ref) (x y : Q) : M unit :=
  position_set mesh (mkVector3 x y 0);;
  let* backMesh := clone mesh in
  position_set backMesh (mkVector3 x y 0);;
  add frontGroup mesh;;
  add backGroup backMesh;;
  modify (λ s, set_interactableMeshes (interactableMeshes s ++ [mesh; backMesh]) s).


End LayoutVocabulary.

(** ** Assembly *)

(** Every cache entry is a text mesh with the word as its text. *)
Definition cacheTyped (s : App) : Prop :=
  ∀ w r, textMeshCache s !! w = Some r →
         ∃ m, heap s !! r = Some (OText m) ∧ Text.text m = w.

(** The calls that make a text mesh. *)
Definition isBuild (c : Call) : Prop :=
  match c with
  | CNewText _ _ | CClone _ _ => True
  | _ => False
  end.

(** The mesh [r] was made for the word [w] between [s] and [s'], by the
    calls [evs]: it is new, its text is [w], and it was built by
    [new Text()] or cloned from the cache entry of [w]. *)
Definition builtFrom (s s' : App) (evs : list Call) (w : string) (r : ref) : Prop :=
  length (heap s) ≤ r ∧
  (∃ m, heap s' !! r = Some (OText m) ∧ Text.text m = w) ∧
  (CNewText r w ∈ evs ∨
   ∃ src, CClone src r ∈ evs ∧ textMeshCache s' !! w = Some src ∧ src ≠ r).

(** What [words.map] of [generateTextMeshes] leaves. *)
Definition generated (s s' : App) (words : list string) (meshes : list ref)
    (evs : list Call) : Prop :=
  Forall2 (builtFrom s s' evs) words meshes ∧
  (∀ w, w ∈ words → is_Some (textMeshCache s' !! w)) ∧
  NoDup (newTexts evs).*1 ∧
  (∀ w r, (w, r) ∈ newTexts evs → textMeshCache s !! w = None ∧ w ∈ words) ∧
  Forall isBuild evs ∧
  NoDup meshes.

(** A group that has no children yet. *)
Definition emptyGroup (s : App) (r : ref) : Prop :=
  ∃ g, heap s !! r = Some (OGroup g) ∧ Group.children g = [].

(** A call of [createTextMeshes] that waits at its [await]: three groups
    without children, text meshes to lay out. *)
Definition pendingReady (s : App) (p : Pending) : Prop :=
  emptyGroup s (pGroup p) ∧ emptyGroup s (pFrontGroup p) ∧ emptyGroup s (pBackGroup p) ∧
  Forall (isText s) (pTextMeshes p).

(** The groups of the pending calls. *)
Definition groupRefs (ps : list Pending) : list ref :=
  p ← ps; [pGroup p; pFrontGroup p; pBackGroup p].

(** The objects a resumed call may change. *)
Definition cellRefs (p : Pending) : gset ref :=
  {[pGroup p; pFrontGroup p; pBackGroup p]} ∪ list_to_set (pTextMeshes p).

(** A resumed call has put its front and back groups, and nothing else,
    into its group. *)
Definition cellDone (s : App) (p : Pending) : Prop :=
  ∃ g, heap s !! pGroup p = Some (OGroup g) ∧
       Group.children g = [pFrontGroup p; pBackGroup p] ∧
       isGroup s (pFrontGroup p) ∧ isGroup s (pBackGroup p).

(** What a resumed call leaves of its meshes: every registered mesh is a
    text mesh, one of the call or a new copy; a registered mesh of the
    call is a child of the front group and was positioned. *)
Definition cellPlaced (p : Pending) (s s' : App) (evs : list Call) (reg : list ref) : Prop :=
  Forall (isText s') reg ∧
  (∀ r, r ∈ reg → r ∈ pTextMeshes p ∨ length (heap s) ≤ r) ∧
  (∀ r, r ∈ reg → r ∈ pTextMeshes p →
        (∃ g, heap s' !! pFrontGroup p = Some (OGroup g) ∧ r ∈ Group.children g) ∧
        (∃ v, CPositionSet r v ∈ evs)).

(** What the resumed calls leave, taken together: each registered mesh
    is a word mesh of one of the calls, now a child of that call's front
    group and positioned, or it was created after [s] (a back copy). *)
Definition cellsPlaced (ps : list Pending) (s s' : App) (evs : list Call) (reg : list ref) : Prop :=
  Forall (isText s') reg ∧
  ∀ r, r ∈ reg →
       (∃ p, p ∈ ps ∧ r ∈ pTextMeshes p ∧
             (∃ g, heap s' !! pFrontGroup p = Some (OGroup g) ∧ r ∈ Group.children g) ∧
             (∃ v, CPositionSet r v ∈ evs)) ∨
       length (heap s) ≤ r.

(** The [CSync] requests, call by call. *)
Definition syncs (evs : list Call) : list ref :=
  omap (λ c, match c with CSync r => Some r | _ => None end) evs.

(** The [setMatrixAt] calls, call by call. *)
Definition setMatrixAtCalls (evs : list Call) : list (ref * nat * Matrix4) :=
  omap (λ c, match c with CSetMatrixAt r i m => Some (r, i, m) | _ => None end) evs.

(** The cells of the lattice in the order the three loops visit them. *)
Definition cells (G : Z) : list (Z * Z * Z) :=
  x ← seqZ 0 G; y ← seqZ 0 G; z ← seqZ 0 G; [(x, y, z)].

(** The state after [n] more calls of [Math.random()]. *)
Definition drew (n : nat) (s : App) : App :=
  set_randomCalls (n + randomCalls s) s.

Section CellVocabulary.

Variable options : Options.
Variable randomValues : nat → Q.

Local Open Scope Q_scope.

(** [cellSize], and the position, rotation and matrix of the cell
    [(x, y, z)] when [Math.random()] has been called [n] times before. *)
Definition cellSizeOf : Q := rectWidth options + gridOffset options.

Definition positionOffsetAt (n : nat) : Q := randomValues n * cellSizeOf * (1 # 2).

Definition rotationAngleAt (n : nat) : Q := randomValues (S n) * Math_PI * 2.

Definition cellPosition (n : nat) (x y z : Z) : Vector3 :=
  mkVector3 (inject_Z x * cellSizeOf + positionOffsetAt n)
            (inject_Z y * cellSizeOf + positionOffsetAt n)
            (inject_Z z * cellSizeOf + positionOffsetAt n).

Definition cellRotation (n : nat) : Euler :=
  mkEuler (rotationAngleAt n) (rotationAngleAt n) (rotationAngleAt n).

Definition cellMatrix (n : nat) (x y z : Z) : Matrix4 :=
  mkMatrix4 (cellRotation n) (cellPosition n x y z).

(** The [setMatrixAt] calls for a list of cells, the first of them with
    instance index [i] and [n] earlier calls of [Math.random()]. *)
Fixpoint cellCalls (planeMesh : ref) (i n : nat) (cs : list (Z * Z * Z))
  : list (ref * nat * Matrix4) :=
  match cs with
  | [] => []
  | (x, y, z) :: cs' =>
      (planeMesh, i, cellMatrix n x y z) :: cellCalls planeMesh (S i) (S (S n)) cs'
  end.

(** What holds in the loops of [createCubeOfPlanes] after the cells [done],
    started in [s0]: [acc] holds the next instance index and the pending
    calls of [createTextMeshes]. *)
Definition cubeInv (planeMesh : ref) (s0 : App) (done : list (Z * Z * Z))
    (acc : nat * list Pending) (s : App) : Prop :=
  acc.1 = length done ∧ length acc.2 = length done ∧
  ∃ evs,
    effect {[planeMesh]} evs [] (drew (2 * length done) s0) s ∧
    setMatrixAtCalls evs = cellCalls planeMesh 0 (randomCalls s0) done ∧
    syncs evs = concat (pTextMeshes <$> acc.2) ∧
    Forall (pendingReady s) acc.2 ∧
    NoDup (groupRefs acc.2) ∧
    Forall (λ r, length (heap s0) ≤ r)%nat (groupRefs acc.2) ∧
    cacheTyped s ∧
    Forall (λ p, Forall2 (builtFrom s0 s evs) (split (text options)) (pTextMeshes p)) acc.2 ∧
    (acc.2 ≠ [] → ∀ w, w ∈ split (text options) → is_Some (textMeshCache s !! w)) ∧
    NoDup (newTexts evs).*1 ∧
    (∀ w r, (w, r) ∈ newTexts evs → textMeshCache s0 !! w = None ∧ w ∈ split (text options)).

(** What [createCubeOfPlanes] leaves when it is started in [s0] and
    [Promise.all] has gathered [groups]. *)
Definition cubeBuilt (s0 : App) (groups : list ref) (s : App) : Prop :=
  ∃ sc planeMesh textGroup pendings evs reg F,
    scene s = object sc ∧
    effect F evs (planeMesh :: reg) (drew (2 * length (cells (gridSize options))) s0) s ∧
    isInstancedMesh s planeMesh ∧ Forall (isText s) reg ∧
    (∃ g, heap s !! sc = Some (OGroup g) ∧ Group.children g = [planeMesh; textGroup]) ∧
    (∃ g, heap s !! textGroup = Some (OGroup g) ∧ Group.children g = groups) ∧
    groups = pGroup <$> pendings ∧
    length pendings = length (cells (gridSize options)) ∧
    Forall (cellDone s) pendings ∧
    setMatrixAtCalls evs =
      cellCalls planeMesh 0 (randomCalls s0) (cells (gridSize options)) ∧
    syncs evs = concat (pTextMeshes <$> pendings) ∧
    Forall (λ p, Forall2 (builtFrom s0 s evs) (split (text options)) (pTextMeshes p))
           pendings ∧
    NoDup (newTexts evs).*1 ∧
    (∀ w r, (w, r) ∈ newTexts evs →
            textMeshCache s0 !! w = None ∧ w ∈ split (text options)) ∧
    (pendings ≠ [] → ∀ w, w ∈ split (text options) → is_Some (textMeshCache s !! w)) ∧
    cacheTyped s ∧
    (∀ w r, textMeshCache s !! w = Some r → r ∈ reg →
            ∃ p, p ∈ pendings ∧ r ∈ pTextMeshes p ∧
                 (∃ g, heap s !! pFrontGroup p = Some (OGroup g) ∧ r ∈ Group.children g) ∧
                 (∃ v, CPositionSet r v ∈ evs)).

End CellVocabulary.

(** [preserves I m]: when [m] returns, it has kept the property [I] of the
    state. *)
Definition preserves {A} (I : App → Prop) (m : M A) : Prop :=
  ∀ s a s', I s → m s = Some (a, s') → I s'.

Section SceneVocabulary.

Variable options : Options.

(** The state [setupScene] leaves when it is run in [newApp]: the scene
    root (reference 0), centred. *)
Definition sceneSetUp : App :=
  let half := (- calculateSceneSize options * (1 # 2))%Q in
  mkApp [OGroup (Group.set_position (mkVector3 half half half) Group.empty)]
        (object 0) ∅ undefined [] "" 0
        [CPositionSet 0 (mkVector3 half half half)].

End SceneVocabulary.

(** ** Hover *)

Section HoverVocabulary.

Variable options : Options.
Variable shape : string → option TextRenderInfo.
Variable randomValues : nat → Q.

(** The nearest object under the pointer in a frame, or [null]. *)
Definition hovered (ray : Ray) (s : App) : JsRef :=
  hoveredOf (intersectObjects ray (interactableMeshes s)).

(** The states between two frames: the scene was assembled by [init], then
    frames ran, each with its own ray. *)
Inductive reachable : App → Prop :=
| reachable_init groups s :
    init options shape randomValues newApp = Some (groups, s) → reachable s
| reachable_frame ray s :
    reachable s → reachable (processIntersections options ray s).

(** The states a frame goes through as well: after [resetHighlight] and
    after [applyHighlight], before the new target is recorded. *)
Inductive observable : App → Prop :=
| observable_between s : reachable s → observable s
| observable_reset ray s :
    reachable s → highlightedTextMesh s ≠ hovered ray s →
    observable (resetHighlight options s)
| observable_apply ray s :
    reachable s → highlightedTextMesh s ≠ hovered ray s →
    observable (applyHighlight (hovered ray s) (highlightedTextColor options)
                               (resetHighlight options s)).

(** The mesh [r] carries the highlight colour. *)
Definition highlightColored (s : App) (r : ref) : Prop :=
  ∃ m, heap s !! r = Some (OText m) ∧ Text.color m = highlightedTextColor options.

(** A text mesh has the highlight colour only if it is the recorded target
    and has a text. *)
Definition highlightRecorded (s : App) : Prop :=
  ∀ r, highlightColored s r →
       highlightedTextMesh s = object r ∧ hasText s (object r) = true.

(** Every text mesh has the default colour. *)
Definition allDefaultColor (s : App) : Prop :=
  ∀ r m, heap s !! r = Some (OText m) → Text.color m = textColor options.

(** Every registered object is a text mesh or an instanced mesh. *)
Definition registryTyped (s : App) : Prop :=
  Forall (λ r, isText s r ∨ isInstancedMesh s r) (interactableMeshes s).

(** The calls of [resetHighlight] and of [applyHighlight]. *)
Definition resetCalls (s : App) : list Call :=
  (if hasText s (highlightedTextMesh s) then
     match highlightedTextMesh s with
     | object r => [CSetColor r (textColor options); CSync r]
     | _ => []
     end
   else []) ++ [CSetCursor "auto"].

Definition applyCalls (s : App) (target : JsRef) : list Call :=
  if hasText s target then
    match target with
    | object r => [CSetColor r (highlightedTextColor options); CSync r; CSetCursor "pointer"]
    | _ => []
    end
  else [].

End HoverVocabulary.

(** ** The scene graph *)

(** [child] is among the children of the group [parent]. *)
Definition childOf (s : App) (parent child : ref) : Prop :=
  ∃ g, heap s !! parent = Some (OGroup g) ∧ child ∈ Group.children g.

(** ** Concrete scenes *)

(** The options of the page (the [DOMContentLoaded] handler). *)
Definition pageOptions : Options :=
  mkOptions 5 5 1 "#ffffff" "#121212" "#ff0000" (13 # 100) (12 # 10) (5 # 100)
    "https://fonts.cdnfonts.com/s/12165/Roboto-Regular.woff"
    "Lorem ipsum dolor sit amet, consectetur adipiscing elit, sed do eiusmod tempor incididunt ut labore et dolore magna aliqua.".

(** The same options with another grid size and another text. *)
Definition sceneOptions (G : Z) (txt : string) : Options :=
  mkOptions G (gridOffset pageOptions) (rectWidth pageOptions)
    (rectBackgroundColor pageOptions) (textColor pageOptions)
    (highlightedTextColor pageOptions) (fontSize pageOptions)
    (lineHeight pageOptions) (spaceWidth pageOptions) (fontUrl pageOptions) txt.

(** Render info of a block whose right edge is at [w]. *)
Definition boundsTo (w : Q) : option TextRenderInfo :=
  Some (mkTextRenderInfo (Some (0%Q, 0%Q, w, 0%Q))).

(** A word mesh as [generateTextMeshes] builds it, with a given render info. *)
Definition wordMesh (o : Options) (word : string) (i : option TextRenderInfo) : Text.t :=
  Text.mk word (fontSize o) (fontUrl o) (rectWidth o) (textColor o) (mkVector3 0 0 0) i.

(** A front group (reference 0), a back group (reference 1) and word meshes
    (references 2, 3, ...), nothing laid out yet. *)
Definition layoutScene (meshes : list Text.t) : App :=
  mkApp ([OGroup Group.empty; OGroup Group.empty] ++ map OText meshes)
        undefined ∅ undefined [] "" 0 [].

(** "Hi there": two measured words. *)
Definition twoWords : App :=
  layoutScene [wordMesh pageOptions "Hi" (boundsTo (14 # 100));
               wordMesh pageOptions "there" (boundsTo (35 # 100))].





(** A font in which every glyph is 7/100 wide, for what [sync] measures;
    [Math.random()] returning 1/2 at every call. *)
Definition demoShape (word : string) : option TextRenderInfo :=
  boundsTo (inject_Z (Z.of_nat (String.length word)) * (7 # 100)).

Definition demoRandom (n : nat) : Q := 1 # 2.

(** The state [init] leaves with these, [newApp] if [init] throws. *)
Definition assembled (o : Options) : App :=
  from_option snd newApp (init o demoShape demoRandom newApp).

(** A ray that meets the object [r] only, at distance 1. *)
Definition rayAt (r : ref) : Ray := λ o, if decide (o = r) then [1%Q] else [].

(** One cell that shows "Hi there"; the same with the highlight colour as
    default colour; the same with planes that overlap, so that the cell
    size is 0; no cell at all. *)
Definition hiThere : Options := sceneOptions 1 "Hi there".

Definition oneColour : Options :=
  mkOptions 1 (gridOffset pageOptions) (rectWidth pageOptions)
    (rectBackgroundColor pageOptions) (highlightedTextColor pageOptions)
    (highlightedTextColor pageOptions) (fontSize pageOptions)
    (lineHeight pageOptions) (spaceWidth pageOptions) (fontUrl pageOptions) "Hi there".

Definition noGap : Options :=
  mkOptions 1 (- rectWidth pageOptions) (rectWidth pageOptions)
    (rectBackgroundColor pageOptions) (textColor pageOptions)
    (highlightedTextColor pageOptions) (fontSize pageOptions)
    (lineHeight pageOptions) (spaceWidth pageOptions) (fontUrl pageOptions) "Hi there".

Definition noCell : Options := sceneOptions 0 "Hi there".

(** One cell and seven words of fourteen letters, each as wide as a line;
    the rectangle has room for six lines. *)
Definition sevenLines : Options :=
  sceneOptions 1 "aaaaaaaaaaaaaa bbbbbbbbbbbbbb cccccccccccccc dddddddddddddd eeeeeeeeeeeeee ffffffffffffff gggggggggggggg".

(** ** More vocabulary for the hover *)

Section FrameVocabulary.

Variable options : Options.

(** The colours follow the record: a text mesh has the highlight colour
    when it is the highlighted reference and its text is not empty, and the
    default colour otherwise. *)
Definition coloursFollow (s : App) : Prop :=
  ∀ r m, heap s !! r = Some (OText m) →
         Text.color m =
         if decide (highlightedTextMesh s = object r)
         then (if truthy (Text.text m) then highlightedTextColor options
               else textColor options)
         else textColor options.

(** The cursor style that goes with the highlighted reference. *)
Definition cursorFor (s : App) : string :=
  if hasText s (highlightedTextMesh s) then "pointer" else "auto".

(** The same text mesh up to its colour. *)
Definition recoloured (o o' : option Object3D) : Prop :=
  ∃ m c, o = Some (OText m) ∧ o' = Some (OText (Text.set_color c m)).

End FrameVocabulary.

(** ** More vocabulary for the layout *)

Section PlacementVocabulary.

Variable options : Options.

Local Open Scope Q_scope.

(** The calls that place the word mesh [mesh] at [v], with its back copy
    [back]. *)
Definition placeCalls (frontGroup backGroup mesh back : ref) (v : Vector3) : list Call :=
  [CPositionSet mesh v; CClone mesh back; CPositionSet back v;
   CAdd frontGroup mesh; CAdd backGroup back].

(** The calls and the registrations for the words [placed], the back copy
    of the first being the object [next]. *)
Fixpoint placementCalls (frontGroup backGroup next : ref) (placed : list (ref * Vector3))
  : list Call :=
  match placed with
  | [] => []
  | (mesh, v) :: rest =>
      placeCalls frontGroup backGroup mesh next v ++
      placementCalls frontGroup backGroup (S next) rest
  end.

Fixpoint placementRegistry (next : ref) (placed : list (ref * Vector3)) : list ref :=
  match placed with
  | [] => []
  | (mesh, _) :: rest => mesh :: next :: placementRegistry (S next) rest
  end.

(** The word placed at [q] comes behind the word placed at [p]: on the
    same line, the space width behind its end, or at the start of the next
    line. Widths are those of the state [s]. *)
Definition follows (s : App) (p q : ref * Vector3) : Prop :=
  ∃ m, heap s !! p.1 = Some (OText m) ∧
       (vy q.2 = vy p.2 ∧ vx q.2 = vx p.2 + measuredWidth m + spaceWidth options ∨
        vx q.2 = 0 ∧ vy q.2 = vy p.2 - lineHeightOf options).

(** The words [placed] are placed from the cursor [(x, y)] on, each behind
    the one before. *)
Fixpoint placedFrom (s : App) (x y : Q) (placed : list (ref * Vector3)) : Prop :=
  match placed with
  | [] => True
  | (mesh, v) :: rest =>
      ∃ m, heap s !! mesh = Some (OText m) ∧ vz v = 0 ∧
           (rectWidth options < x + measuredWidth m ∧
            vx v = 0 ∧ vy v = y - lineHeightOf options ∨
            x + measuredWidth m <= rectWidth options ∧ vx v = x ∧ vy v = y) ∧
           - rectWidth options <= vy v - lineHeightOf options ∧
           placedFrom s (vx v + measuredWidth m + spaceWidth options) (vy v) rest
  end.

End PlacementVocabulary.

(** ** More vocabulary for the words *)

(** [words.join(' ')] *)
Fixpoint joinWords (words : list string) : string :=
  match words with
  | [] => ""
  | w :: rest =>
      match rest with
      | [] => w
      | _ :: _ => w +:+ String Ascii.Space (joinWords rest)
      end
  end.

(** The number of space characters of a string. *)
Fixpoint countSpaces (s : string) : nat :=
  match s with
  | EmptyString => 0
  | String c s' => (if Ascii.eqb c Ascii.Space then 1 else 0) + countSpaces s'
  end.

(** ** More vocabulary for the assembly *)

(** [placeKept F]: a group keeps its position and its rotation and only
    gains children; an instanced mesh outside [F] keeps its matrices. *)
Definition placeKept (F : gset ref) (r : ref) (o o' : Object3D) : Prop :=
  match o, o' with
  | OGroup g, OGroup g' =>
      Group.position g' = Group.position g ∧ Group.rotation g' = Group.rotation g ∧
      Group.children g `prefix_of` Group.children g'
  | OInstancedMesh im, OInstancedMesh im' => r ∉ F → im' = im
  | OText _, OText _ => True
  | _, _ => False
  end.

Section PlaneVocabulary.

Variable options : Options.
Variable randomValues : nat → Q.

Local Open Scope Q_scope.

(** The positions [createTextMeshes] gives to the front and to the back
    group, and the rotation of the back group after [rotateY(Math.PI)]. *)
Definition frontPosition : Vector3 :=
  mkVector3 (- rectWidth options * (1 # 2)) (rectWidth options * (1 # 2)) (1 # 1000).

Definition backPosition : Vector3 :=
  mkVector3 (rectWidth options * (1 # 2)) (rectWidth options * (1 # 2)) (- (1 # 1000)).

Definition backRotation : Euler := mkEuler 0 (0 + Math_PI) 0.

(** The group [g] with the groups behind it is what [createTextMeshes]
    builds for the cell [c], with [n] earlier calls of [Math.random()]:
    the group has the position and the rotation of the plane of the cell,
    the front group and the back group are the two objects made after it. *)
Definition onPlane (s : App) (n : nat) (c : Z * Z * Z) (g : ref) : Prop :=
  ∃ grp front back,
    heap s !! g = Some (OGroup grp) ∧
    Group.position grp = cellPosition options randomValues n c.1.1 c.1.2 c.2 ∧
    Group.rotation grp = cellRotation randomValues n ∧
    heap s !! S g = Some (OGroup front) ∧
    Group.position front = frontPosition ∧ Group.rotation front = mkEuler 0 0 0 ∧
    heap s !! S (S g) = Some (OGroup back) ∧
    Group.position back = backPosition ∧ Group.rotation back = backRotation.

End PlaneVocabulary.

Section BufferVocabulary.

Variable options : Options.
Variable randomValues : nat → Q.

(** The matrix buffer [buffer] holds, in the slots it has, the matrices of
    the cells [done], in their order, when [Math.random()] had been called
    [n] times before the first of them; its other slots are not written. *)
Definition bufferOf (n : nat) (done : list (Z * Z * Z)) (buffer : list (option Matrix4))
  : Prop :=
  ∀ k, k < length buffer →
       buffer !! k =
       Some ((λ c, cellMatrix options randomValues (n + 2 * k) c.1.1 c.1.2 c.2) <$> done !! k).

(** What the loops of [createCubeOfPlanes] keep besides [cubeInv]: the
    transforms of the groups that were there in [s0], the matrix buffer of
    the plane mesh, and the transforms of the groups of the cells. *)
Definition planesInv (planeMesh : ref) (s0 : App) (done : list (Z * Z * Z))
    (acc : nat * list Pending) (s : App) : Prop :=
  evolves (placeKept {[planeMesh]}) s0 s ∧
  (∃ im0 im, heap s0 !! planeMesh = Some (OInstancedMesh im0) ∧
             heap s !! planeMesh = Some (OInstancedMesh im) ∧
             InstancedMesh.count im = InstancedMesh.count im0 ∧
             length (InstancedMesh.instanceMatrix im) =
               length (InstancedMesh.instanceMatrix im0) ∧
             (bufferOf (randomCalls s0) [] (InstancedMesh.instanceMatrix im0) →
              bufferOf (randomCalls s0) done (InstancedMesh.instanceMatrix im))) ∧
  (∀ p, p ∈ acc.2 → pFrontGroup p = S (pGroup p) ∧ pBackGroup p = S (S (pGroup p))) ∧
  ∀ k c p, done !! k = Some c → acc.2 !! k = Some p →
           onPlane options randomValues s (randomCalls s0 + 2 * k) c (pGroup p).

End BufferVocabulary.

(** The three coordinates of [v] lie in [[lo, hi)]. *)
Definition coordsIn (lo hi : Q) (v : Vector3) : Prop :=
  (lo <= vx v ∧ vx v < hi)%Q ∧ (lo <= vy v ∧ vy v < hi)%Q ∧ (lo <= vz v ∧ vz v < hi)%Q.

(** ** Vocabulary for the camera *)

(** The square of the distance between two points. *)
Definition distance2 (a b : Vector3) : Q :=
  ((vx a - vx b) * (vx a - vx b) + (vy a - vy b) * (vy a - vy b) +
   (vz a - vz b) * (vz a - vz b))%Q.

(** The position of a child at [v] of a parent at [p] that is not rotated. *)
Definition movedBy (p v : Vector3) : Vector3 :=
  mkVector3 (vx p + vx v) (vy p + vy v) (vz p + vz v)%Q.

(** ** More concrete scenes *)


(** The state after a first call of [generateTextMeshes] for "Hi there". *)
Definition warmed : App :=
  from_option snd newApp (generateTextMeshes hiThere newApp).

(** A container of 800 by 600 and a pointer at a quarter of each. *)
Definition smallWindow : Container := mkContainer 800 600.

Definition pointerAtQuarter : PointerEvent := mkPointerEvent 200 150.

(** * Proofs *)

(** * Reasoning about methods *)

Lemma wp_ret {A} (a : A) (Q : A → App → Prop) s : Q a s → wp (ret a) Q s.
Proof. intros HQ. exists a, s. split; [reflexivity | exact HQ]. Qed.

Lemma wp_bind {A B} (m : M A) (k : A → M B) (Q : B → App → Prop) s :
  wp m (λ a s1, wp (k a) Q s1) s → wp (bind m k) Q s.
Proof.
  intros (a & s1 & Hm & b & s2 & Hk & HQ).
  exists b, s2. unfold bind. rewrite Hm. auto.
Qed.

Lemma wp_mono {A} (m : M A) (Q Q' : A → App → Prop) s :
  wp m Q s → (∀ a s', Q a s' → Q' a s') → wp m Q' s.
Proof. intros (a & s' & Hm & HQ) HQQ'. exists a, s'. auto. Qed.

Lemma wp_and {A} (m : M A) (Q1 Q2 : A → App → Prop) s :
  wp m Q1 s → wp m Q2 s → wp m (λ a s', Q1 a s' ∧ Q2 a s') s.
Proof.
  intros (a & s' & Hm & H1) (a2 & s2 & Hm2 & H2).
  rewrite Hm in Hm2. injection Hm2 as <- <-. exists a, s'. auto.
Qed.

Lemma wp_gets {A} (f : App → A) (Q : A → App → Prop) s : Q (f s) s → wp (gets f) Q s.
Proof. intros HQ. exists (f s), s. auto. Qed.

Lemma wp_modify (f : App → App) (Q : unit → App → Prop) s : Q tt (f s) → wp (modify f) Q s.
Proof. intros HQ. exists tt, (f s). auto. Qed.

Lemma wp_run {A} (m : M A) (Q : A → App → Prop) s a s' :
  wp m Q s → m s = Some (a, s') → Q a s'.
Proof. intros (a0 & s0 & Hm & HQ) Hrun. rewrite Hm in Hrun. by injection Hrun as <- <-. Qed.

(** ** Kinds of objects and how a state may evolve during assembly *)

Lemma stable_refl o : stable o o.
Proof. by destruct o. Qed.

Lemma stable_trans o1 o2 o3 : stable o1 o2 → stable o2 o3 → stable o1 o3.
Proof.
  destruct o1, o2, o3; simpl; try tauto.
  intros [-> ->] [-> ->]. done.
Qed.

Lemma grows_refl s : grows s s.
Proof.
  split; try done.
  intros r o Hr. exists o. split; [done | apply stable_refl].
Qed.

Lemma grows_trans s1 s2 s3 : grows s1 s2 → grows s2 s3 → grows s1 s3.
Proof.
  intros [H1 H2 H4 H5 H6 H7] [G1 G2 G4 G5 G6 G7]. split.
  - intros r o Hr. destruct (H1 r o Hr) as (o' & Hr' & Hs).
    destruct (G1 r o' Hr') as (o'' & Hr'' & Hs').
    exists o''. split; [done | by eapply stable_trans].
  - by etrans.
  - by etrans.
  - congruence.
  - congruence.
  - congruence.
Qed.

Lemma grows_length s s' : grows s s' → length (heap s) ≤ length (heap s').
Proof.
  intros Hg. destruct (heap s) as [|o h] eqn:Hh using rev_ind; [simpl; lia|].
  destruct (grows_heap _ _ Hg (length h) o) as (o' & Ho' & _).
  { rewrite Hh. by apply list_lookup_middle. }
  apply lookup_lt_Some in Ho'. rewrite length_app. simpl. lia.
Qed.

Lemma grows_isText s s' r : grows s s' → isText s r → isText s' r.
Proof.
  intros Hg [m Hm]. destruct (grows_heap _ _ Hg r _ Hm) as (o' & Ho' & Hs).
  destruct o'; try done. by eexists.
Qed.

Lemma grows_isGroup s s' r : grows s s' → isGroup s r → isGroup s' r.
Proof.
  intros Hg [m Hm]. destruct (grows_heap _ _ Hg r _ Hm) as (o' & Ho' & Hs).
  destruct o'; try done. by eexists.
Qed.

Lemma grows_isInstancedMesh s s' r : grows s s' → isInstancedMesh s r → isInstancedMesh s' r.
Proof.
  intros Hg [m Hm]. destruct (grows_heap _ _ Hg r _ Hm) as (o' & Ho' & Hs).
  destruct o'; try done. by eexists.
Qed.

(** The elementary state changes. *)

Lemma grows_alloc s o : grows s (set_heap (heap s ++ [o]) s).
Proof.
  split; try done. simpl. intros r o0 Hr. exists o0.
  split; [by apply lookup_app_l_Some | apply stable_refl].
Qed.

Lemma grows_store s r o o' :
  heap s !! r = Some o → stable o o' → grows s (set_heap (<[r := o']> (heap s)) s).
Proof.
  intros Hr Hst. split; try done. simpl. intros r0 o0 Hr0.
  destruct (decide (r = r0)) as [<-|Hne].
  - exists o'. rewrite list_lookup_insert_eq; [|by eapply lookup_lt_Some].
    split; [done | congruence].
  - exists o0. rewrite list_lookup_insert_ne; [|done]. split; [done | apply stable_refl].
Qed.

Lemma grows_call s c : grows s (set_calls (calls s ++ [c]) s).
Proof.
  split; try done; simpl.
  - intros r o Hr. exists o. split; [done | apply stable_refl].
  - by apply prefix_app_r.
Qed.

Lemma grows_push s l : grows s (set_interactableMeshes (interactableMeshes s ++ l) s).
Proof.
  split; try done; simpl.
  - intros r o Hr. exists o. split; [done | apply stable_refl].
  - by apply prefix_app_r.
Qed.

Lemma grows_cache_insert s w r :
  grows s (set_textMeshCache (<[w := r]> (textMeshCache s)) s).
Proof.
  split; try done; simpl.
  intros r0 o Hr. exists o. split; [done | apply stable_refl].
Qed.

Lemma grows_random s n : grows s (set_randomCalls n s).
Proof.
  split; try done; simpl.
  intros r o Hr. exists o. split; [done | apply stable_refl].
Qed.

Section Evolves.
Context (P : ref → Object3D → Object3D → Prop) `{!Evolution P}.

Lemma evolves_refl s : evolves P s s.
Proof. intros r o Hr. exists o. split; [done | apply evolution_refl]. Qed.

Lemma evolves_trans s1 s2 s3 : evolves P s1 s2 → evolves P s2 s3 → evolves P s1 s3.
Proof.
    intros H1 H2 r o Hr. destruct (H1 r o Hr) as (o' & Hr' & HP).
    destruct (H2 r o' Hr') as (o'' & Hr'' & HP').
    exists o''. split; [done | by eapply evolution_trans].
Qed.

Lemma evolves_same_heap s s' : heap s' = heap s → evolves P s s'.
Proof. intros Hh r o Hr. exists o. rewrite Hh. split; [done | apply evolution_refl]. Qed.

Lemma evolves_alloc s o : evolves P s (set_heap (heap s ++ [o]) s).
Proof.
    intros r o0 Hr. exists o0. simpl.
    split; [by apply lookup_app_l_Some | apply evolution_refl].
Qed.

Lemma evolves_store s r o o' :
    heap s !! r = Some o → P r o o' → evolves P s (set_heap (<[r := o']> (heap s)) s).
Proof.
    intros Hr HP r0 o0 Hr0. simpl.
    destruct (decide (r = r0)) as [<-|Hne].
    - exists o'. rewrite list_lookup_insert_eq; [|by eapply lookup_lt_Some].
      split; [done | congruence].
    - exists o0. rewrite list_lookup_insert_ne; [|done].
      split; [done | apply evolution_refl].
Qed.
End Evolves.

(** ** Rules for the library operations

    Each rule gives the state the operation leaves. *)

Lemma wp_call c (Q : unit → App → Prop) s :
  Q tt (set_calls (calls s ++ [c]) s) → wp (call c) Q s.
Proof. apply wp_modify. Qed.

Lemma wp_alloc o (Q : ref → App → Prop) s :
  Q (length (heap s)) (set_heap (heap s ++ [o]) s) → wp (alloc o) Q s.
Proof. intros HQ. by exists (length (heap s)), (set_heap (heap s ++ [o]) s). Qed.

Lemma wp_getText r m (Q : Text.t → App → Prop) s :
  heap s !! r = Some (OText m) → Q m s → wp (getText r) Q s.
Proof. intros Hr HQ. exists m, s. unfold getText. by rewrite Hr. Qed.

Lemma wp_getGroup r g (Q : Group.t → App → Prop) s :
  heap s !! r = Some (OGroup g) → Q g s → wp (getGroup r) Q s.
Proof. intros Hr HQ. exists g, s. unfold getGroup. by rewrite Hr. Qed.

Lemma wp_getInstancedMesh r im (Q : InstancedMesh.t → App → Prop) s :
  heap s !! r = Some (OInstancedMesh im) → Q im s → wp (getInstancedMesh r) Q s.
Proof. intros Hr HQ. exists im, s. unfold getInstancedMesh. by rewrite Hr. Qed.

Lemma wp_store r o (Q : unit → App → Prop) s :
  Q tt (set_heap (<[r := o]> (heap s)) s) → wp (store r o) Q s.
Proof. apply wp_modify. Qed.

Lemma wp_position_set_text r v m (Q : unit → App → Prop) s :
  heap s !! r = Some (OText m) →
  Q tt (set_calls (calls s ++ [CPositionSet r v])
                  (set_heap (<[r := OText (Text.set_position v m)]> (heap s)) s)) →
  wp (position_set r v) Q s.
Proof. intros Hr HQ. unfold position_set, wp. rewrite Hr. eexists _, _. split; [reflexivity | exact HQ]. Qed.

Lemma wp_position_set_group r v g (Q : unit → App → Prop) s :
  heap s !! r = Some (OGroup g) →
  Q tt (set_calls (calls s ++ [CPositionSet r v])
                  (set_heap (<[r := OGroup (Group.set_position v g)]> (heap s)) s)) →
  wp (position_set r v) Q s.
Proof. intros Hr HQ. unfold position_set, wp. rewrite Hr. eexists _, _. split; [reflexivity | exact HQ]. Qed.

Lemma wp_add parent child g (Q : unit → App → Prop) s :
  heap s !! parent = Some (OGroup g) →
  Q tt (set_calls (calls s ++ [CAdd parent child])
                  (set_heap (<[parent := OGroup (Group.add child g)]> (heap s)) s)) →
  wp (add parent child) Q s.
Proof.
  intros Hr HQ. unfold add. apply wp_bind. eapply wp_getGroup; [done|].
  apply wp_bind, wp_store, wp_call. exact HQ.
Qed.

Lemma wp_clone r m (Q : ref → App → Prop) s :
  heap s !! r = Some (OText m) →
  Q (length (heap s))
    (set_calls (calls s ++ [CClone r (length (heap s))])
               (set_heap (heap s ++ [OText (Text.clone m)]) s)) →
  wp (clone r) Q s.
Proof.
  intros Hr HQ. unfold clone. apply wp_bind. eapply wp_getText; [done|].
  apply wp_bind, wp_alloc, wp_bind, wp_call, wp_ret. exact HQ.
Qed.

Lemma wp_sync r (Q : unit → App → Prop) s :
  isText s r → Q tt (set_calls (calls s ++ [CSync r]) s) → wp (sync r) Q s.
Proof.
  intros [m Hr] HQ. unfold sync. apply wp_bind. eapply wp_getText; [done|].
  apply wp_call. exact HQ.
Qed.

Lemma wp_setMatrixAt mesh index mx im (Q : unit → App → Prop) s :
  heap s !! mesh = Some (OInstancedMesh im) →
  Q tt (set_calls (calls s ++ [CSetMatrixAt mesh index mx])
          (set_heap (<[mesh := OInstancedMesh (InstancedMesh.setMatrixAt index mx im)]> (heap s)) s)) →
  wp (setMatrixAt mesh index mx) Q s.
Proof.
  intros Hr HQ. unfold setMatrixAt. apply wp_bind. eapply wp_getInstancedMesh; [done|].
  apply wp_bind, wp_store, wp_call. exact HQ.
Qed.

(** ** Effects with a footprint *)

#[global] Instance keeps_evolution F : Evolution (keeps F).
Proof.
  split.
  - intros r [m|g|im]; simpl; auto.
  - intros r [m1|g1|im1] [m2|g2|im2] [m3|g3|im3]; simpl; try tauto.
    + intros (-> & -> & H1) (-> & -> & H2). repeat split. intros HF.
      rewrite H2, H1; auto.
    + intros (Hp1 & H1) (Hp2 & H2). split; [by etrans|].
      intros HF. rewrite H2, H1; auto.
    + intros H1 H2 HF. rewrite H2, H1; auto.
Qed.

Lemma keeps_mono F F' r o o' : F ⊆ F' → keeps F r o o' → keeps F' r o o'.
Proof.
  intros HF. destruct o as [m|g|im], o' as [m'|g'|im']; simpl; try tauto.
  - intros (? & ? & H). split; [done|]. split; [done|]. intros Hr. apply H. set_solver.
  - intros (? & H). split; [done|]. intros Hr. apply H. set_solver.
  - intros H Hr. apply H. set_solver.
Qed.

Lemma keeps_stable F r o o' : keeps F r o o' → stable o o'.
Proof. destruct o, o'; simpl; tauto. Qed.

Lemma effect_refl s : effect ∅ [] [] s s.
Proof. split; try done; [apply evolves_refl, _ | |]; by rewrite app_nil_r. Qed.

Lemma effect_trans F1 F2 e1 e2 r1 r2 s1 s2 s3 :
  effect F1 e1 r1 s1 s2 → effect F2 e2 r2 s2 s3 →
  effect (F1 ∪ F2) (e1 ++ e2) (r1 ++ r2) s1 s3.
Proof.
  intros [K1 C1 R1 T1 N1 S1 H1 U1] [K2 C2 R2 T2 N2 S2 H2 U2]. split; try congruence.
  4: { rewrite T2, T1. unfold cacheWith, newTexts. by rewrite omap_app, foldl_app. }
  - eapply (evolves_trans (keeps (F1 ∪ F2))).
    + intros r o Hr. destruct (K1 r o Hr) as (o' & ? & ?). exists o'.
      split; [done|]. eapply keeps_mono; [|done]. set_solver.
    + intros r o Hr. destruct (K2 r o Hr) as (o' & ? & ?). exists o'.
      split; [done|]. eapply keeps_mono; [|done]. set_solver.
  - rewrite C2, C1. by rewrite app_assoc.
  - rewrite R2, R1. by rewrite app_assoc.
Qed.

Lemma effect_mono F F' evs reg s s' : F ⊆ F' → effect F evs reg s s' → effect F' evs reg s s'.
Proof.
  intros HF [K1 C1 R1 T1 N1 S1 H1 U1]. split; try done.
  intros r o Hr. destruct (K1 r o Hr) as (o' & ? & ?). exists o'.
  split; [done|]. by eapply keeps_mono.
Qed.

Lemma effect_seq F F1 F2 evs e1 e2 reg r1 r2 s1 s2 s3 :
  effect F1 e1 r1 s1 s2 → effect F2 e2 r2 s2 s3 →
  F1 ∪ F2 ⊆ F → evs = e1 ++ e2 → reg = r1 ++ r2 →
  effect F evs reg s1 s3.
Proof.
  intros H1 H2 HF -> ->. eapply effect_mono; [exact HF|]. by eapply effect_trans.
Qed.

Lemma effect_grows F evs reg s s' : effect F evs reg s s' → grows s s'.
Proof.
  intros [K1 C1 R1 T1 N1 S1 H1 U1]. split; try done.
  - intros r o Hr. destruct (K1 r o Hr) as (o' & ? & ?). exists o'.
    split; [done|]. by eapply keeps_stable.
  - rewrite C1. by apply prefix_app_r.
  - rewrite R1. by apply prefix_app_r.
Qed.

Lemma effect_isText F evs reg s s' r : effect F evs reg s s' → isText s r → isText s' r.
Proof. intros He. eapply grows_isText, effect_grows, He. Qed.

Lemma effect_isGroup F evs reg s s' r : effect F evs reg s s' → isGroup s r → isGroup s' r.
Proof. intros He. eapply grows_isGroup, effect_grows, He. Qed.

Lemma effect_isInstancedMesh F evs reg s s' r :
  effect F evs reg s s' → isInstancedMesh s r → isInstancedMesh s' r.
Proof. intros He. eapply grows_isInstancedMesh, effect_grows, He. Qed.

Lemma effect_length F evs reg s s' : effect F evs reg s s' → length (heap s) ≤ length (heap s').
Proof. intros He. eapply grows_length, effect_grows, He. Qed.

(** Outside the footprint a group is where it was, children unchanged. *)
Lemma effect_children F evs reg s s' r g :
  effect F evs reg s s' → r ∉ F → heap s !! r = Some (OGroup g) →
  ∃ g', heap s' !! r = Some (OGroup g') ∧ Group.children g' = Group.children g.
Proof.
  intros He HF Hr. destruct (effect_keeps _ _ _ _ _ He r _ Hr) as (o' & Hr' & Hk).
  destruct o' as [|g'|]; try done. exists g'. split; [done|]. by apply Hk.
Qed.

Lemma effect_children_prefix F evs reg s s' r g :
  effect F evs reg s s' → heap s !! r = Some (OGroup g) →
  ∃ g', heap s' !! r = Some (OGroup g') ∧ Group.children g `prefix_of` Group.children g'.
Proof.
  intros He Hr. destruct (effect_keeps _ _ _ _ _ He r _ Hr) as (o' & Hr' & Hk).
  destruct o' as [|g'|]; try done. exists g'. split; [done|]. by apply Hk.
Qed.

Lemma effect_text F evs reg s s' r m :
  effect F evs reg s s' → heap s !! r = Some (OText m) →
  ∃ m', heap s' !! r = Some (OText m') ∧ Text.text m' = Text.text m ∧
        Text.color m' = Text.color m ∧
        (r ∉ F → Text.textRenderInfo m' = Text.textRenderInfo m).
Proof.
  intros He Hr. destruct (effect_keeps _ _ _ _ _ He r _ Hr) as (o' & Hr' & Hk).
  destruct o' as [m'| |]; try done. exists m'. split; [done|]. apply Hk.
Qed.

(** The elementary effects. *)

Lemma effect_alloc s o : effect ∅ [] [] s (set_heap (heap s ++ [o]) s).
Proof.
  split; try done; simpl; [apply evolves_alloc, _ | |]; by rewrite app_nil_r.
Qed.

Lemma effect_store F s r o o' :
  heap s !! r = Some o → keeps F r o o' → effect F [] [] s (set_heap (<[r := o']> (heap s)) s).
Proof.
  intros Hr Hk. split; try done; simpl; [by eapply evolves_store; [apply _|..] | |];
    by rewrite app_nil_r.
Qed.

Lemma effect_call s c :
  newTexts [c] = [] → effect ∅ [c] [] s (set_calls (calls s ++ [c]) s).
Proof.
  intros Hc. split; try done; [| |by rewrite Hc]; simpl; [by apply evolves_same_heap; [apply _|] |]. by rewrite app_nil_r.
Qed.

Lemma effect_push s l : effect ∅ [] l s (set_interactableMeshes (interactableMeshes s ++ l) s).
Proof.
  split; try done; simpl; [by apply evolves_same_heap; [apply _|] |]. by rewrite app_nil_r.
Qed.

Lemma effect_store_call F s r o o' c :
  heap s !! r = Some o → keeps F r o o' → newTexts [c] = [] →
  effect F [c] [] s (set_calls (calls s ++ [c]) (set_heap (<[r := o']> (heap s)) s)).
Proof.
  intros Hr Hk Hc.
  eapply effect_seq; [by eapply effect_store
                     | by apply (effect_call (set_heap (<[r := o']> (heap s)) s) c)
                     | set_solver | done..].
Qed.

Lemma effect_alloc_call s o c :
  newTexts [c] = [] →
  effect ∅ [c] [] s (set_calls (calls s ++ [c]) (set_heap (heap s ++ [o]) s)).
Proof.
  intros Hc.
  eapply effect_seq; [apply effect_alloc
                     | by apply (effect_call (set_heap (heap s ++ [o]) s) c)
                     | set_solver | done..].
Qed.

(** ** The library operations as effects *)

Lemma lookup_insert_self (h : list Object3D) r o o' :
  h !! r = Some o → <[r := o']> h !! r = Some o'.
Proof. intros Hr. apply list_lookup_insert_eq. by eapply lookup_lt_Some. Qed.

Lemma lookup_snoc_new (h : list Object3D) o : (h ++ [o]) !! length h = Some o.
Proof. by apply list_lookup_middle. Qed.

Lemma eff_newGroup (Q : ref → App → Prop) s :
  (∀ s', effect ∅ [] [] s s' → heap s' !! length (heap s) = Some (OGroup Group.empty) →
         length (heap s') = S (length (heap s)) →
         Q (length (heap s)) s') →
  wp newGroup Q s.
Proof.
  intros HQ. apply wp_alloc, HQ; [apply effect_alloc | apply lookup_snoc_new |].
  simpl. rewrite length_app. simpl. lia.
Qed.

Lemma eff_position_set_text r v m (Q : unit → App → Prop) s :
  heap s !! r = Some (OText m) →
  (∀ s', effect ∅ [CPositionSet r v] [] s s' →
         heap s' !! r = Some (OText (Text.set_position v m)) → Q tt s') →
  wp (position_set r v) Q s.
Proof.
  intros Hr HQ. eapply wp_position_set_text; [done|]. apply HQ.
  - by eapply effect_store_call.
  - simpl. by eapply lookup_insert_self.
Qed.

Lemma eff_position_set_group r v g (Q : unit → App → Prop) s :
  heap s !! r = Some (OGroup g) →
  (∀ s', effect ∅ [CPositionSet r v] [] s s' →
         heap s' !! r = Some (OGroup (Group.set_position v g)) → Q tt s') →
  wp (position_set r v) Q s.
Proof.
  intros Hr HQ. eapply wp_position_set_group; [done|]. apply HQ.
  - by eapply effect_store_call.
  - simpl. by eapply lookup_insert_self.
Qed.

Lemma eff_rotation_copy r e g (Q : unit → App → Prop) s :
  heap s !! r = Some (OGroup g) →
  (∀ s', effect ∅ [] [] s s' →
         heap s' !! r = Some (OGroup (Group.set_rotation e g)) → Q tt s') →
  wp (rotation_copy r e) Q s.
Proof.
  intros Hr HQ. unfold rotation_copy. apply wp_bind. eapply wp_getGroup; [done|].
  apply wp_store, HQ; [eapply effect_store; [done | by simpl] | by eapply lookup_insert_self].
Qed.

Lemma eff_rotateY r a g (Q : unit → App → Prop) s :
  heap s !! r = Some (OGroup g) →
  (∀ s' g', effect ∅ [] [] s s' → heap s' !! r = Some (OGroup g') →
            Group.children g' = Group.children g → Q tt s') →
  wp (rotateY r a) Q s.
Proof.
  intros Hr HQ. unfold rotateY. apply wp_bind. eapply wp_getGroup; [done|].
  apply wp_store. eapply HQ; [eapply effect_store; [done | by simpl] | by eapply lookup_insert_self | done].
Qed.

Lemma eff_add parent child g (Q : unit → App → Prop) s :
  heap s !! parent = Some (OGroup g) →
  (∀ s', effect {[parent]} [CAdd parent child] [] s s' →
         heap s' !! parent = Some (OGroup (Group.add child g)) → Q tt s') →
  wp (add parent child) Q s.
Proof.
  intros Hr HQ. eapply wp_add; [done|]. apply HQ.
  - eapply effect_store_call; [done| |done].
    simpl. split; [by apply prefix_app_r | set_solver].
  - simpl. by eapply lookup_insert_self.
Qed.

Lemma eff_clone r m (Q : ref → App → Prop) s :
  heap s !! r = Some (OText m) →
  (∀ s', effect ∅ [CClone r (length (heap s))] [] s s' →
         heap s' !! length (heap s) = Some (OText (Text.clone m)) →
         Q (length (heap s)) s') →
  wp (clone r) Q s.
Proof.
  intros Hr HQ. eapply wp_clone; [done|]. apply HQ.
  - by apply effect_alloc_call.
  - simpl. apply lookup_snoc_new.
Qed.

Lemma eff_sync r (Q : unit → App → Prop) s :
  isText s r → (∀ s', effect ∅ [CSync r] [] s s' → Q tt s') → wp (sync r) Q s.
Proof. intros Hr HQ. apply wp_sync; [done|]. by apply HQ, effect_call. Qed.

Lemma eff_synced shape r m (Q : unit → App → Prop) s :
  heap s !! r = Some (OText m) →
  (∀ s', effect {[r]} [] [] s s' →
         heap s' !! r = Some (OText (Text.set_textRenderInfo (shape (Text.text m)) m)) →
         Q tt s') →
  wp (synced shape r) Q s.
Proof.
  intros Hr HQ. unfold synced. apply wp_bind. eapply wp_getText; [done|].
  apply wp_store, HQ; [|by eapply lookup_insert_self].
  eapply effect_store; [done|]. simpl. set_solver.
Qed.

Lemma eff_setMatrixAt mesh index mx im (Q : unit → App → Prop) s :
  heap s !! mesh = Some (OInstancedMesh im) →
  (∀ s', effect {[mesh]} [CSetMatrixAt mesh index mx] [] s s' →
         heap s' !! mesh = Some (OInstancedMesh (InstancedMesh.setMatrixAt index mx im)) →
         length (heap s') = length (heap s) →
         Q tt s') →
  wp (setMatrixAt mesh index mx) Q s.
Proof.
  intros Hr HQ. eapply wp_setMatrixAt; [done|]. apply HQ.
  - eapply effect_store_call; [done| |done]. simpl. set_solver.
  - simpl. by eapply lookup_insert_self.
  - simpl. apply length_insert.
Qed.

Lemma eff_push l (Q : unit → App → Prop) s :
  (∀ s', effect ∅ [] l s s' → Q tt s') →
  wp (modify (λ s, set_interactableMeshes (interactableMeshes s ++ l) s)) Q s.
Proof. intros HQ. apply wp_modify, HQ, effect_push. Qed.

(** Two effects in a row, within the footprint [F]. *)
Ltac eff_compose F E1 E2 H :=
  pose proof (effect_seq F _ _ _ _ _ _ _ _ _ _ _ E1 E2 ltac:(set_solver) eq_refl eq_refl) as H;
  simpl in H; rewrite ?app_nil_r in H.

Lemma isText_not_isGroup s r : isText s r → isGroup s r → False.
Proof. intros [m Hm] [g Hg]. congruence. Qed.

Lemma isText_lt s r : isText s r → r < length (heap s).
Proof. intros [m Hm]. by eapply lookup_lt_Some. Qed.



(** * Line wrapping *)

Section Layout.

Variable options : Options.

Local Open Scope Q_scope.

Lemma measuredWidth_info m m' :
  Text.textRenderInfo m' = Text.textRenderInfo m → measuredWidth m' = measuredWidth m.
Proof. unfold measuredWidth. by intros ->. Qed.

Lemma placementOK_earlier F evs reg s s1 c :
  effect F evs reg s s1 → (∀ r, r ∈ F → ¬ isText s r) →
  placementOK options s1 c → placementOK options s c.
Proof.
  intros He HF. destruct c; simpl; try done.
  intros [Hy Hx]. split; [done|]. intros m Hm.
  destruct (effect_text _ _ _ _ _ _ _ He Hm) as (m' & Hm' & _ & _ & Hi).
  rewrite <- (measuredWidth_info m m'); [by apply Hx|].
  apply Hi. intros Hr. apply (HF _ Hr). by exists m.
Qed.

(** One word is placed and the loop goes on. *)
Lemma place_spec frontGroup backGroup mesh rest m x1 y1 x2 s :
  (∀ s x y, Forall (isText s) rest → isGroup s frontGroup → isGroup s backGroup →
            wp (layoutLoop options rest frontGroup backGroup x y)
               (λ _ s', laidOut options rest frontGroup backGroup s s') s) →
  heap s !! mesh = Some (OText m) →
  Forall (isText s) rest → isGroup s frontGroup → isGroup s backGroup →
  - rectWidth options <= y1 - lineHeightOf options →
  (x1 == 0 ∨ x1 + measuredWidth m <= rectWidth options) →
  wp (position_set mesh (mkVector3 x1 y1 0);;
      let* backMesh := clone mesh in
      position_set backMesh (mkVector3 x1 y1 0);;
      add frontGroup mesh;;
      add backGroup backMesh;;
      modify (λ s0, set_interactableMeshes (interactableMeshes s0 ++ [mesh; backMesh]) s0);;
      layoutLoop options rest frontGroup backGroup x2 y1)
     (λ _ s', laidOut options (mesh :: rest) frontGroup backGroup s s') s.
Proof.
  intros IH Hm Hrest Hfront Hback Hy Hx.
  apply wp_bind. eapply eff_position_set_text; [done|]. intros s1 E1 Hm1.
  apply wp_bind. eapply eff_clone; [done|]. intros s2 E2 Hb2.
  set (backMesh := length (heap s1)) in *.
  apply wp_bind. eapply eff_position_set_text; [done|]. intros s3 E3 Hb3.
  assert (isGroup s3 frontGroup) as [g3 Hg3] by eauto using effect_isGroup.
  apply wp_bind. eapply eff_add; [done|]. intros s4 E4 Hg4.
  assert (isGroup s4 backGroup) as [g4' Hg4'] by eauto using effect_isGroup.
  apply wp_bind. eapply eff_add; [done|]. intros s5 E5 Hg5.
  apply wp_bind. eapply eff_push. intros s6 E6.
  eff_compose ({[frontGroup; backGroup]} : gset ref) E1 E2 E12.
  eff_compose ({[frontGroup; backGroup]} : gset ref) E12 E3 E13.
  eff_compose ({[frontGroup; backGroup]} : gset ref) E13 E4 E14.
  eff_compose ({[frontGroup; backGroup]} : gset ref) E14 E5 E15.
  eff_compose ({[frontGroup; backGroup]} : gset ref) E15 E6 E16.
  eff_compose ({[frontGroup; backGroup]} : gset ref) E5 E6 E56.
  assert (Hnot : ∀ r, r ∈ ({[frontGroup; backGroup]} : gset ref) → ¬ isText s r).
  { intros r Hr Ht. apply elem_of_union in Hr as [Hr|Hr]; apply elem_of_singleton in Hr;
      subst r; eauto using isText_not_isGroup. }
  assert (Hfresh : (length (heap s) ≤ backMesh)%nat).
  { unfold backMesh. eapply effect_length, E1. }
  eapply wp_mono.
  { apply IH.
    - eapply Forall_impl; [exact Hrest|]. intros r Hr. eapply effect_isText; [exact E16|done].
    - eapply effect_isGroup; [exact E16|done].
    - eapply effect_isGroup; [exact E16|done]. }
  intros _ s' (evs & reg & E & Hok & Hreg & (n & backs & Hn & Hle & Hbacks & Hpairs & Hpos) & Hnew & Hplaced).
  eff_compose ({[frontGroup; backGroup]} : gset ref) E16 E E17.
  eff_compose ({[frontGroup; backGroup]} : gset ref) E56 E E57.
  eexists _, _. split; [exact E17|]. split; [|split; [|split; [|split]]].
  - repeat apply Forall_cons_2; simpl; try done.
    + split; [done|]. intros m0 Hm0. rewrite Hm in Hm0. by injection Hm0 as <-.
    + split; [done|]. intros m0 Hm0. apply lookup_lt_Some in Hm0. lia.
    + eapply Forall_impl; [exact Hok|]. intros c. by eapply placementOK_earlier.
  - repeat apply Forall_cons_2; [| |done].
    + eapply effect_isText; [exact E17|]. by exists m.
    + eapply effect_isText; [exact E57|]. eapply effect_isText; [exact E4|]. by eexists.
  - exists (S n), (backMesh :: backs). split; [simpl; lia|]. split; [simpl; lia|].
    split; [|split].
    + apply Forall_cons_2; [done|]. eapply Forall_impl; [exact Hbacks|].
      intros b Hb. simpl in Hb. pose proof (effect_length _ _ _ _ _ E16). lia.
    + simpl. by rewrite Hpairs.
    + simpl. by rewrite Hpos.
  - by repeat (apply Forall_cons_2; [done|]).
  - intros r Hr Hin. destruct (decide (r = mesh)) as [->|Hne].
    + split.
      * destruct (effect_children_prefix _ _ _ _ _ _ _ E57 Hg4) as (g' & Hg' & Hpre).
        exists g'. split; [done|]. eapply elem_of_prefix; [|exact Hpre].
        simpl. set_solver.
      * exists (mkVector3 x1 y1 0). apply list_elem_of_here.
    + apply elem_of_cons in Hin as [?|Hin]; [done|].
      assert (r < length (heap s))%nat as Hlt.
      { apply isText_lt. by eapply (proj1 (Forall_forall _ _) Hrest). }
      assert (r ∈ reg) as Hr' by (set_unfold; naive_solver lia).
      destruct (Hplaced r Hr' Hin) as [Hc [v Hv]]. split; [done|].
      exists v. set_solver.
Qed.

Lemma layoutLoop_spec frontGroup backGroup meshes :
  ∀ s x y,
    Forall (isText s) meshes → isGroup s frontGroup → isGroup s backGroup →
    wp (layoutLoop options meshes frontGroup backGroup x y)
       (λ _ s', laidOut options meshes frontGroup backGroup s s') s.
Proof.
  induction meshes as [|mesh rest IH]; intros s x y Hmeshes Hfront Hback.
  - apply wp_ret. exists [], []. split; [|split; [|split; [|split; [|split]]]]; try done.
    + eapply effect_mono, effect_refl. set_solver.
    + by exists 0%nat, [].
    + intros r Hr. by apply elem_of_nil in Hr.
  - apply Forall_cons in Hmeshes as [[m Hm] Hrest]. simpl.
    apply wp_bind. eapply wp_getText; [done|].
    assert (Hstop : laidOut options (mesh :: rest) frontGroup backGroup s s).
    { exists [], []. split; [|split; [|split; [|split; [|split]]]]; try done.
      + eapply effect_mono, effect_refl. set_solver.
      + exists 0%nat, []. repeat split; try done. simpl. lia.
      + intros r Hr. by apply elem_of_nil in Hr. }
    destruct (Qlt_le_dec (rectWidth options) (x + measuredWidth m)) as [Hwrap|Hfit];
      match goal with
      | |- context [Qlt_le_dec ?a ?b] => destruct (Qlt_le_dec a b) as [Hbreak|Hroom]
      end; try (by apply wp_ret).
    + eapply place_spec; eauto. left. reflexivity.
    + eapply place_spec; eauto.
Qed.
End Layout.

Lemma bind_run {A B} (m : M A) (k : A → M B) s a s1 :
  m s = Some (a, s1) → bind m k s = k a s1.
Proof. intros Hm. unfold bind. by rewrite Hm. Qed.

Section LayoutSteps.

Variable options : Options.

Local Open Scope Q_scope.

(** One turn of the loop that is not stopped by the height check: the word
    is placed at the cursor after the wrap, and the loop goes on behind it. *)
Lemma layoutLoop_cons frontGroup backGroup mesh rest m x y x1 y1 s :
  heap s !! mesh = Some (OText m) →
  (rectWidth options < x + measuredWidth m ∧ x1 = 0 ∧ y1 = y - lineHeightOf options ∨
   x + measuredWidth m <= rectWidth options ∧ x1 = x ∧ y1 = y) →
  - rectWidth options <= y1 - lineHeightOf options →
  layoutLoop options (mesh :: rest) frontGroup backGroup x y s =
  bind (placeWord mesh frontGroup backGroup x1 y1)
       (λ _, layoutLoop options rest frontGroup backGroup
               (x1 + measuredWidth m + spaceWidth options) y1) s.
Proof.
  intros Hm Hwrap Hroom. simpl. unfold bind at 1, getText. rewrite Hm.
  unfold lineHeightOf in *.
  destruct (Qlt_le_dec (rectWidth options) (x + measuredWidth m)) as [Hw|Hf];
    destruct Hwrap as [(Hw' & -> & ->)|(Hf' & -> & ->)]; try lra;
    match goal with
    | |- context [Qlt_le_dec ?a ?b] => destruct (Qlt_le_dec a b) as [Hbreak|_]
    end; try lra.
  all: unfold placeWord, bind;
    destruct (position_set mesh _ s) as [[[] s1]|]; [|done];
    destruct (clone mesh s1) as [[b s2]|]; [|done];
    destruct (position_set b _ s2) as [[[] s3]|]; [|done];
    destruct (add frontGroup mesh s3) as [[[] s4]|]; [|done];
    destruct (add backGroup b s4) as [[[] s5]|]; [|done];
    reflexivity.
Qed.

(** The turn that is stopped: nothing is placed, the state is what it was. *)
Lemma layoutLoop_break frontGroup backGroup mesh rest m x y s :
  heap s !! mesh = Some (OText m) →
  (if Qlt_le_dec (rectWidth options) (x + measuredWidth m)
   then y - lineHeightOf options else y) - lineHeightOf options < - rectWidth options →
  layoutLoop options (mesh :: rest) frontGroup backGroup x y s = Some (tt, s).
Proof.
  intros Hm Hbreak. simpl. unfold bind at 1, getText. rewrite Hm.
  unfold lineHeightOf in *.
  destruct (Qlt_le_dec (rectWidth options) (x + measuredWidth m)) as [Hw|Hf];
    match goal with
    | |- context [Qlt_le_dec ?a ?b] => destruct (Qlt_le_dec a b) as [_|Hroom]
    end; try done; lra.
Qed.

Lemma placeWord_spec frontGroup backGroup mesh m x y s :
  heap s !! mesh = Some (OText m) → isGroup s frontGroup → isGroup s backGroup →
  wp (placeWord mesh frontGroup backGroup x y)
     (λ _ s1, effect {[frontGroup; backGroup]}
                [CPositionSet mesh (mkVector3 x y 0);
                 CClone mesh (length (heap s));
                 CPositionSet (length (heap s)) (mkVector3 x y 0);
                 CAdd frontGroup mesh;
                 CAdd backGroup (length (heap s))]
                [mesh; length (heap s)] s s1) s.
Proof.
  intros Hm Hfront Hback. unfold placeWord.
  assert (E1 : effect ∅ [CPositionSet mesh (mkVector3 x y 0)] [] s
                 (set_calls (calls s ++ [CPositionSet mesh (mkVector3 x y 0)])
                    (set_heap (<[mesh := OText (Text.set_position (mkVector3 x y 0) m)]> (heap s)) s))).
  { by eapply effect_store_call. }
  apply wp_bind. eapply wp_position_set_text; [done|].
  apply wp_bind. eapply eff_clone; [by eapply lookup_insert_self|]. simpl.
  rewrite length_insert. intros s2 E2 Hb2.
  apply wp_bind. eapply eff_position_set_text; [done|]. intros s3 E3 Hb3.
  eff_compose ({[frontGroup; backGroup]} : gset ref) E1 E2 E12.
  eff_compose ({[frontGroup; backGroup]} : gset ref) E12 E3 E13.
  assert (isGroup s3 frontGroup) as [g3 Hg3] by eauto using effect_isGroup.
  apply wp_bind. eapply eff_add; [done|]. intros s4 E4 Hg4.
  eff_compose ({[frontGroup; backGroup]} : gset ref) E13 E4 E14.
  assert (isGroup s4 backGroup) as [g4 Hg4'] by eauto using effect_isGroup.
  apply wp_bind. eapply eff_add; [done|]. intros s5 E5 Hg5.
  eff_compose ({[frontGroup; backGroup]} : gset ref) E14 E5 E15.
  apply eff_push. intros s6 E6.
  eff_compose ({[frontGroup; backGroup]} : gset ref) E15 E6 E16.
  exact E16.
Qed.

End LayoutSteps.

(** * Hover *)

Section Hover.

Variable options : Options.

Lemma insertByDistance_elem i j l :
  j ∈ insertByDistance i l → j = i ∨ j ∈ l.
Proof.
  induction l as [|k l IH]; simpl.
  - intros ->%list_elem_of_singleton. by left.
  - destruct (Qlt_le_dec (distance k) (distance i)).
    + intros [->|Hj]%elem_of_cons; [right; left|].
      destruct (IH Hj) as [->|?]; [by left | right; by right].
    + intros [->|Hj]%elem_of_cons; [by left | by right].
Qed.

Lemma intersectObjects_elem ray objects i :
  i ∈ intersectObjects ray objects → iobject i ∈ objects.
Proof.
  unfold intersectObjects.
  set (l := concat _). intros Hi.
  assert (i ∈ l) as Hl.
  { clear -Hi. induction l as [|k l IH]; simpl in Hi; [done|].
    apply insertByDistance_elem in Hi as [->|Hi]; [left | right; auto]. }
  unfold l in Hl. apply list_elem_of_In, in_concat in Hl as (ds & Hds & Hi').
  apply in_map_iff in Hds as (o & <- & Ho).
  apply in_map_iff in Hi' as (d & <- & _). by apply list_elem_of_In.
Qed.

(** The object under the pointer is a registered one. *)
Lemma hovered_registered ray s r :
  hovered ray s = object r → r ∈ interactableMeshes s.
Proof.
  unfold hovered, hoveredOf.
  destruct (intersectObjects ray (interactableMeshes s)) as [|i l] eqn:Hi; [done|].
  intros [= <-]. apply (intersectObjects_elem ray). rewrite Hi. left.
Qed.

Lemma heap_colorAndSync r c s r' :
  heap (colorAndSync r c s) !! r' =
  if decide (r = r') then
    match heap s !! r with
    | Some (OText m) => Some (OText (Text.set_color c m))
    | o => o
    end
  else heap s !! r'.
Proof.
  unfold colorAndSync. destruct (heap s !! r) as [[m|g|im]|] eqn:Hr;
    simpl; case_decide; subst; try done.
  - by eapply lookup_insert_self.
  - by apply list_lookup_insert_ne.
Qed.

Lemma fields_colorAndSync r c s :
  interactableMeshes (colorAndSync r c s) = interactableMeshes s ∧
  highlightedTextMesh (colorAndSync r c s) = highlightedTextMesh s.
Proof. unfold colorAndSync. by destruct (heap s !! r) as [[m|g|im]|]. Qed.

Lemma textOf_colorAndSync r c s o : textOf (colorAndSync r c s) o = textOf s o.
Proof.
  destruct o as [| |r']; try done. simpl. rewrite heap_colorAndSync.
  case_decide; [subst|done]. by destruct (heap s !! r') as [[m|g|im]|].
Qed.

Lemma heap_resetHighlight s r' :
  heap (resetHighlight options s) !! r' =
  match highlightedTextMesh s with
  | object r =>
      if hasText s (object r) then heap (colorAndSync r (textColor options) s) !! r'
      else heap s !! r'
  | _ => heap s !! r'
  end.
Proof.
  unfold resetHighlight. destruct (highlightedTextMesh s) as [| |r]; try done.
  by destruct (hasText s (object r)).
Qed.

Lemma fields_resetHighlight s :
  interactableMeshes (resetHighlight options s) = interactableMeshes s ∧
  highlightedTextMesh (resetHighlight options s) = highlightedTextMesh s.
Proof.
  unfold resetHighlight.
  destruct (hasText s (highlightedTextMesh s)); [|done].
  destruct (highlightedTextMesh s) as [| |r] eqn:Hh; try done. simpl.
  destruct (fields_colorAndSync r (textColor options) s) as [-> ->]. done.
Qed.

Lemma textOf_resetHighlight s o : textOf (resetHighlight options s) o = textOf s o.
Proof.
  unfold resetHighlight.
  destruct (hasText s (highlightedTextMesh s)); [|done].
  destruct (highlightedTextMesh s) as [| |r]; try done.
  unfold setCursorStyle. destruct o as [| |r']; try done. simpl.
  apply (textOf_colorAndSync r (textColor options) s (object r')).
Qed.

Lemma hasText_resetHighlight s o : hasText (resetHighlight options s) o = hasText s o.
Proof. unfold hasText. by rewrite textOf_resetHighlight. Qed.

Lemma fields_applyHighlight target c s :
  interactableMeshes (applyHighlight target c s) = interactableMeshes s ∧
  highlightedTextMesh (applyHighlight target c s) = highlightedTextMesh s.
Proof.
  unfold applyHighlight. destruct (hasText s target); [|done].
  destruct target as [| |r]; try done. simpl. apply fields_colorAndSync.
Qed.

Lemma heap_applyHighlight target c s r' :
  heap (applyHighlight target c s) !! r' =
  match target with
  | object r => if hasText s (object r) then heap (colorAndSync r c s) !! r'
                else heap s !! r'
  | _ => heap s !! r'
  end.
Proof.
  unfold applyHighlight. destruct target as [| |r]; try done.
  by destruct (hasText s (object r)).
Qed.

Lemma textOf_applyHighlight target c s o :
  textOf (applyHighlight target c s) o = textOf s o.
Proof.
  unfold applyHighlight. destruct (hasText s target); [|done].
  destruct target as [| |r]; try done.
  destruct o as [| |r']; try done. simpl.
  apply (textOf_colorAndSync r c s (object r')).
Qed.

Lemma calls_colorAndSync r c s :
  hasText s (object r) = true →
  calls (colorAndSync r c s) = calls s ++ [CSetColor r c; CSync r].
Proof.
  unfold hasText, textOf, colorAndSync.
  by destruct (heap s !! r) as [[m|g|im]|].
Qed.

Lemma calls_resetHighlight s :
  calls (resetHighlight options s) = calls s ++ resetCalls options s.
Proof.
  unfold resetHighlight, resetCalls.
  destruct (hasText s (highlightedTextMesh s)) eqn:Ht; [|done].
  destruct (highlightedTextMesh s) as [| |r]; try done. simpl.
  rewrite calls_colorAndSync; [|done]. by rewrite <- app_assoc.
Qed.

Lemma calls_applyHighlight target s :
  calls (applyHighlight target (highlightedTextColor options) s) =
  calls s ++ applyCalls options s target.
Proof.
  unfold applyHighlight, applyCalls.
  destruct (hasText s target) eqn:Ht; [|by rewrite app_nil_r].
  destruct target as [| |r]; try by rewrite app_nil_r. simpl.
  rewrite calls_colorAndSync; [|done]. by rewrite <- app_assoc.
Qed.

Lemma highlightColored_colorAndSync r c s r' :
  highlightColored options (colorAndSync r c s) r' →
  (r' = r ∧ c = highlightedTextColor options ∧ isText s r) ∨
  (r' ≠ r ∧ highlightColored options s r').
Proof.
  intros (m & Hm & Hc). rewrite heap_colorAndSync in Hm. case_decide as Hr.
  - subst r'. destruct (heap s !! r) as [[m0|g|im]|] eqn:Hr; try done.
    injection Hm as <-. left. split; [done|]. split; [done | by exists m0].
  - right. split; [done | by exists m].
Qed.

(** After [resetHighlight] no mesh carries the highlight colour. *)
Lemma reset_clears s r :
  textColor options ≠ highlightedTextColor options →
  highlightRecorded options s →
  ¬ highlightColored options (resetHighlight options s) r.
Proof.
  intros Hne Hrec (m & Hm & Hc). rewrite heap_resetHighlight in Hm.
  destruct (highlightedTextMesh s) as [| |r0] eqn:Hh.
  - destruct (Hrec r) as [? _]; [by exists m | congruence].
  - destruct (Hrec r) as [? _]; [by exists m | congruence].
  - destruct (hasText s (object r0)) eqn:Ht.
    + destruct (highlightColored_colorAndSync r0 (textColor options) s r)
        as [(_ & ? & _)|(Hr & Hcol)]; [by exists m | done |].
      destruct (Hrec r Hcol) as [? _]. congruence.
    + destruct (Hrec r) as [Heq Ht']; [by exists m|]. congruence.
Qed.

(** After [applyHighlight] only the target can carry it. *)
Lemma apply_colors_target target s r :
  (∀ r', ¬ highlightColored options s r') →
  highlightColored options (applyHighlight target (highlightedTextColor options) s) r →
  target = object r ∧ hasText s (object r) = true.
Proof.
  intros Hnone (m & Hm & Hc). rewrite heap_applyHighlight in Hm.
  destruct target as [| |r0]; try (exfalso; apply (Hnone r); by exists m).
  destruct (hasText s (object r0)) eqn:Ht; [|exfalso; apply (Hnone r); by exists m].
  destruct (highlightColored_colorAndSync r0 (highlightedTextColor options) s r)
    as [(-> & _ & _)|(_ & Hcol)]; [by exists m | done |].
  exfalso. by apply (Hnone r).
Qed.

Lemma processIntersections_unfold ray s :
  processIntersections options ray s =
  if decide (highlightedTextMesh s = hovered ray s) then s
  else set_highlightedTextMesh (hovered ray s)
         (applyHighlight (hovered ray s) (highlightedTextColor options)
                         (resetHighlight options s)).
Proof. reflexivity. Qed.

Lemma frame_highlightRecorded ray s :
  textColor options ≠ highlightedTextColor options →
  highlightRecorded options s →
  highlightRecorded options (processIntersections options ray s).
Proof.
  intros Hne Hrec. rewrite processIntersections_unfold. case_decide as Hsame; [done|].
  intros r (m & Hm & Hc). simpl in Hm.
  destruct (apply_colors_target (hovered ray s) (resetHighlight options s) r)
    as [Ht Hhas]; [intros r'; by apply reset_clears | by exists m |].
  split; [done|].
  assert (∀ s0 o, hasText (set_highlightedTextMesh (hovered ray s) s0) o = hasText s0 o)
    as -> by done.
  unfold hasText in *. by rewrite textOf_applyHighlight.
Qed.

Lemma frame_registry ray s :
  interactableMeshes (processIntersections options ray s) = interactableMeshes s.
Proof.
  rewrite processIntersections_unfold. case_decide; [done|]. simpl.
  destruct (fields_applyHighlight (hovered ray s) (highlightedTextColor options)
              (resetHighlight options s)) as [-> _].
  apply fields_resetHighlight.
Qed.

Lemma frame_highlighted ray s :
  highlightedTextMesh (processIntersections options ray s) = hovered ray s.
Proof. rewrite processIntersections_unfold. by case_decide. Qed.

Lemma kind_colorAndSync r c s r' :
  (isText s r' → isText (colorAndSync r c s) r') ∧
  (isInstancedMesh s r' → isInstancedMesh (colorAndSync r c s) r').
Proof.
  split; intros [x Hx]; unfold isText, isInstancedMesh; rewrite heap_colorAndSync;
    case_decide; subst; rewrite ?Hx; eauto.
Qed.

Lemma frame_kinds ray s r :
  (isText s r → isText (processIntersections options ray s) r) ∧
  (isInstancedMesh s r → isInstancedMesh (processIntersections options ray s) r).
Proof.
  rewrite processIntersections_unfold. case_decide; [done|].
  assert (Hreset : (isText s r → isText (resetHighlight options s) r) ∧
                   (isInstancedMesh s r → isInstancedMesh (resetHighlight options s) r)).
  { unfold isText, isInstancedMesh. setoid_rewrite heap_resetHighlight.
    destruct (highlightedTextMesh s) as [| |r0]; try done.
    destruct (hasText s (object r0)); [|done]. apply kind_colorAndSync. }
  set (s1 := resetHighlight options s) in *.
  assert (Happly : (isText s1 r → isText (applyHighlight (hovered ray s) (highlightedTextColor options) s1) r) ∧
                   (isInstancedMesh s1 r → isInstancedMesh (applyHighlight (hovered ray s) (highlightedTextColor options) s1) r)).
  { unfold isText, isInstancedMesh. setoid_rewrite heap_applyHighlight.
    destruct (hovered ray s) as [| |r0]; try done.
    destruct (hasText s1 (object r0)); [|done]. apply kind_colorAndSync. }
  unfold isText, isInstancedMesh in *. simpl. naive_solver.
Qed.

Lemma frame_registryTyped ray s :
  registryTyped s → registryTyped (processIntersections options ray s).
Proof.
  unfold registryTyped. rewrite frame_registry. intros Hreg.
  eapply Forall_impl; [exact Hreg|].
  intros r [Hr|Hr]; [left | right]; by apply frame_kinds.
Qed.

End Hover.

(** * Assembly *)

Lemma cacheWith_lookup_other new (c : gmap string ref) w :
  w ∉ new.*1 → cacheWith new c !! w = c !! w.
Proof.
  revert c. induction new as [|[w0 r0] new IH]; intros c Hw; [done|].
  simpl in *. apply not_elem_of_cons in Hw as [Hne Hw].
  unfold cacheWith in *. simpl. rewrite IH; [|done]. by rewrite lookup_insert_ne.
Qed.

Lemma cacheWith_lookup new (c : gmap string ref) w r :
  NoDup new.*1 →
  cacheWith new c !! w = Some r ↔ (w, r) ∈ new ∨ ((w ∉ new.*1) ∧ c !! w = Some r).
Proof.
  revert c. induction new as [|[w0 r0] new IH]; intros c Hnd.
  - simpl. split; [intros ?; right; split; [apply not_elem_of_nil | done]|].
    intros [Hin|[_ ?]]; [by apply elem_of_nil in Hin | done].
  - simpl in Hnd. apply NoDup_cons in Hnd as [Hw0 Hnd].
    change (cacheWith ((w0, r0) :: new) c) with (cacheWith new (<[w0 := r0]> c)).
    rewrite IH; [|done]. simpl. split.
    + intros [Hin|[Hnin Hl]]; [left; by right|].
      destruct (decide (w0 = w)) as [->|Hne].
      * rewrite lookup_insert_eq in Hl. injection Hl as ->. left. left.
      * rewrite lookup_insert_ne in Hl; [|done]. right. split; [|done].
        by apply not_elem_of_cons.
    + intros [[Heq|Hin]%elem_of_cons|[Hnin Hl]].
      * injection Heq as -> ->. right. split; [done | by rewrite lookup_insert_eq].
      * by left.
      * apply not_elem_of_cons in Hnin as [Hne Hnin]. right. split; [done|].
        by rewrite lookup_insert_ne.
Qed.

Lemma newTexts_elem evs w r : (w, r) ∈ newTexts evs ↔ CNewText r w ∈ evs.
Proof.
  unfold newTexts. rewrite list_elem_of_omap. split.
  - intros (c & Hc & Hm). destruct c; try done. by injection Hm as -> ->.
  - intros Hc. by exists (CNewText r w).
Qed.

Section Generate.

Variable options : Options.

Lemma textMeshOf_spec word s :
  cacheTyped s →
  wp (textMeshOf options word)
     (λ r s', ∃ evs,
        effect ∅ evs [] s s' ∧ r = length (heap s) ∧
        (∃ m, heap s' !! r = Some (OText m) ∧ Text.text m = word) ∧
        cacheTyped s' ∧
        ((textMeshCache s !! word = None ∧ evs = [CNewText r word] ∧
          textMeshCache s' = <[word := r]> (textMeshCache s)) ∨
         (∃ src, textMeshCache s !! word = Some src ∧ evs = [CClone src r] ∧
                 textMeshCache s' = textMeshCache s))) s.
Proof.
  intros Htyped. unfold textMeshOf. apply wp_bind, wp_gets.
  destruct (textMeshCache s !! word) as [cached|] eqn:Hc.
  - destruct (Htyped _ _ Hc) as (m & Hm & Htext).
    eapply eff_clone; [done|]. intros s' E Hnew.
    exists [CClone cached (length (heap s))].
    assert (Hcache : textMeshCache s' = textMeshCache s) by apply (effect_cache _ _ _ _ _ E).
    split; [done|]. split; [done|]. split; [by eexists|]. split.
    + intros w r Hw. rewrite Hcache in Hw. destruct (Htyped _ _ Hw) as (m' & Hm' & Ht').
      destruct (effect_text _ _ _ _ _ _ _ E Hm') as (m'' & ? & ? & _). exists m''.
      split; [done | congruence].
    + right. by exists cached.
  - apply wp_bind, wp_alloc, wp_bind, wp_call, wp_bind, wp_modify, wp_ret.
    set (r := length (heap s)). set (o := OText _).
    exists [CNewText r word]. split; [|split; [done|split; [|split]]].
    + split; try done; simpl.
      * apply evolves_alloc, _.
      * by rewrite app_nil_r.
    + simpl. eexists. split; [apply lookup_snoc_new | done].
    + unfold cacheTyped. simpl. intros w r' Hw. destruct (decide (word = w)) as [<-|Hne].
      * rewrite lookup_insert_eq in Hw. injection Hw as <-.
        eexists. split; [apply lookup_snoc_new | done].
      * rewrite lookup_insert_ne in Hw; [|done].
        destruct (Htyped _ _ Hw) as (m' & Hm' & Ht'). exists m'.
        split; [by apply lookup_app_l_Some | done].
    + left. done.
Qed.

Lemma builtFrom_later s s1 s' evs1 evs2 w r :
  effect ∅ evs1 [] s s1 → effect ∅ evs2 [] s1 s' →
  (∀ w' r', (w', r') ∈ newTexts evs2 → textMeshCache s1 !! w' = None) →
  builtFrom s s1 evs1 w r → builtFrom s s' (evs1 ++ evs2) w r.
Proof.
  intros E1 E2 Hnew (Hfresh & (m & Hm & Ht) & Hhow). split; [done|]. split.
  - destruct (effect_text _ _ _ _ _ _ _ E2 Hm) as (m' & ? & ? & _).
    exists m'. split; [done | congruence].
  - destruct Hhow as [Hin|(src & Hin & Hc & Hne)]; [left; set_solver|].
    right. exists src. split; [set_solver|]. split; [|done].
    rewrite (effect_cache _ _ _ _ _ E2). rewrite cacheWith_lookup_other; [done|].
    intros ((w' & r') & Hw' & Hin')%list_elem_of_fmap. simpl in Hw'. subst w'.
    specialize (Hnew _ _ Hin'). congruence.
Qed.

Lemma builtFrom_earlier s s1 s' evs1 evs2 w r :
  effect ∅ evs1 [] s s1 → builtFrom s1 s' evs2 w r → builtFrom s s' (evs1 ++ evs2) w r.
Proof.
  intros E1 (Hfresh & Hm & Hhow). split; [|split; [done|]].
  - pose proof (effect_length _ _ _ _ _ E1). lia.
  - destruct Hhow as [Hin|(src & Hin & Hc)]; [left; set_solver|].
    right. exists src. split; [set_solver | done].
Qed.

Lemma words_map_spec words :
  ∀ s, cacheTyped s →
       wp (mapM (textMeshOf options) words)
          (λ meshes s', ∃ evs, effect ∅ evs [] s s' ∧ cacheTyped s' ∧
                               generated s s' words meshes evs) s.
Proof.
  induction words as [|word words IH]; intros s Htyped.
  - apply wp_ret. exists []. split; [apply effect_refl|]. split; [done|].
    repeat split; try done; try constructor.
    + intros w Hw. by apply elem_of_nil in Hw.
    + by apply elem_of_nil in H.
    + by apply elem_of_nil in H.
  - simpl. apply wp_bind. eapply wp_mono; [by apply textMeshOf_spec|].
    intros r s1 (evs1 & E1 & -> & (m & Hm & Ht) & Htyped1 & Hhow).
    apply wp_bind. eapply wp_mono; [by apply IH|].
    intros meshes s' (evs2 & E2 & Htyped' & Hbuilt & Hall & Hnd & Hnew & Hbuild & Hndm).
    apply wp_ret. exists (evs1 ++ evs2).
    eff_compose (∅ : gset ref) E1 E2 E.
    split; [exact E|]. split; [done|].
    assert (Hnew2 : ∀ w' r', (w', r') ∈ newTexts evs2 → textMeshCache s1 !! w' = None).
    { intros w' r' Hin. by destruct (Hnew _ _ Hin). }
    assert (Hfirst : builtFrom s s1 evs1 word (length (heap s))).
    { split; [done|]. split; [by exists m|].
      destruct Hhow as [(Hc & -> & Hc1)|(src & Hc & -> & Hc1)].
      - left. apply list_elem_of_here.
      - right. exists src. split; [apply list_elem_of_here|]. split; [congruence|].
        destruct (Htyped _ _ Hc) as (m0 & Hm0 & _). apply lookup_lt_Some in Hm0. lia. }
    assert (Hcache1 : is_Some (textMeshCache s1 !! word)).
    { destruct Hhow as [(Hc & -> & ->)|(src & Hc & -> & ->)];
        [by rewrite lookup_insert_eq | by rewrite Hc]. }
    split; [|split; [|split; [|split; [|split]]]].
    + constructor; [by eapply builtFrom_later|].
      eapply Forall2_impl; [exact Hbuilt|]. intros w r Hb. by eapply builtFrom_earlier.
    + intros w [->|Hw]%elem_of_cons; [|by apply Hall].
      destruct Hcache1 as [r Hr]. exists r.
      rewrite (effect_cache _ _ _ _ _ E2). rewrite cacheWith_lookup_other; [done|].
      intros ((w' & r') & Hw' & Hin')%list_elem_of_fmap. simpl in Hw'. subst w'.
      specialize (Hnew2 _ _ Hin'). congruence.
    + unfold newTexts. rewrite omap_app, fmap_app. fold (newTexts evs1) (newTexts evs2).
      apply NoDup_app. split; [|split; [|done]].
      * destruct Hhow as [(Hc & -> & _)|(src & Hc & -> & _)]; simpl;
          [apply NoDup_singleton | apply NoDup_nil_2].
      * intros w Hw1 ((w' & r') & Hw' & Hin')%list_elem_of_fmap. simpl in Hw'. subst w'.
        specialize (Hnew2 _ _ Hin').
        destruct Hhow as [(Hc & -> & Hc1)|(src & Hc & -> & _)]; simpl in Hw1;
          [|by apply elem_of_nil in Hw1].
        apply list_elem_of_singleton in Hw1 as ->. rewrite Hc1, lookup_insert_eq in Hnew2. done.
    + intros w r. unfold newTexts. rewrite omap_app. fold (newTexts evs1) (newTexts evs2).
      intros [Hin|Hin]%elem_of_app.
      * destruct Hhow as [(Hc & -> & _)|(src & Hc & -> & _)]; simpl in Hin;
          [|by apply elem_of_nil in Hin].
        apply list_elem_of_singleton in Hin. injection Hin as -> ->.
        split; [done | left].
      * destruct (Hnew _ _ Hin) as [Hc1 Hw]. split; [|by right].
        destruct Hhow as [(Hc & -> & Hc')|(src & Hc & -> & Hc')]; [|congruence].
        rewrite Hc' in Hc1. destruct (decide (word = w)) as [->|Hne];
          [by rewrite lookup_insert_eq in Hc1 | by rewrite lookup_insert_ne in Hc1].
    + apply Forall_app. split; [|done].
      destruct Hhow as [(Hc & -> & _)|(src & Hc & -> & _)]; by repeat constructor.
    + apply NoDup_cons. split; [|done].
      intros Hin. apply list_elem_of_lookup in Hin as [i Hi].
      destruct (Forall2_lookup_r _ _ _ _ _ Hbuilt Hi) as (w & _ & Hfresh & _).
      apply lookup_lt_Some in Hm. lia.
Qed.

Lemma syncPromises_spec meshes :
  ∀ s, Forall (isText s) meshes →
       wp (mapM syncPromise meshes)
          (λ res s', res = meshes ∧ effect ∅ (map CSync meshes) [] s s') s.
Proof.
  induction meshes as [|mesh meshes IH]; intros s Hm.
  - apply wp_ret. split; [done | apply effect_refl].
  - apply Forall_cons in Hm as [Hmesh Hm]. simpl.
    apply wp_bind. unfold syncPromise at 1. apply wp_bind. apply eff_sync; [done|].
    intros s1 E1. apply wp_ret. apply wp_bind. eapply wp_mono.
    { apply IH. eapply Forall_impl; [exact Hm|]. intros r. by eapply effect_isText. }
    intros res s' [-> E2]. apply wp_ret. split; [done|].
    eff_compose (∅ : gset ref) E1 E2 E. exact E.
Qed.

End Generate.

Lemma newTexts_syncs meshes : newTexts (map CSync meshes) = [].
Proof. induction meshes; [done|]. simpl. done. Qed.

Lemma newTexts_app e1 e2 : newTexts (e1 ++ e2) = newTexts e1 ++ newTexts e2.
Proof. apply omap_app. Qed.

Lemma emptyGroup_isGroup s r : emptyGroup s r → isGroup s r.
Proof. intros (g & Hg & _). by exists g. Qed.

(** A group outside the footprint stays without children. *)
Lemma effect_emptyGroup F evs reg s s' r :
  effect F evs reg s s' → r ∉ F → emptyGroup s r → emptyGroup s' r.
Proof.
  intros E HF (g & Hg & Hc).
  destruct (effect_children _ _ _ _ _ _ _ E HF Hg) as (g' & Hg' & Hc').
  exists g'. split; [done | congruence].
Qed.

Lemma effect_keeps_empty evs reg s s' :
  effect ∅ evs reg s s' → ∀ r, emptyGroup s r → emptyGroup s' r.
Proof. intros E r Hr. eapply effect_emptyGroup; [exact E | set_solver | exact Hr]. Qed.

Section Cells.

Variable options : Options.
Variable shape : string → option TextRenderInfo.

Lemma generateTextMeshes_spec s :
  cacheTyped s →
  wp (generateTextMeshes options)
     (λ meshes s', ∃ evs,
        effect ∅ (evs ++ map CSync meshes) [] s s' ∧ cacheTyped s' ∧
        generated s s' (split (text options)) meshes evs) s.
Proof.
  intros Htyped. unfold generateTextMeshes. apply wp_bind.
  eapply wp_mono; [by apply words_map_spec|].
  intros meshes s1 (evs & E1 & Htyped1 & Hbuilt & Hall & Hnd & Hnew & Hbuild & Hndm).
  assert (Htext : Forall (isText s1) meshes).
  { apply Forall_forall. intros r Hr. apply list_elem_of_lookup in Hr as [i Hi].
    destruct (Forall2_lookup_r _ _ _ _ _ Hbuilt Hi) as (w & _ & _ & (m & Hm & _) & _).
    by exists m. }
  eapply wp_mono; [by apply syncPromises_spec|].
  intros res s' [-> E2]. exists evs.
  eff_compose (∅ : gset ref) E1 E2 E. split; [exact E|].
  assert (Hcache : textMeshCache s' = textMeshCache s1).
  { rewrite (effect_cache _ _ _ _ _ E2). by rewrite newTexts_syncs. }
  split.
  - intros w r Hw. rewrite Hcache in Hw. destruct (Htyped1 _ _ Hw) as (m & Hm & Ht).
    destruct (effect_text _ _ _ _ _ _ _ E2 Hm) as (m' & ? & ? & _).
    exists m'. split; [done | congruence].
  - split; [|split; [|done]].
    + eapply Forall2_impl; [exact Hbuilt|].
      intros w r (Hfresh & (m & Hm & Ht) & Hhow). split; [done|]. split.
      * destruct (effect_text _ _ _ _ _ _ _ E2 Hm) as (m' & ? & ? & _).
        exists m'. split; [done | congruence].
      * rewrite Hcache. exact Hhow.
    + intros w Hw. rewrite Hcache. by apply Hall.
Qed.

Lemma createTextMeshes_begin_spec position rotation s :
  cacheTyped s →
  wp (createTextMeshes_begin options position rotation)
     (λ p s', ∃ evs,
        pGroup p = length (heap s) ∧ pFrontGroup p = S (length (heap s)) ∧
        pBackGroup p = S (S (length (heap s))) ∧
        effect ∅ (CPositionSet (pGroup p) position ::
                  CPositionSet (pFrontGroup p)
                    (mkVector3 (- rectWidth options * (1 # 2)) (rectWidth options * (1 # 2)) (1 # 1000)) ::
                  CPositionSet (pBackGroup p)
                    (mkVector3 (rectWidth options * (1 # 2)) (rectWidth options * (1 # 2)) (- (1 # 1000))) ::
                  evs ++ map CSync (pTextMeshes p)) [] s s' ∧
        cacheTyped s' ∧ pendingReady s' p ∧
        generated s s' (split (text options)) (pTextMeshes p) evs) s.
Proof.
  intros Htyped. unfold createTextMeshes_begin.
  apply wp_bind, eff_newGroup. intros s1 E1 Hg1 L1.
  apply wp_bind, eff_newGroup. intros s2 E2 Hf2 L2.
  apply wp_bind, eff_newGroup. intros s3 E3 Hb3 L3.
  rewrite L2 in Hb3 |- *. rewrite L1 in Hf2, Hb3 |- *. set (g := length (heap s)) in *.
  assert (Hg : emptyGroup s1 g) by (by eexists).
  assert (Hf : emptyGroup s2 (S g)) by (by eexists).
  assert (Hb : emptyGroup s3 (S (S g))) by (by eexists).
  eff_compose (∅ : gset ref) E1 E2 E12. eff_compose (∅ : gset ref) E12 E3 E13.
  eff_compose (∅ : gset ref) E2 E3 E23.
  apply (effect_keeps_empty _ _ _ _ E23) in Hg.
  apply (effect_keeps_empty _ _ _ _ E3) in Hf.
  destruct (Hg) as (gg & Hgg & _).
  apply wp_bind. eapply eff_position_set_group; [done|]. intros s4 E4 Hg4.
  apply wp_bind. eapply eff_rotation_copy; [done|]. intros s5 E5 Hg5.
  eff_compose (∅ : gset ref) E13 E4 E14. eff_compose (∅ : gset ref) E14 E5 E15.
  eff_compose (∅ : gset ref) E4 E5 E45.
  apply (effect_keeps_empty _ _ _ _ E45) in Hg, Hf, Hb.
  destruct (Hf) as (gf & Hgf & _).
  apply wp_bind. eapply eff_position_set_group; [done|]. intros s6 E6 Hf6.
  apply (effect_keeps_empty _ _ _ _ E6) in Hg, Hf, Hb.
  destruct (Hb) as (gb & Hgb & _).
  apply wp_bind. eapply eff_position_set_group; [done|]. intros s7 E7 Hb7.
  apply wp_bind. eapply eff_rotateY; [done|]. intros s8 gb' E8 Hb8 _.
  eff_compose (∅ : gset ref) E15 E6 E16. eff_compose (∅ : gset ref) E16 E7 E17.
  eff_compose (∅ : gset ref) E17 E8 E18. eff_compose (∅ : gset ref) E7 E8 E78.
  apply (effect_keeps_empty _ _ _ _ E78) in Hg, Hf, Hb.
  assert (Hcache8 : textMeshCache s8 = textMeshCache s) by apply (effect_cache _ _ _ _ _ E18).
  assert (Htyped8 : cacheTyped s8).
  { intros w r Hw. rewrite Hcache8 in Hw. destruct (Htyped _ _ Hw) as (m & Hm & Ht).
    destruct (effect_text _ _ _ _ _ _ _ E18 Hm) as (m' & ? & ? & _).
    exists m'. split; [done | congruence]. }
  apply wp_bind. eapply wp_mono; [by apply generateTextMeshes_spec|].
  intros meshes s9 (evs & E9 & Htyped9 & Hbuilt & Hall & Hnd & Hnew & Hbuild & Hndm).
  apply wp_ret. exists evs. simpl.
  eff_compose (∅ : gset ref) E18 E9 E19.
  apply (effect_keeps_empty _ _ _ _ E9) in Hg, Hf, Hb.
  split; [done|]. split; [done|]. split; [done|]. split; [exact E19|].
  split; [done|]. split.
  - split; [done|]. split; [done|]. split; [done|]. simpl.
    apply Forall_forall. intros r Hr. apply list_elem_of_lookup in Hr as [i Hi].
    destruct (Forall2_lookup_r _ _ _ _ _ Hbuilt Hi) as (w & _ & _ & (m & Hm & _) & _).
    by exists m.
  - split; [|split; [done|split; [done|split; [|done]]]].
    + eapply Forall2_impl; [exact Hbuilt|].
      intros w r (Hfresh & Hm & Hhow). split; [|done].
      pose proof (effect_length _ _ _ _ _ E18). lia.
    + intros w r Hin. rewrite <- Hcache8. by eapply Hnew.
Qed.

End Cells.

Lemma pairsOf_elem fronts backs r : r ∈ pairsOf fronts backs → r ∈ fronts ∨ r ∈ backs.
Proof.
  revert backs. induction fronts as [|f fs IH]; intros [|b bs]; simpl;
    try (intros H; by apply elem_of_nil in H).
  intros [->|[->|Hr]%elem_of_cons]%elem_of_cons.
  - left. left.
  - right. left.
  - destruct (IH _ Hr); [left | right]; by right.
Qed.

Section Resume.

Variable options : Options.
Variable shape : string → option TextRenderInfo.

Lemma synced_all_spec meshes :
  ∀ s, Forall (isText s) meshes →
       wp (mapM (synced shape) meshes)
          (λ _ s', effect (list_to_set meshes) [] [] s s') s.
Proof.
  induction meshes as [|mesh meshes IH]; intros s Hm.
  - apply wp_ret. simpl. apply effect_refl.
  - apply Forall_cons in Hm as [[m Hmesh] Hm]. simpl.
    apply wp_bind. eapply eff_synced; [done|]. intros s1 E1 _.
    apply wp_bind. eapply wp_mono.
    { apply IH. eapply Forall_impl; [exact Hm|]. intros r. by eapply effect_isText. }
    intros res s' E2. apply wp_ret.
    eff_compose ({[mesh]} ∪ list_to_set meshes : gset ref) E1 E2 E. exact E.
Qed.

Lemma createTextMeshes_resume_spec p s :
  pendingReady s p → NoDup [pGroup p; pFrontGroup p; pBackGroup p] →
  wp (createTextMeshes_resume options shape p)
     (λ group s', group = pGroup p ∧
        ∃ evs reg, effect (cellRefs p) evs reg s s' ∧ cellDone s' p ∧
                   Forall isLayoutCall evs ∧ cellPlaced p s s' evs reg) s.
Proof.
  intros (Hg & Hf & Hb & Hm) Hnd. unfold createTextMeshes_resume.
  destruct p as [g f b meshes]. simpl in *.
  assert (Hkind : ∀ r, emptyGroup s r → r ∉ (list_to_set meshes : gset ref)).
  { intros r Hr Hin. apply elem_of_list_to_set in Hin.
    apply (proj1 (Forall_forall _ _) Hm) in Hin.
    eapply isText_not_isGroup; [exact Hin | by apply emptyGroup_isGroup]. }
  apply NoDup_cons in Hnd as [Hgfb Hnd]. apply NoDup_cons in Hnd as [Hfb _].
  apply wp_bind. eapply wp_mono; [by apply synced_all_spec|]. intros ? s1 E1. simpl in E1.
  apply (effect_emptyGroup _ _ _ _ _ g E1) in Hg as Hg1; [|by apply Hkind].
  apply (effect_emptyGroup _ _ _ _ _ f E1) in Hf as Hf1; [|by apply Hkind].
  apply (effect_emptyGroup _ _ _ _ _ b E1) in Hb as Hb1; [|by apply Hkind].
  apply wp_bind. unfold layoutTextMeshes. eapply wp_mono.
  { apply layoutLoop_spec.
    - eapply Forall_impl; [exact Hm|]. intros r. by eapply effect_isText.
    - by apply emptyGroup_isGroup.
    - by apply emptyGroup_isGroup. }
  intros ? s2 (evs & reg & E2 & _ & Hreg & (n & backs & _ & _ & Hfresh & Hpairs & _) & Hnew & Hplaced).
  apply (effect_emptyGroup _ _ _ _ _ g E2) in Hg1 as Hg2; [|set_solver].
  destruct Hg2 as (gg & Hgg & Hcg).
  apply wp_bind. eapply eff_add; [done|]. intros s3 E3 Hg3.
  apply wp_bind. eapply eff_add; [done|]. intros s4 E4 Hg4.
  apply wp_ret. split; [done|]. exists (evs ++ [CAdd g f; CAdd g b]), reg.
  eff_compose (cellRefs (mkPending g f b meshes)) E1 E2 E12.
  eff_compose ({[g]} : gset ref) E3 E4 E34.
  assert (E14 : effect (cellRefs (mkPending g f b meshes)) (evs ++ [CAdd g f; CAdd g b]) reg s s4).
  { eapply effect_seq; [exact E12 | exact E34 | unfold cellRefs; simpl; set_solver | done |].
    by rewrite app_nil_r. }
  split; [exact E14|]. split; [|split; [|split; [|split]]].
  - exists (Group.add b (Group.add f gg)). split; [done|]. simpl. rewrite Hcg. split; [done|].
    split; eapply effect_isGroup; try exact E14; by apply emptyGroup_isGroup.
  - apply Forall_app. split; [done|]. by repeat constructor.
  - eapply Forall_impl; [exact Hreg|]. intros r. by eapply effect_isText.
  - intros r Hr. rewrite Hpairs in Hr. apply pairsOf_elem in Hr as [Hr|Hr].
    + left. by eapply subseteq_take.
    + right. apply (proj1 (Forall_forall _ _) Hfresh) in Hr.
      pose proof (effect_length _ _ _ _ _ E1). lia.
  - intros r Hr Hin. destruct (Hplaced r Hr Hin) as [(gf & Hgf & Hc) [v Hv]]. split.
    + destruct (effect_children_prefix _ _ _ _ _ _ _ E34 Hgf) as (gf' & Hgf' & Hpre).
      exists gf'. split; [done|]. by eapply elem_of_prefix.
    + exists v. set_solver.
Qed.

End Resume.

Lemma elem_of_groupRefs ps r :
  r ∈ groupRefs ps ↔ ∃ p, p ∈ ps ∧ r ∈ [pGroup p; pFrontGroup p; pBackGroup p].
Proof.
  unfold groupRefs. rewrite list_elem_of_bind. naive_solver.
Qed.

Lemma elem_of_cellRefs p r :
  r ∈ cellRefs p ↔ r ∈ [pGroup p; pFrontGroup p; pBackGroup p] ∨ r ∈ pTextMeshes p.
Proof. unfold cellRefs. set_solver. Qed.

(** A group that is not one of the pending calls is outside their footprint. *)
Lemma group_outside_cells s ps r :
  Forall (pendingReady s) ps → isGroup s r → r ∉ groupRefs ps →
  r ∉ ⋃ (cellRefs <$> ps).
Proof.
  intros Hready Hr Hnot Hin. apply elem_of_union_list in Hin as (X & HX & Hin).
  apply list_elem_of_fmap in HX as (p & -> & Hp).
  apply elem_of_cellRefs in Hin as [Hin|Hin].
  - apply Hnot, elem_of_groupRefs. by exists p.
  - apply (proj1 (Forall_forall _ _) Hready) in Hp as (_ & _ & _ & Hm).
    apply (proj1 (Forall_forall _ _) Hm) in Hin. by eapply isText_not_isGroup.
Qed.

Lemma pendingReady_groups s p r :
  pendingReady s p → r ∈ [pGroup p; pFrontGroup p; pBackGroup p] → emptyGroup s r.
Proof.
  intros (Hg & Hf & Hb & _) Hr.
  repeat (apply elem_of_cons in Hr as [->|Hr]; [done|]). by apply elem_of_nil in Hr.
Qed.

(** A pending call stays ready under an effect that does not touch its
    groups. *)
Lemma effect_pendingReady F evs reg s s' p :
  effect F evs reg s s' →
  (∀ r, r ∈ [pGroup p; pFrontGroup p; pBackGroup p] → r ∉ F) →
  pendingReady s p → pendingReady s' p.
Proof.
  intros E HF (Hg & Hf & Hb & Hm).
  split; [|split; [|split]].
  - eapply effect_emptyGroup; [exact E| |done]. apply HF. set_solver.
  - eapply effect_emptyGroup; [exact E| |done]. apply HF. set_solver.
  - eapply effect_emptyGroup; [exact E| |done]. apply HF. set_solver.
  - eapply Forall_impl; [exact Hm|]. intros r. by eapply effect_isText.
Qed.

Lemma effect_cellDone F evs reg s s' p :
  effect F evs reg s s' → pGroup p ∉ F → cellDone s p → cellDone s' p.
Proof.
  intros E HF (g & Hg & Hc & Hf & Hb).
  destruct (effect_children _ _ _ _ _ _ _ E HF Hg) as (g' & Hg' & Hc').
  exists g'. split; [done|]. split; [congruence|].
  split; by eapply effect_isGroup.
Qed.

Section ResumeAll.

Variable options : Options.
Variable shape : string → option TextRenderInfo.

Lemma resumeCells_spec textGroup ps :
  ∀ s tg,
    Forall (pendingReady s) ps → NoDup (groupRefs ps) → textGroup ∉ groupRefs ps →
    heap s !! textGroup = Some (OGroup tg) →
    wp (mapM (resumeCell options shape textGroup) ps)
       (λ groups s', groups = pGroup <$> ps ∧
          ∃ evs reg,
            effect ({[textGroup]} ∪ ⋃ (cellRefs <$> ps)) evs reg s s' ∧
            Forall (cellDone s') ps ∧
            (∃ tg', heap s' !! textGroup = Some (OGroup tg') ∧
                    Group.children tg' = Group.children tg ++ groups) ∧
            Forall isLayoutCall evs ∧ cellsPlaced ps s s' evs reg) s.
Proof.
  induction ps as [|p ps IH]; intros s tg Hready Hnd Htg Hl.
  - apply wp_ret. split; [done|]. exists [], []. split; [|split; [done|split; [|split; [done|]]]].
    + eapply effect_mono, effect_refl. set_solver.
    + exists tg. by rewrite app_nil_r.
    + split; [done|]. intros r Hr. by apply elem_of_nil in Hr.
  - apply Forall_cons in Hready as [Hp Hready].
    change (groupRefs (p :: ps)) with ([pGroup p; pFrontGroup p; pBackGroup p] ++ groupRefs ps) in *.
    apply NoDup_app in Hnd as (Hndp & Hdisj & Hndps).
    apply not_elem_of_app in Htg as [Htgp Htgps].
    assert (Htgroup : isGroup s textGroup) by (by exists tg).
    simpl. apply wp_bind. unfold resumeCell at 1. apply wp_bind.
    eapply wp_mono; [by apply createTextMeshes_resume_spec|].
    intros group s1 (-> & evs1 & reg1 & E1 & Hdone1 & Hnew1 & Hreg1 & Hfrom1 & Hplaced1).
    assert (Htg1 : textGroup ∉ cellRefs p).
    { intros [Hin|Hin]%elem_of_cellRefs; [done|].
      destruct Hp as (_ & _ & _ & Hm). apply (proj1 (Forall_forall _ _) Hm) in Hin.
      by eapply isText_not_isGroup. }
    destruct (effect_children _ _ _ _ _ _ _ E1 Htg1 Hl) as (tg1 & Hl1 & Hc1).
    apply wp_bind. eapply eff_add; [done|]. intros s2 E2 Hl2. apply wp_ret.
    eff_compose (cellRefs p ∪ {[textGroup]} : gset ref) E1 E2 E12.
    assert (Hout : ∀ r, r ∈ groupRefs ps → r ∉ cellRefs p ∪ ({[textGroup]} : gset ref)).
    { intros r Hr [Hin|Hin]%elem_of_union.
      - apply elem_of_cellRefs in Hin as [Hin|Hin]; [by apply (Hdisj r)|].
        apply elem_of_groupRefs in Hr as (p' & Hp' & Hr).
        apply (proj1 (Forall_forall _ _) Hready) in Hp'.
        apply (pendingReady_groups _ _ _ Hp'), emptyGroup_isGroup in Hr.
        destruct Hp as (_ & _ & _ & Hm). apply (proj1 (Forall_forall _ _) Hm) in Hin.
        by eapply isText_not_isGroup.
      - apply elem_of_singleton in Hin as ->. done. }
    assert (Hready2 : Forall (pendingReady s2) ps).
    { apply Forall_forall. intros p' Hp'.
      eapply effect_pendingReady; [exact E12| |by apply (proj1 (Forall_forall _ _) Hready)].
      intros r Hr. apply Hout, elem_of_groupRefs. eauto. }
    assert (Hl2' : heap s2 !! textGroup = Some (OGroup (Group.add (pGroup p) tg1))) by done.
    apply wp_bind. eapply wp_mono; [by apply (IH s2 _ Hready2 Hndps Htgps Hl2')|].
    intros groups s' (-> & evs3 & reg3 & E3 & Hdone3 & (tg' & Hl' & Hc') & Hnew3 & Hplaced3).
    apply wp_ret. split; [done|].
    eff_compose ({[textGroup]} ∪ ⋃ (cellRefs <$> p :: ps) : gset ref) E12 E3 E.
    eff_compose ({[textGroup]} ∪ ⋃ (cellRefs <$> ps) : gset ref) E2 E3 E23.
    eexists _, _. split; [exact E|].
    assert (Hgp : pGroup p ∉ ({[textGroup]} ∪ ⋃ (cellRefs <$> ps) : gset ref)).
    { intros [Hin|Hin]%elem_of_union.
      - apply elem_of_singleton in Hin. apply Htgp. rewrite <- Hin. left.
      - revert Hin. eapply group_outside_cells; [exact Hready2| |apply Hdisj; left].
        destruct Hdone1 as (g & Hg & _). eapply effect_isGroup; [exact E2|]. by exists g. }
    split; [|split; [|split]].
    { apply Forall_cons_2; [exact (effect_cellDone _ _ _ _ _ _ E23 Hgp Hdone1) | exact Hdone3]. }
    { exists tg'. split; [done|]. rewrite Hc'. simpl. rewrite Hc1. by rewrite <- app_assoc. }
    { repeat (apply Forall_app; split); try done. by repeat constructor. }
    split.
    { apply Forall_app. split; [|by destruct Hplaced3].
      eapply Forall_impl; [exact Hreg1|]. intros r. by eapply effect_isText. }
    intros r [Hr|Hr]%elem_of_app.
    + destruct (Hfrom1 r Hr) as [Hin|Hfresh]; [|by right]. left.
      destruct (Hplaced1 r Hr Hin) as [(g & Hg & Hc) [v Hv]].
      exists p. split; [left|]. split; [done|]. split.
      * destruct (effect_children_prefix _ _ _ _ _ _ _ E23 Hg) as (g' & Hg' & Hpre).
        exists g'. split; [done|]. by eapply elem_of_prefix.
      * exists v. set_solver.
    + destruct Hplaced3 as [_ Hplaced3].
      destruct (Hplaced3 r Hr) as [(p' & Hp' & Hin & Hc & [v Hv])|Hfresh].
      * left. exists p'. split; [by right|]. split; [done|]. split; [done|].
        exists v. set_solver.
      * right. pose proof (effect_length _ _ _ _ _ E12). lia.
Qed.

End ResumeAll.

(** * The lattice *)

Lemma foldM_app {A B} (body : B → A → M B) l1 l2 acc s :
  foldM body acc (l1 ++ l2) s = bind (foldM body acc l1) (λ acc', foldM body acc' l2) s.
Proof.
  revert acc s. induction l1 as [|a l1 IH]; intros acc s; [done|].
  simpl. unfold bind. destruct (body acc a s) as [[acc' s']|]; [|done].
  rewrite IH. done.
Qed.

(** Two nested loops are one loop over the pairs. *)
Lemma foldM_nested {A B C} (body : A → C → B → M C) (k : A → list B) l acc s :
  foldM (λ acc a, foldM (body a) acc (k a)) acc l s =
  foldM (λ acc ab, body ab.1 acc ab.2) acc (a ← l; b ← k a; [(a, b)]) s.
Proof.
  revert acc s. induction l as [|a l IH]; intros acc s; [done|].
  simpl. rewrite foldM_app. unfold bind at 1 2.
  assert (Hin : ∀ lb acc s, foldM (body a) acc lb s =
                            foldM (λ acc ab, body ab.1 acc ab.2) acc (b ← lb; [(a, b)]) s).
  { clear. induction lb as [|b lb IH]; intros acc s; [done|].
    simpl. unfold bind. destruct (body a acc b s) as [[acc' s']|]; [|done]. apply IH. }
  rewrite Hin. destruct (foldM _ acc (b ← k a; [(a, b)]) s) as [[acc' s']|]; [|done].
  apply IH.
Qed.

Lemma cells_flat (lx ly lz : list Z) :
  (xy ← (x ← lx; y ← ly; [(x, y)]); z ← lz; [(xy, z)]) =
  (x ← lx; y ← ly; z ← lz; [(x, y, z)]).
Proof.
  induction lx as [|x lx IH]; [done|].
  rewrite !bind_cons, bind_app, IH. f_equal.
  clear. induction ly as [|y ly IH]; [done|].
  rewrite !bind_cons, bind_app, IH. simpl. by rewrite app_nil_r.
Qed.

Lemma elem_of_cells G x y z :
  (x, y, z) ∈ cells G ↔ (0 ≤ x < G ∧ 0 ≤ y < G ∧ 0 ≤ z < G)%Z.
Proof.
  unfold cells. rewrite list_elem_of_bind. split.
  - intros (x' & Hin & Hx). apply list_elem_of_bind in Hin as (y' & Hin & Hy).
    apply list_elem_of_bind in Hin as (z' & Hin & Hz).
    apply list_elem_of_singleton in Hin. injection Hin as -> -> ->.
    apply elem_of_seqZ in Hx, Hy, Hz. lia.
  - intros (Hx & Hy & Hz). exists x. split; [|apply elem_of_seqZ; lia].
    apply list_elem_of_bind. exists y. split; [|apply elem_of_seqZ; lia].
    apply list_elem_of_bind. exists z. split; [|apply elem_of_seqZ; lia].
    apply list_elem_of_singleton. done.
Qed.

Lemma length_bind_const {A B} (l : list A) (k : A → list B) n :
  (∀ a, length (k a) = n) → length (l ≫= k) = (length l * n)%nat.
Proof.
  intros Hk. induction l as [|a l IH]; [done|].
  rewrite bind_cons, length_app, Hk, IH. simpl. lia.
Qed.

Lemma length_cells G : (0 ≤ G)%Z → Z.of_nat (length (cells G)) = (G ^ 3)%Z.
Proof.
  intros HG. unfold cells.
  rewrite (length_bind_const _ _ (Z.to_nat G * Z.to_nat G)%nat).
  - rewrite length_seqZ. replace (G ^ 3)%Z with (G * G * G)%Z by ring. lia.
  - intros x. rewrite (length_bind_const _ _ (Z.to_nat G)%nat).
    + by rewrite length_seqZ.
    + intros y. rewrite (length_bind_const _ _ 1%nat); [|done].
      rewrite length_seqZ. lia.
Qed.

Lemma drew_drew a b s : drew a (drew b s) = drew (a + b) s.
Proof. unfold drew, set_randomCalls. simpl. f_equal. lia. Qed.

Lemma effect_drew F evs reg s s' n :
  effect F evs reg s s' → effect F evs reg (drew n s) (drew n s').
Proof.
  intros [K C R T N S H U]. split; try done. simpl. by rewrite N.
Qed.

Lemma builtFrom_extend F evs1 evs2 reg s s1 s' w r :
  effect F evs2 reg s1 s' →
  (∀ w' r', (w', r') ∈ newTexts evs2 → textMeshCache s1 !! w' = None) →
  builtFrom s s1 evs1 w r → builtFrom s s' (evs1 ++ evs2) w r.
Proof.
  intros E2 Hnew (Hfresh & (m & Hm & Ht) & Hhow). split; [done|]. split.
  - destruct (effect_text _ _ _ _ _ _ _ E2 Hm) as (m' & ? & ? & _).
    exists m'. split; [done | congruence].
  - destruct Hhow as [Hin|(src & Hin & Hc & Hne)]; [left; set_solver|].
    right. exists src. split; [set_solver|]. split; [|done].
    rewrite (effect_cache _ _ _ _ _ E2). rewrite cacheWith_lookup_other; [done|].
    intros ((w' & r') & Hw' & Hin')%list_elem_of_fmap. simpl in Hw'. subst w'.
    specialize (Hnew _ _ Hin'). congruence.
Qed.

Lemma builtFrom_mono s0 s s' evs evs' w r :
  length (heap s0) ≤ length (heap s) → (∀ c, c ∈ evs → c ∈ evs') →
  builtFrom s s' evs w r → builtFrom s0 s' evs' w r.
Proof.
  intros Hlen Hsub (Hfresh & Hm & Hhow). split; [lia|]. split; [done|].
  destruct Hhow as [Hin|(src & Hin & Hc)]; [left; auto|].
  right. exists src. auto.
Qed.

Lemma syncs_app e1 e2 : syncs (e1 ++ e2) = syncs e1 ++ syncs e2.
Proof. apply omap_app. Qed.

Lemma syncs_map meshes : syncs (map CSync meshes) = meshes.
Proof. induction meshes as [|m l IH]; [done|]. simpl. by rewrite IH. Qed.

Lemma setMatrixAtCalls_app e1 e2 :
  setMatrixAtCalls (e1 ++ e2) = setMatrixAtCalls e1 ++ setMatrixAtCalls e2.
Proof. apply omap_app. Qed.

Lemma setMatrixAtCalls_map meshes : setMatrixAtCalls (map CSync meshes) = [].
Proof. induction meshes as [|m l IH]; [done|]. simpl. done. Qed.

Lemma isBuild_quiet evs : Forall isBuild evs → syncs evs = [] ∧ setMatrixAtCalls evs = [].
Proof.
  induction 1 as [|c evs Hc _ [IH1 IH2]]; [done|].
  destruct c; try done.
Qed.

Section Lattice.

Variable options : Options.
Variable shape : string → option TextRenderInfo.
Variable randomValues : nat → Q.

Lemma cellCalls_snoc planeMesh i n cs x y z :
  cellCalls options randomValues planeMesh i n (cs ++ [(x, y, z)]) =
  cellCalls options randomValues planeMesh i n cs ++
  [(planeMesh, i + length cs, cellMatrix options randomValues (2 * length cs + n) x y z)].
Proof.
  revert i n. induction cs as [|[[x' y'] z'] cs IH]; intros i n; simpl.
  - by rewrite Nat.add_0_r.
  - rewrite IH. f_equal. f_equal. f_equal. f_equal; [f_equal; lia|]. f_equal. lia.
Qed.

Lemma length_cellCalls planeMesh i n cs :
  length (cellCalls options randomValues planeMesh i n cs) = length cs.
Proof.
  revert i n. induction cs as [|[[x y] z] cs IH]; intros i n; simpl; [done|].
  by rewrite IH.
Qed.

Lemma cubeCell_spec planeMesh x y z idx pendings s :
  isInstancedMesh s planeMesh → cacheTyped s →
  wp (cubeCell options randomValues planeMesh x y z (idx, pendings))
     (λ acc' s', ∃ p evs,
        acc' = (S idx, pendings ++ [p]) ∧
        pGroup p = length (heap s) ∧ pFrontGroup p = S (length (heap s)) ∧
        pBackGroup p = S (S (length (heap s))) ∧
        effect {[planeMesh]}
          (CSetMatrixAt planeMesh idx (cellMatrix options randomValues (randomCalls s) x y z) ::
           CPositionSet (pGroup p) (cellPosition options randomValues (randomCalls s) x y z) ::
           CPositionSet (pFrontGroup p)
             (mkVector3 (- rectWidth options * (1 # 2)) (rectWidth options * (1 # 2)) (1 # 1000)) ::
           CPositionSet (pBackGroup p)
             (mkVector3 (rectWidth options * (1 # 2)) (rectWidth options * (1 # 2)) (- (1 # 1000))) ::
           evs ++ map CSync (pTextMeshes p)) [] (drew 2 s) s' ∧
        cacheTyped s' ∧ pendingReady s' p ∧
        generated s s' (split (text options)) (pTextMeshes p) evs) s.
Proof.
  intros [im Him] Htyped. unfold cubeCell.
  apply wp_bind. eexists _, _. split; [reflexivity|].
  apply wp_bind. eexists _, _. split; [reflexivity|].
  change (set_randomCalls _ (set_randomCalls _ s)) with (drew 2 s).
  apply wp_bind. eapply eff_setMatrixAt; [exact Him|]. intros s1 E1 _ Hlen.
  change (heap (drew 2 s)) with (heap s) in Hlen.
  assert (Htyped1 : cacheTyped s1).
  { intros w r Hw. rewrite (effect_cache _ _ _ _ _ E1) in Hw. simpl in Hw.
    destruct (Htyped _ _ Hw) as (m & Hm & Ht).
    destruct (effect_text _ _ _ _ _ _ _ E1 Hm) as (m' & ? & ? & _).
    exists m'. split; [done | congruence]. }
  apply wp_bind. eapply wp_mono; [by apply createTextMeshes_begin_spec|].
  intros p s' (evs & Hg & Hf & Hb & E2 & Htyped' & Hready & Hgen).
  apply wp_ret. exists p, evs. rewrite Hlen in Hg, Hf, Hb.
  split; [done|]. split; [done|]. split; [done|]. split; [done|].
  eff_compose ({[planeMesh]} : gset ref) E1 E2 E.
  split; [exact E|]. split; [done|]. split; [done|].
  destruct Hgen as (Hbuilt & Hall & Hnd & Hnew & Hbuild & Hndm).
  split; [|split; [done|split; [done|split; [|done]]]].
  - eapply Forall2_impl; [exact Hbuilt|]. intros w r (Hfresh & Hm & Hhow).
    split; [lia | done].
  - intros w r Hin. destruct (Hnew _ _ Hin) as [Hc Hw]. split; [|done].
    rewrite (effect_cache _ _ _ _ _ E1) in Hc. exact Hc.
Qed.

End Lattice.

Lemma wp_foldM_inv {A B} (body : B → A → M B) (I : list A → B → App → Prop) l :
  (∀ done a acc s, I done acc s → wp (body acc a) (λ acc' s', I (done ++ [a]) acc' s') s) →
  ∀ done acc s, I done acc s →
                wp (foldM body acc l) (λ acc' s', I (done ++ l) acc' s') s.
Proof.
  intros Hstep. induction l as [|a l IH]; intros done acc s HI.
  - apply wp_ret. by rewrite app_nil_r.
  - simpl. apply wp_bind. eapply wp_mono; [by apply Hstep|].
    intros acc' s' HI'. eapply wp_mono; [by apply IH|].
    intros acc'' s'' HI''. by rewrite <- app_assoc in HI''.
Qed.

Lemma effect_drew_0 s : effect ∅ [] [] (drew 0 s) s.
Proof.
  split; try done; [by apply evolves_same_heap; [apply _|] | |]; simpl; by rewrite app_nil_r.
Qed.

Lemma groupRefs_app ps qs : groupRefs (ps ++ qs) = groupRefs ps ++ groupRefs qs.
Proof. unfold groupRefs. apply bind_app. Qed.

Section Loops.

Variable options : Options.
Variable shape : string → option TextRenderInfo.
Variable randomValues : nat → Q.

Lemma cubeInv_start planeMesh s0 :
  cacheTyped s0 → cubeInv options randomValues planeMesh s0 [] (0, []) s0.
Proof.
  intros Htyped. split; [done|]. split; [done|]. exists [].
  split; [eapply effect_mono, effect_drew_0; set_solver|].
  split; [done|]. split; [done|]. split; [done|]. split; [apply NoDup_nil_2|].
  split; [done|]. split; [done|]. split; [done|]. split; [done|].
  split; [apply NoDup_nil_2|]. intros w r Hin. by apply elem_of_nil in Hin.
Qed.

Lemma cubeInv_step planeMesh s0 done x y z acc s :
  isInstancedMesh s0 planeMesh →
  cubeInv options randomValues planeMesh s0 done acc s →
  wp (cubeCell options randomValues planeMesh x y z acc)
     (λ acc' s', cubeInv options randomValues planeMesh s0 (done ++ [(x, y, z)]) acc' s') s.
Proof.
  intros Hpm0 (Hidx & Hlen & evs & E & Hmat & Hsync & Hready & Hnd & Hfresh & Htyped &
               Hbuilt & Hall & Hndw & Hnew).
  destruct acc as [idx pendings]. cbn [fst snd] in *.
  assert (Hpm : isInstancedMesh s planeMesh).
  { eapply effect_isInstancedMesh; [exact E|]. exact Hpm0. }
  assert (Hrandom : randomCalls s = (2 * length done + randomCalls s0)%nat).
  { by rewrite (effect_random _ _ _ _ _ E). }
  assert (Hheap0 : length (heap s0) ≤ length (heap s)).
  { apply (effect_length _ _ _ _ _ E). }
  assert (Hcache : textMeshCache s = cacheWith (newTexts evs) (textMeshCache s0)).
  { apply (effect_cache _ _ _ _ _ E). }
  eapply wp_mono; [by apply cubeCell_spec|].
  intros acc' s' (p & evs' & -> & Hg & Hf & Hb & E' & Htyped' & Hready' & Hgen).
  destruct Hgen as (Hbuilt' & Hall' & Hndw' & Hnew' & Hbuild' & Hndm').
  set (cell := CSetMatrixAt _ _ _ :: _) in E'.
  assert (Hcellnew : newTexts cell = newTexts evs').
  { unfold cell. simpl. by rewrite newTexts_app, newTexts_syncs, app_nil_r. }
  destruct (isBuild_quiet _ Hbuild') as [Hq1 Hq2].
  pose proof (effect_drew _ _ _ _ _ 2 E) as Ed. rewrite drew_drew in Ed.
  pose proof (effect_seq {[planeMesh]} _ _ _ _ _ _ _ _ _ _ _ Ed E'
                ltac:(set_solver) eq_refl eq_refl) as Eall.
  assert (Hdone : (2 * length (done ++ [(x, y, z)]) = 2 + 2 * length done)%nat)
    by (rewrite length_app; simpl; lia).
  assert (Hold : ∀ w r, (w, r) ∈ newTexts evs → textMeshCache s !! w = Some r).
  { intros w r Hin. rewrite Hcache. apply cacheWith_lookup; [done | by left]. }
  assert (Hnewkeys : ∀ w r, (w, r) ∈ newTexts cell → textMeshCache (drew 2 s) !! w = None).
  { intros w r Hin. rewrite Hcellnew in Hin. by destruct (Hnew' _ _ Hin). }
  split; [simpl; rewrite length_app; simpl; lia|].
  split; [simpl; rewrite !length_app; simpl; lia|].
  exists (evs ++ cell). split; [rewrite Hdone; exact Eall|]. cbn [fst snd].
  split; [|split; [|split; [|split; [|split; [|split; [|split; [|split; [|split]]]]]]]].
  - rewrite setMatrixAtCalls_app, Hmat, cellCalls_snoc. f_equal.
    unfold cell. simpl. rewrite setMatrixAtCalls_app, Hq2, setMatrixAtCalls_map. simpl.
    rewrite Hidx, Hrandom. done.
  - rewrite syncs_app, Hsync, fmap_app, concat_app. f_equal.
    unfold cell. simpl. rewrite syncs_app, Hq1, syncs_map. simpl. by rewrite app_nil_r.
  - apply Forall_app. split; [|by apply Forall_singleton].
    apply Forall_forall. intros p' Hp'.
    eapply effect_pendingReady; [exact E'| |by apply (proj1 (Forall_forall _ _) Hready)].
    intros r Hr Hin. apply elem_of_singleton in Hin as ->.
    apply (pendingReady_groups s p') in Hr; [|by apply (proj1 (Forall_forall _ _) Hready)].
    apply emptyGroup_isGroup in Hr. destruct Hr as [g Hgr], Hpm as [im Him]. congruence.
  - rewrite groupRefs_app. apply NoDup_app. split; [done|]. split.
    + intros r Hr Hin. apply elem_of_groupRefs in Hr as (p' & Hp' & Hr).
      apply (pendingReady_groups s p') in Hr; [|by apply (proj1 (Forall_forall _ _) Hready)].
      destruct Hr as (g & Hgr & _). apply lookup_lt_Some in Hgr.
      unfold groupRefs in Hin. simpl in Hin. rewrite Hg, Hf, Hb in Hin. set_unfold. lia.
    + unfold groupRefs. simpl. rewrite Hg, Hf, Hb.
      repeat (apply NoDup_cons; split; [set_unfold; lia|]). apply NoDup_nil_2.
  - rewrite groupRefs_app. apply Forall_app. split; [done|].
    unfold groupRefs. simpl. rewrite Hg, Hf, Hb.
    repeat (apply Forall_cons_2; [lia|]). done.
  - done.
  - apply Forall_app. split.
    + eapply Forall_impl; [exact Hbuilt|]. intros p' Hp'.
      eapply Forall2_impl; [exact Hp'|]. intros w r Hb'.
      eapply builtFrom_extend; [exact E'| |exact Hb']. exact Hnewkeys.
    + apply Forall_singleton. eapply Forall2_impl; [exact Hbuilt'|].
      intros w r. apply builtFrom_mono; [done|].
      intros c Hc. apply elem_of_app. right. unfold cell.
      do 4 apply list_elem_of_further. apply elem_of_app. by left.
  - intros _ w Hw. by apply Hall'.
  - rewrite newTexts_app, fmap_app, Hcellnew. apply NoDup_app. split; [done|]. split; [|done].
    intros w ((w' & r) & -> & Hin)%list_elem_of_fmap ((w'' & r') & Hw & Hin')%list_elem_of_fmap.
    simpl in *. subst w''. destruct (Hnew' _ _ Hin') as [Hnone _].
    rewrite (Hold _ _ Hin) in Hnone. done.
  - intros w r. rewrite newTexts_app, Hcellnew. intros [Hin|Hin]%elem_of_app; [by eapply Hnew|].
    destruct (Hnew' _ _ Hin) as [Hnone Hw]. split; [|done].
    destruct (textMeshCache s0 !! w) as [r0|] eqn:Hc0; [|done].
    rewrite Hcache, cacheWith_lookup_other in Hnone; [congruence|].
    intros ((w' & r') & -> & Hin')%list_elem_of_fmap. simpl in *.
    destruct (Hnew _ _ Hin'). congruence.
Qed.

End Loops.

Section Assembly.

Variable options : Options.
Variable shape : string → option TextRenderInfo.
Variable randomValues : nat → Q.

Lemma cubeLoops_flat planeMesh s :
  cubeLoops options randomValues planeMesh s =
  foldM (λ acc c, cubeCell options randomValues planeMesh c.1.1 c.1.2 c.2 acc)
        (0, []) (cells (gridSize options)) s.
Proof.
  unfold cubeLoops, cells. rewrite <- cells_flat.
  etrans; [|apply (foldM_nested
                     (λ (xy : Z * Z) acc z,
                        cubeCell options randomValues planeMesh xy.1 xy.2 z acc)
                     (λ _, seqZ 0 (gridSize options)))].
  apply (foldM_nested
           (λ (x : Z) acc (y : Z),
              foldM (λ acc z, cubeCell options randomValues planeMesh x y z acc) acc
                    (seqZ 0 (gridSize options)))
           (λ _, seqZ 0 (gridSize options))).
Qed.

Lemma cubeLoops_spec planeMesh s0 :
  isInstancedMesh s0 planeMesh → cacheTyped s0 →
  wp (cubeLoops options randomValues planeMesh)
     (λ acc s', cubeInv options randomValues planeMesh s0 (cells (gridSize options)) acc s') s0.
Proof.
  intros Hpm Htyped.
  assert (Hstep : ∀ done c acc s,
             cubeInv options randomValues planeMesh s0 done acc s →
             wp (cubeCell options randomValues planeMesh c.1.1 c.1.2 c.2 acc)
                (λ acc' s', cubeInv options randomValues planeMesh s0 (done ++ [c]) acc' s') s).
  { intros done [[x y] z] acc s HI. by apply cubeInv_step. }
  destruct (wp_foldM_inv _ _ (cells (gridSize options)) Hstep [] (0%nat, []) s0
              (cubeInv_start options randomValues planeMesh s0 Htyped))
    as (acc & s' & Hrun & HI).
  exists acc, s'. split; [|exact HI]. by rewrite cubeLoops_flat.
Qed.

End Assembly.

Lemma isLayoutCall_quiet evs :
  Forall isLayoutCall evs →
  newTexts evs = [] ∧ syncs evs = [] ∧ setMatrixAtCalls evs = [].
Proof.
  induction 1 as [|c evs Hc _ (IH1 & IH2 & IH3)]; [done|].
  destruct c; try done.
Qed.

Lemma effect_cacheTyped F evs reg s s' :
  effect F evs reg s s' → newTexts evs = [] → cacheTyped s → cacheTyped s'.
Proof.
  intros E Hnew Htyped w r Hw. rewrite (effect_cache _ _ _ _ _ E), Hnew in Hw.
  destruct (Htyped _ _ Hw) as (m & Hm & Ht).
  destruct (effect_text _ _ _ _ _ _ _ E Hm) as (m' & ? & ? & _).
  exists m'. split; [done | congruence].
Qed.

Section Cube.

Variable options : Options.
Variable shape : string → option TextRenderInfo.
Variable randomValues : nat → Q.

Lemma createCubeOfPlanes_spec s0 sc :
  (0 ≤ gridSize options)%Z →
  scene s0 = object sc → emptyGroup s0 sc → cacheTyped s0 →
  wp (createCubeOfPlanes options shape randomValues)
     (λ groups s', cubeBuilt options randomValues s0 groups s') s0.
Proof.
  intros HG Hsc Hroot Htyped. unfold createCubeOfPlanes, newInstancedMesh.
  rewrite decide_True; [|by apply Z.pow_nonneg].
  set (n := (2 * length (cells (gridSize options)))%nat).
  apply wp_bind, wp_alloc.
  set (planeMesh := length (heap s0)). set (im := OInstancedMesh _).
  set (s1 := set_heap (heap s0 ++ [im]) s0).
  assert (E1 : effect ∅ [] [] s0 s1) by apply effect_alloc.
  assert (Hpm1 : isInstancedMesh s1 planeMesh) by (eexists; apply lookup_snoc_new).
  assert (Hsclt : sc < planeMesh).
  { destruct Hroot as (g & Hg & _). by apply lookup_lt_Some in Hg. }
  apply wp_bind, eff_newGroup. intros s2 E2 Htg L2.
  assert (Hlen1 : length (heap s1) = S planeMesh).
  { unfold s1. simpl. rewrite length_app. simpl. unfold planeMesh. lia. }
  rewrite Hlen1 in *. set (textGroup := S planeMesh) in *.
  assert (Htg2 : emptyGroup s2 textGroup) by (by eexists).
  eff_compose (∅ : gset ref) E1 E2 E12.
  assert (Hpm2 : isInstancedMesh s2 planeMesh)
    by (eapply effect_isInstancedMesh; [exact E2 | exact Hpm1]).
  assert (Htyped2 : cacheTyped s2) by (eapply effect_cacheTyped; [exact E12 | done | done]).
  assert (Hroot2 : emptyGroup s2 sc) by (eapply effect_keeps_empty; [exact E12 | done]).
  apply wp_bind. eapply wp_mono; [by apply cubeLoops_spec|].
  intros [idx pendings] s3 (Hidx & Hlen & evs3 & E3 & Hmat & Hsync & Hready & Hnd & Hfresh &
                            Htyped3 & Hbuilt & Hall & Hndw & Hnew).
  cbn [fst snd] in *. fold n in E3.
  assert (Hscne : sc ≠ planeMesh) by lia.
  assert (Htgne : textGroup ≠ planeMesh) by (unfold textGroup; lia).
  assert (Hroot3 : emptyGroup s3 sc).
  { eapply effect_emptyGroup; [exact E3 | set_solver | exact Hroot2]. }
  assert (Htg3 : emptyGroup s3 textGroup).
  { eapply effect_emptyGroup; [exact E3 | set_solver | exact Htg2]. }
  apply wp_bind, eff_push. intros s4 E4.
  apply wp_bind, wp_gets.
  assert (Hsc4 : scene s4 = object sc).
  { rewrite (effect_scene _ _ _ _ _ E4), (effect_scene _ _ _ _ _ E3). simpl.
    by rewrite (effect_scene _ _ _ _ _ E12). }
  rewrite Hsc4.
  apply (effect_keeps_empty _ _ _ _ E4) in Hroot3 as Hroot4.
  destruct Hroot4 as (g4 & Hg4 & Hc4).
  apply wp_bind. eapply eff_add; [done|]. intros s5 E5 Hg5.
  apply wp_bind. eapply eff_add; [done|]. intros s6 E6 Hg6.
  eff_compose ({[sc]} : gset ref) E4 E5 E45. eff_compose ({[sc]} : gset ref) E45 E6 E46.
  assert (Hfar : ∀ r, r ∈ groupRefs pendings → textGroup < r).
  { intros r Hr. apply (proj1 (Forall_forall _ _) Hfresh) in Hr. lia. }
  assert (Hready6 : Forall (pendingReady s6) pendings).
  { apply Forall_forall. intros p Hp.
    eapply effect_pendingReady; [exact E46| |by apply (proj1 (Forall_forall _ _) Hready)].
    intros r Hr Hin. apply elem_of_singleton in Hin as ->.
    assert (textGroup < sc); [|unfold textGroup in *; lia].
    apply Hfar, elem_of_groupRefs. eauto. }
  assert (Htgout : textGroup ∉ groupRefs pendings).
  { intros Hin. apply Hfar in Hin. lia. }
  assert (Htg6 : emptyGroup s6 textGroup).
  { eapply effect_emptyGroup; [exact E46| |exact Htg3]. unfold textGroup. set_solver by lia. }
  destruct Htg6 as (tg6 & Htg6 & Hctg6).
  eapply wp_mono; [by apply resumeCells_spec|].
  intros groups s7 (-> & evs7 & reg7 & E7 & Hdone & (tg7 & Htg7 & Hctg7) & Hlay & Hisreg & Hplaced).
  destruct (isLayoutCall_quiet _ Hlay) as (Hq1 & Hq2 & Hq3).
  pose proof (effect_drew _ _ _ _ _ n E12) as E12d.
  eff_compose ({[planeMesh]} : gset ref) E12d E3 E03.
  eff_compose ({[planeMesh; sc]} : gset ref) E03 E46 E06.
  set (F := ({[planeMesh; sc]} ∪ ({[textGroup]} ∪ ⋃ (cellRefs <$> pendings)) : gset ref)).
  pose proof (effect_seq F _ _ _ _ _ _ _ _ _ _ _ E06 E7 ltac:(unfold F; set_solver)
                eq_refl eq_refl) as E07.
  eff_compose ({[sc]} ∪ ({[textGroup]} ∪ ⋃ (cellRefs <$> pendings)) : gset ref) E46 E7 E47.
  assert (Hnew47 : newTexts ([CAdd sc planeMesh; CAdd sc textGroup] ++ evs7) = []).
  { rewrite newTexts_app, Hq1. done. }
  assert (Hcache7 : textMeshCache s7 = textMeshCache s3).
  { rewrite (effect_cache _ _ _ _ _ E47). simpl. by rewrite Hq1. }
  exists sc, planeMesh, textGroup, pendings,
    (evs3 ++ [CAdd sc planeMesh; CAdd sc textGroup] ++ evs7), reg7, F.
  split. { rewrite (effect_scene _ _ _ _ _ E07). exact Hsc. }
  split. { rewrite <- app_assoc in E07. exact E07. }
  split. { eapply effect_isInstancedMesh; [exact E47|].
           eapply effect_isInstancedMesh; [exact E3 | exact Hpm2]. }
  split. { exact Hisreg. }
  split.
  { assert (Hscout : sc ∉ ({[textGroup]} ∪ ⋃ (cellRefs <$> pendings) : gset ref)).
    { intros [Hin|Hin]%elem_of_union.
      - apply elem_of_singleton in Hin. unfold textGroup in *. lia.
      - revert Hin. eapply group_outside_cells; [exact Hready6|by eexists|].
        intros Hin. apply Hfar in Hin. unfold textGroup in *. lia. }
    destruct (effect_children _ _ _ _ _ _ _ E7 Hscout Hg6) as (g7 & Hg7 & Hc7).
    exists g7. split; [done|]. rewrite Hc7. simpl. by rewrite Hc4. }
  split. { exists tg7. split; [done|]. by rewrite Hctg7, Hctg6. }
  split; [done|]. split; [done|]. split; [done|].
  split. { rewrite !setMatrixAtCalls_app, Hq3, Hmat. simpl. rewrite app_nil_r.
           by rewrite (effect_random _ _ _ _ _ E12). }
  split. { rewrite !syncs_app, Hq2, Hsync. simpl. by rewrite app_nil_r. }
  split.
  { eapply Forall_impl; [exact Hbuilt|]. intros p Hp.
    eapply Forall2_impl; [exact Hp|]. intros w r Hb.
    eapply builtFrom_mono; [apply (effect_length _ _ _ _ _ E12) | done |].
    eapply builtFrom_extend; [exact E47| |exact Hb].
    intros w' r' Hin. rewrite Hnew47 in Hin. by apply elem_of_nil in Hin. }
  assert (Hnewall : newTexts (evs3 ++ [CAdd sc planeMesh; CAdd sc textGroup] ++ evs7)
                    = newTexts evs3).
  { by rewrite newTexts_app, Hnew47, app_nil_r. }
  rewrite Hnewall.
  split; [done|].
  split. { intros w r Hin. destruct (Hnew _ _ Hin) as [Hc Hw]. split; [|done].
           pose proof (effect_cache _ _ _ _ _ E12) as Hc12. simpl in Hc12. congruence. }
  split. { intros Hne w Hw. rewrite Hcache7. by apply Hall. }
  split. { eapply effect_cacheTyped; [exact E47 | done | done]. }
  intros w r Hc Hr.
  destruct (Hplaced r Hr) as [(p & Hp & Hin & Hchild & [v Hv])|Hfreshr].
  - exists p. split; [done|]. split; [done|]. split; [done|]. exists v.
    apply elem_of_app. right. by do 2 apply list_elem_of_further.
  - exfalso. rewrite Hcache7 in Hc. destruct (Htyped3 _ _ Hc) as (m & Hm & _).
    apply lookup_lt_Some in Hm. pose proof (effect_length _ _ _ _ _ E46). lia.
Qed.

End Cube.

(** * Properties kept by the whole assembly *)

Lemma preserves_ret {A} I (a : A) : preserves I (ret a).
Proof. intros s a' s' HI [= _ <-]. exact HI. Qed.

Lemma preserves_bind {A B} I (m : M A) (k : A → M B) :
  preserves I m → (∀ a, preserves I (k a)) → preserves I (bind m k).
Proof.
  intros Hm Hk s b s' HI Hrun. unfold bind in Hrun.
  destruct (m s) as [[a s1]|] eqn:Hms; [|done].
  eapply Hk; [|exact Hrun]. eapply Hm; [exact HI | exact Hms].
Qed.

Lemma preserves_stuck {A} I : preserves I (@stuck A).
Proof. intros s a s' _ [=]. Qed.

Lemma preserves_gets {A} I (f : App → A) : preserves I (gets f).
Proof. intros s a s' HI [= _ <-]. exact HI. Qed.

Lemma preserves_modify I (f : App → App) :
  (∀ s, I s → I (f s)) → preserves I (modify f).
Proof. intros Hf s a s' HI [= _ <-]. by apply Hf. Qed.

Lemma preserves_mapM {A B} I (f : A → M B) l :
  (∀ a, preserves I (f a)) → preserves I (mapM f l).
Proof.
  intros Hf. induction l as [|a l IH]; [apply preserves_ret|].
  simpl. apply preserves_bind; [apply Hf|]. intros b.
  apply preserves_bind; [apply IH|]. intros bs. apply preserves_ret.
Qed.

Lemma preserves_foldM {A B} I (body : B → A → M B) l :
  (∀ acc a, preserves I (body acc a)) → ∀ acc, preserves I (foldM body acc l).
Proof.
  intros Hb. induction l as [|a l IH]; intros acc; [apply preserves_ret|].
  simpl. apply preserves_bind; [apply Hb|]. intros acc'. apply IH.
Qed.

Section DefaultColor.

Variable options : Options.
Variable shape : string → option TextRenderInfo.
Variable randomValues : nat → Q.

Local Abbreviation I := (allDefaultColor options).

Lemma default_same_heap (f : App → App) :
  (∀ s, heap (f s) = heap s) → ∀ s, I s → I (f s).
Proof. intros Hf s HI r m Hm. rewrite Hf in Hm. by eapply HI. Qed.

Lemma default_call c : preserves I (call c).
Proof. by apply preserves_modify, default_same_heap. Qed.

Lemma default_alloc o :
  (∀ m, o = OText m → Text.color m = textColor options) → preserves I (alloc o).
Proof.
  intros Ho s a s' HI [= _ <-] r m Hm. simpl in Hm.
  apply lookup_app_Some in Hm as [Hm|[_ Hm]]; [by eapply HI|].
  apply list_lookup_singleton_Some in Hm as [_ Hm]. by apply Ho.
Qed.

Lemma default_store r o :
  (∀ m, o = OText m → Text.color m = textColor options) → preserves I (store r o).
Proof.
  intros Ho. apply preserves_modify. intros s HI r' m Hm. simpl in Hm.
  apply list_lookup_insert_Some in Hm as [(_ & Hm & _)|[_ Hm]]; [by apply Ho | by eapply HI].
Qed.

Lemma default_getText r (k : Text.t → M unit) :
  (∀ m, Text.color m = textColor options → preserves I (k m)) →
  preserves I (bind (getText r) k).
Proof.
  intros Hk s a s' HI Hrun. unfold bind, getText in Hrun.
  destruct (heap s !! r) as [[m| |]|] eqn:Hr; try done.
  eapply Hk; [by eapply HI | exact HI | exact Hrun].
Qed.

Lemma default_getGroup r : preserves I (getGroup r).
Proof.
  intros s a s' HI Hrun. unfold getGroup in Hrun.
  destruct (heap s !! r) as [[| |]|]; try done. by injection Hrun as _ <-.
Qed.

Lemma default_newGroup : preserves I newGroup.
Proof. by apply default_alloc. Qed.

Lemma default_position_set r v : preserves I (position_set r v).
Proof.
  intros s a s' HI Hrun. unfold position_set in Hrun.
  destruct (heap s !! r) as [[m|g|]|] eqn:Hr; try done.
  - revert Hrun. apply preserves_bind; [|intros; apply default_call|done].
    apply default_store. intros m' [= <-]. simpl. by eapply HI.
  - revert Hrun. apply preserves_bind; [|intros; apply default_call|done].
    by apply default_store.
Qed.

Lemma default_rotation_copy r e : preserves I (rotation_copy r e).
Proof.
  apply preserves_bind; [apply default_getGroup|]. intros g. by apply default_store.
Qed.

Lemma default_rotateY r a : preserves I (rotateY r a).
Proof.
  apply preserves_bind; [apply default_getGroup|]. intros g. by apply default_store.
Qed.

Lemma default_add parent child : preserves I (add parent child).
Proof.
  apply preserves_bind; [apply default_getGroup|]. intros g.
  apply preserves_bind; [by apply default_store | intros; apply default_call].
Qed.

Lemma default_clone r : preserves I (clone r).
Proof.
  intros s a s' HI Hrun. unfold clone, bind, getText in Hrun.
  destruct (heap s !! r) as [[m| |]|] eqn:Hr; try done.
  injection Hrun as _ <-. intros r' m' Hm'. simpl in Hm'.
  apply lookup_app_Some in Hm' as [Hm'|[_ Hm']]; [by eapply HI|].
  apply list_lookup_singleton_Some in Hm' as [_ [= <-]]. simpl. by eapply HI.
Qed.

Lemma default_sync r : preserves I (sync r).
Proof.
  intros s a s' HI Hrun. unfold sync, bind, getText in Hrun.
  destruct (heap s !! r) as [[m| |]|] eqn:Hr; try done.
  revert Hrun. by apply default_call.
Qed.

Lemma default_synced r : preserves I (synced shape r).
Proof.
  intros s a s' HI Hrun. unfold synced, bind, getText in Hrun.
  destruct (heap s !! r) as [[m| |]|] eqn:Hr; try done.
  revert Hrun. apply default_store; [|done]. intros m' [= <-]. simpl. by eapply HI.
Qed.

Lemma default_setMatrixAt mesh i mx : preserves I (setMatrixAt mesh i mx).
Proof.
  intros s a s' HI Hrun. unfold setMatrixAt, bind, getInstancedMesh in Hrun.
  destruct (heap s !! mesh) as [[| |im]|] eqn:Hr; try done.
  revert Hrun. apply preserves_bind; [by apply default_store | intros; apply default_call|done].
Qed.

Lemma default_textMeshOf word : preserves I (textMeshOf options word).
Proof.
  intros s a s' HI Hrun. unfold textMeshOf, bind, gets in Hrun.
  destruct (textMeshCache s !! word) as [cached|].
  - revert Hrun. by apply default_clone.
  - revert Hrun. apply preserves_bind; [|intros mesh|done].
    + apply default_alloc. by intros m [= <-].
    + apply preserves_bind; [apply default_call|]. intros _.
      apply preserves_bind; [by apply preserves_modify, default_same_heap|].
      intros _. apply preserves_ret.
Qed.

Lemma default_generateTextMeshes : preserves I (generateTextMeshes options).
Proof.
  apply preserves_bind; [apply preserves_mapM, default_textMeshOf|]. intros meshes.
  apply preserves_mapM. intros mesh.
  apply preserves_bind; [apply default_sync | intros; apply preserves_ret].
Qed.

Lemma default_layoutLoop frontGroup backGroup meshes :
  ∀ x y, preserves I (layoutLoop options meshes frontGroup backGroup x y).
Proof.
  induction meshes as [|mesh rest IH]; intros x y; [apply preserves_ret|].
  simpl. intros s a s' HI Hrun. unfold bind at 1, getText in Hrun.
  destruct (heap s !! mesh) as [[m| |]|] eqn:Hr; try done.
  destruct (Qlt_le_dec _ _); destruct (Qlt_le_dec _ _);
    try (by injection Hrun as _ <-).
  all: revert Hrun; apply preserves_bind; [apply default_position_set| |done]; intros _;
    apply preserves_bind; [apply default_clone|]; intros b;
    apply preserves_bind; [apply default_position_set|]; intros _;
    apply preserves_bind; [apply default_add|]; intros _;
    apply preserves_bind; [apply default_add|]; intros _;
    apply preserves_bind; [by apply preserves_modify, default_same_heap|]; intros _;
    apply IH.
Qed.

Lemma default_createTextMeshes_begin position rotation :
  preserves I (createTextMeshes_begin options position rotation).
Proof.
  unfold createTextMeshes_begin.
  repeat (apply preserves_bind;
          [first [apply default_newGroup | apply default_position_set
                 | apply default_rotation_copy | apply default_rotateY
                 | apply default_generateTextMeshes]|intros ?]).
  apply preserves_ret.
Qed.

Lemma default_createTextMeshes_resume p :
  preserves I (createTextMeshes_resume options shape p).
Proof.
  unfold createTextMeshes_resume.
  apply preserves_bind; [apply preserves_mapM, default_synced|]. intros _.
  apply preserves_bind; [apply default_layoutLoop|]. intros _.
  apply preserves_bind; [apply default_add|]. intros _.
  apply preserves_bind; [apply default_add|]. intros _. apply preserves_ret.
Qed.

Lemma default_cubeCell planeMesh x y z acc :
  preserves I (cubeCell options randomValues planeMesh x y z acc).
Proof.
  unfold cubeCell. destruct acc as [idx pendings].
  apply preserves_bind.
  { intros s a s' HI [= _ <-]. revert HI. by apply default_same_heap. }
  intros r1. apply preserves_bind.
  { intros s a s' HI [= _ <-]. revert HI. by apply default_same_heap. }
  intros r2. apply preserves_bind; [apply default_setMatrixAt|]. intros _.
  apply preserves_bind; [apply default_createTextMeshes_begin|]. intros p.
  apply preserves_ret.
Qed.

Lemma default_createCubeOfPlanes :
  preserves I (createCubeOfPlanes options shape randomValues).
Proof.
  unfold createCubeOfPlanes, newInstancedMesh.
  apply preserves_bind.
  { case_decide; [by apply default_alloc | apply preserves_stuck]. }
  intros planeMesh. apply preserves_bind; [apply default_newGroup|]. intros textGroup.
  apply preserves_bind.
  { unfold cubeLoops. apply preserves_foldM. intros acc x.
    apply preserves_foldM. intros acc' y. apply preserves_foldM. intros acc'' z.
    apply default_cubeCell. }
  intros [idx pendings].
  apply preserves_bind; [by apply preserves_modify, default_same_heap|]. intros _.
  apply preserves_bind; [apply preserves_gets|]. intros [| |sc]; try apply preserves_stuck.
  apply preserves_bind; [apply default_add|]. intros _.
  apply preserves_bind; [apply default_add|]. intros _.
  apply preserves_mapM. intros p. unfold resumeCell.
  apply preserves_bind; [apply default_createTextMeshes_resume|]. intros g.
  apply preserves_bind; [apply default_add|]. intros _. apply preserves_ret.
Qed.

End DefaultColor.

(** * The assembled scene *)

Section Init.

Variable options : Options.
Variable shape : string → option TextRenderInfo.
Variable randomValues : nat → Q.

Lemma setupScene_newApp : setupScene options newApp = Some (tt, sceneSetUp options).
Proof. reflexivity. Qed.

Lemma init_spec :
  (0 ≤ gridSize options)%Z →
  wp (init options shape randomValues)
     (λ groups s, cubeBuilt options randomValues (sceneSetUp options) groups s ∧
                  allDefaultColor options s) newApp.
Proof.
  intros HG. unfold init. apply wp_bind. exists tt, (sceneSetUp options).
  split; [apply setupScene_newApp|].
  destruct (createCubeOfPlanes_spec options shape randomValues (sceneSetUp options) 0 HG)
    as (groups & s & Hrun & Hbuilt).
  - reflexivity.
  - by eexists.
  - intros w r Hw. simpl in Hw. by rewrite lookup_empty in Hw.
  - exists groups, s. split; [exact Hrun|]. split; [exact Hbuilt|].
    eapply (default_createCubeOfPlanes options shape randomValues); [|exact Hrun].
    intros r m Hm. destruct r; simpl in Hm; done.
Qed.

(** What [init] leaves, read off the state alone. *)
Lemma init_calls groups s :
  cubeBuilt options randomValues (sceneSetUp options) groups s →
  ∃ sc planeMesh textGroup pendings reg,
    scene s = object sc ∧ highlightedTextMesh s = undefined ∧
    interactableMeshes s = planeMesh :: reg ∧
    isInstancedMesh s planeMesh ∧ Forall (isText s) reg ∧
    (∃ g, heap s !! sc = Some (OGroup g) ∧ Group.children g = [planeMesh; textGroup]) ∧
    (∃ g, heap s !! textGroup = Some (OGroup g) ∧ Group.children g = groups) ∧
    groups = pGroup <$> pendings ∧
    length pendings = length (cells (gridSize options)) ∧
    Forall (cellDone s) pendings ∧
    setMatrixAtCalls (calls s) =
      cellCalls options randomValues planeMesh 0 0 (cells (gridSize options)) ∧
    syncs (calls s) = concat (pTextMeshes <$> pendings) ∧
    Forall (λ p, Forall2 (builtFrom newApp s (calls s)) (split (text options)) (pTextMeshes p))
           pendings ∧
    NoDup (newTexts (calls s)).*1 ∧
    textMeshCache s = cacheWith (newTexts (calls s)) ∅ ∧
    (∀ w r, (w, r) ∈ newTexts (calls s) → w ∈ split (text options)) ∧
    (pendings ≠ [] → ∀ w, w ∈ split (text options) → is_Some (textMeshCache s !! w)) ∧
    cacheTyped s ∧
    (∀ w r, textMeshCache s !! w = Some r → r ∈ reg →
            ∃ p, p ∈ pendings ∧ r ∈ pTextMeshes p ∧
                 (∃ g, heap s !! pFrontGroup p = Some (OGroup g) ∧ r ∈ Group.children g) ∧
                 (∃ v, CPositionSet r v ∈ calls s)).
Proof.
  intros (sc & planeMesh & textGroup & pendings & evs & reg & F & Hsc & E & Hpm & Hreg &
          Hroot & Htg & Hgroups & Hlen & Hdone & Hmat & Hsync & Hbuilt & Hnd & Hnew &
          Hall & Htyped & Hplaced).
  exists sc, planeMesh, textGroup, pendings, reg.
  assert (Hcalls : calls s = CPositionSet 0 (mkVector3 (- calculateSceneSize options * (1 # 2))
                                                       (- calculateSceneSize options * (1 # 2))
                                                       (- calculateSceneSize options * (1 # 2))) :: evs).
  { apply (effect_calls _ _ _ _ _ E). }
  split; [done|]. split; [apply (effect_highlighted _ _ _ _ _ E)|].
  split; [apply (effect_registry _ _ _ _ _ E)|].
  split; [done|]. split; [done|]. split; [done|]. split; [done|]. split; [done|].
  split; [done|]. split; [done|]. rewrite Hcalls.
  split; [done|]. split; [done|].
  split.
  { eapply Forall_impl; [exact Hbuilt|]. intros p Hp.
    eapply Forall2_impl; [exact Hp|]. intros w r Hb.
    eapply builtFrom_mono; [| |exact Hb]; [simpl; lia|].
    intros c Hc. by right. }
  split; [done|]. split; [apply (effect_cache _ _ _ _ _ E)|].
  split; [intros w r Hin; by destruct (Hnew w r Hin)|].
  split; [done|]. split; [done|].
  intros w r Hc Hr. destruct (Hplaced w r Hc Hr) as (p & Hp & Hin & Hchild & [v Hv]).
  exists p. split; [done|]. split; [done|]. split; [done|]. exists v. by right.
Qed.

End Init.

(** * The states between frames *)

Section Reachable.

Variable options : Options.
Variable shape : string → option TextRenderInfo.
Variable randomValues : nat → Q.

Lemma init_returns groups s :
  init options shape randomValues newApp = Some (groups, s) → (0 ≤ gridSize options)%Z.
Proof.
  unfold init, createCubeOfPlanes.
  rewrite (bind_run _ _ _ _ _ (setupScene_newApp options)).
  unfold bind at 1, newInstancedMesh. case_decide as HG; [|done].
  intros _. destruct (decide (0 ≤ gridSize options)%Z) as [|Hneg]; [done|].
  exfalso. replace (gridSize options ^ 3)%Z
    with (gridSize options * gridSize options * gridSize options)%Z in HG by ring. nia.
Qed.

Lemma init_facts groups s :
  init options shape randomValues newApp = Some (groups, s) →
  cubeBuilt options randomValues (sceneSetUp options) groups s ∧ allDefaultColor options s.
Proof.
  intros Hrun. destruct (init_spec options shape randomValues (init_returns _ _ Hrun))
    as (groups' & s' & Hrun' & H). rewrite Hrun in Hrun'. by injection Hrun' as <- <-.
Qed.

Lemma reachable_registryTyped s :
  reachable options shape randomValues s → registryTyped s.
Proof.
  induction 1 as [groups s Hrun|ray s _ IH]; [|by apply frame_registryTyped].
  destruct (init_facts _ _ Hrun) as [Hbuilt _].
  destruct (init_calls _ _ _ _ Hbuilt)
    as (sc & planeMesh & textGroup & pendings & reg & _ & _ & Hreg & Hpm & Htexts & _).
  unfold registryTyped. rewrite Hreg. constructor; [by right|].
  eapply Forall_impl; [exact Htexts|]. intros r Hr. by left.
Qed.

Lemma reachable_highlightRecorded s :
  textColor options ≠ highlightedTextColor options →
  reachable options shape randomValues s → highlightRecorded options s.
Proof.
  intros Hne. induction 1 as [groups s Hrun|ray s _ IH];
    [|by apply frame_highlightRecorded].
  destruct (init_facts _ _ Hrun) as [_ Hdefault].
  intros r (m & Hm & Hc). destruct Hne. rewrite <- Hc. symmetry. by eapply Hdefault.
Qed.

Lemma reachable_recorded_registered s r :
  reachable options shape randomValues s → highlightedTextMesh s = object r →
  r ∈ interactableMeshes s.
Proof.
  induction 1 as [groups s Hrun|ray s _ IH].
  - destruct (init_facts _ _ Hrun) as [Hbuilt _].
    destruct (init_calls _ _ _ _ Hbuilt)
      as (sc & planeMesh & textGroup & pendings & reg & _ & Hh & _).
    by rewrite Hh.
  - rewrite frame_highlighted, frame_registry. apply hovered_registered.
Qed.

End Reachable.

(** * The lattice, cell by cell *)

Lemma NoDup_cells G : NoDup (cells G).
Proof.
  unfold cells. apply NoDup_bind; [| |apply NoDup_seqZ].
  - intros x1 x2 c _ _ H1 H2.
    apply list_elem_of_bind in H1 as (y1 & H1 & _).
    apply list_elem_of_bind in H2 as (y2 & H2 & _).
    apply list_elem_of_bind in H1 as (z1 & H1 & _).
    apply list_elem_of_bind in H2 as (z2 & H2 & _).
    apply list_elem_of_singleton in H1, H2. congruence.
  - intros x _. apply NoDup_bind; [| |apply NoDup_seqZ].
    + intros y1 y2 c _ _ H1 H2.
      apply list_elem_of_bind in H1 as (z1 & H1 & _).
      apply list_elem_of_bind in H2 as (z2 & H2 & _).
      apply list_elem_of_singleton in H1, H2. congruence.
    + intros y _. apply NoDup_bind; [| |apply NoDup_seqZ].
      * intros z1 z2 c _ _ H1 H2. apply list_elem_of_singleton in H1, H2. congruence.
      * intros z _. apply NoDup_singleton.
Qed.

Section CellCalls.

Variable options : Options.
Variable randomValues : nat → Q.

Lemma cellCalls_lookup planeMesh i n cs k :
  cellCalls options randomValues planeMesh i n cs !! k =
  (λ c, (planeMesh, (i + k)%nat,
         cellMatrix options randomValues (n + 2 * k) c.1.1 c.1.2 c.2)) <$> cs !! k.
Proof.
  revert i n k. induction cs as [|[[x y] z] cs IH]; intros i n [|k]; simpl; [done..| |].
  - by rewrite !Nat.add_0_r.
  - rewrite IH. destruct (cs !! k) as [[[x' y'] z']|]; [|done]. simpl.
    do 2 f_equal; [f_equal; lia|]. f_equal. lia.
Qed.

Lemma cellCalls_elem planeMesh i n cs x y z :
  (x, y, z) ∈ cs →
  ∃ k, (planeMesh, (i + k)%nat, cellMatrix options randomValues (n + 2 * k) x y z)
       ∈ cellCalls options randomValues planeMesh i n cs.
Proof.
  intros Hin. apply list_elem_of_lookup in Hin as [k Hk]. exists k.
  apply list_elem_of_lookup. exists k. by rewrite cellCalls_lookup, Hk.
Qed.

End CellCalls.

(** * A frame that changes the target *)

Section HoverFrame.

Variable options : Options.

Lemma frame_colors_hovered ray s r m :
  highlightedTextMesh s ≠ hovered ray s → hovered ray s = object r →
  heap s !! r = Some (OText m) → truthy (Text.text m) = true →
  heap (processIntersections options ray s) !! r =
  Some (OText (Text.set_color (highlightedTextColor options) m)).
Proof.
  intros Hne Hhov Hm Ht. rewrite processIntersections_unfold. case_decide; [done|].
  assert (Hreset : heap (resetHighlight options s) !! r = Some (OText m)).
  { rewrite heap_resetHighlight. destruct (highlightedTextMesh s) as [| |r0] eqn:Hh; try done.
    destruct (hasText s (object r0)); [|done]. rewrite heap_colorAndSync.
    case_decide; [|done]. subst r0. by rewrite Hhov in Hne. }
  simpl. rewrite Hhov, heap_applyHighlight.
  assert (Hhas : hasText (resetHighlight options s) (object r) = true).
  { unfold hasText, textOf. by rewrite Hreset. }
  rewrite Hhas, heap_colorAndSync. rewrite decide_True by done. by rewrite Hreset.
Qed.

Lemma frame_calls ray s :
  highlightedTextMesh s ≠ hovered ray s →
  calls (processIntersections options ray s) =
  calls s ++ resetCalls options s ++ applyCalls options s (hovered ray s).
Proof.
  intros Hne. rewrite processIntersections_unfold. case_decide; [done|]. simpl.
  rewrite calls_applyHighlight, calls_resetHighlight, <- app_assoc. do 2 f_equal.
  unfold applyCalls. by rewrite hasText_resetHighlight.
Qed.

End HoverFrame.

Lemma length_concat_fmap {A B} (f : A → list B) (l : list A) n :
  Forall (λ a, length (f a) = n) l → length (concat (f <$> l)) = (length l * n)%nat.
Proof.
  induction 1 as [|a l Ha _ IH]; [done|].
  rewrite fmap_cons. simpl. by rewrite length_app, Ha, IH.
Qed.

(** * The scene graph *)

Lemma childOf_elem s parent child :
  childOf s parent child →
  child ∈ (heap s ≫= λ o, match o with OGroup g => Group.children g | _ => [] end).
Proof.
  intros (g & Hg & Hin). apply list_elem_of_bind. exists (OGroup g).
  split; [done|]. by eapply list_elem_of_lookup_2.
Qed.

(** [init] with the demonstration font and random values. *)
Lemma init_assembled o :
  is_Some (init o demoShape demoRandom newApp) →
  ∃ groups, init o demoShape demoRandom newApp = Some (groups, assembled o).
Proof.
  unfold assembled. intros [[groups s] Hrun]. exists groups. by rewrite Hrun.
Qed.

(** * The claims *)

Section LayoutClaims.

Variable options : Options.

Local Open Scope Q_scope.




End LayoutClaims.






Section AssemblyClaims.

Variable options : Options.
Variable shape : string → option TextRenderInfo.
Variable randomValues : nat → Q.

Local Open Scope Q_scope.

(** C1. For a grid size [G >= 0], [init] returns. The cells the loops visit
    are the triples [(x, y, z)] with [0 <= x, y, z < G], each once; the
    [k]-th [setMatrixAt] call sets instance [k] of the one instanced mesh
    to the matrix of the [k]-th cell, so there are [G^3] of them, one per
    triple; and [G^3] text groups are returned, each holding a front group
    and a back group, in this order, and nothing else. *)
Theorem cube_one_plane_one_group_per_cell :
  (0 ≤ gridSize options)%Z →
  ∃ groups s planeMesh,
    init options shape randomValues newApp = Some (groups, s) ∧
    NoDup (cells (gridSize options)) ∧
    (∀ x y z, (x, y, z) ∈ cells (gridSize options) ↔
              (0 ≤ x < gridSize options ∧ 0 ≤ y < gridSize options ∧
               0 ≤ z < gridSize options)%Z) ∧
    (∀ k, setMatrixAtCalls (calls s) !! k =
          (λ c, (planeMesh, k, cellMatrix options randomValues (2 * k) c.1.1 c.1.2 c.2))
            <$> cells (gridSize options) !! k) ∧
    Z.of_nat (length (setMatrixAtCalls (calls s))) = (gridSize options ^ 3)%Z ∧
    Z.of_nat (length groups) = (gridSize options ^ 3)%Z ∧
    ∀ g, g ∈ groups →
         ∃ grp front back,
           heap s !! g = Some (OGroup grp) ∧ Group.children grp = [front; back] ∧
           isGroup s front ∧ isGroup s back.
Proof.
  intros HG.
  destruct (init_spec options shape randomValues HG) as (groups & s & Hrun & Hbuilt & _).
  destruct (init_calls _ _ _ _ Hbuilt)
    as (sc & planeMesh & textGroup & pendings & reg & _ & _ & _ & _ & _ & _ & _ &
        Hgroups & Hlen & Hdone & Hmat & _).
  exists groups, s, planeMesh. split; [exact Hrun|]. split; [apply NoDup_cells|].
  split; [intros x y z; apply elem_of_cells|].
  split; [intros k; rewrite Hmat; apply cellCalls_lookup|].
  split; [by rewrite Hmat, length_cellCalls, length_cells|].
  split; [by rewrite Hgroups, length_fmap, Hlen, length_cells|].
  intros g Hg. rewrite Hgroups in Hg. apply list_elem_of_fmap in Hg as (p & -> & Hp).
  destruct (proj1 (Forall_forall _ _) Hdone p Hp) as (grp & Hgrp & Hch & Hf & Hb).
  by exists grp, (pFrontGroup p), (pBackGroup p).
Qed.

(** C8 (as amended). For a grid size [G >= 0], a cell size
    [c = rectWidth + gridOffset > 0] and values of [Math.random()] in
    [[0, 1)], every cell [(x, y, z)] with [0 <= x, y, z < G] has a
    [setMatrixAt] call whose matrix has the position
    [(x*c + j, y*c + j, z*c + j)] for one jitter [j] in [[0, c/2)] and the
    rotation [(θ, θ, θ)] for one angle [θ] in [[0, 2π)]. *)
Theorem cell_matrix_jitter_and_angle :
  (0 ≤ gridSize options)%Z → 0 < cellSizeOf options →
  (∀ n, 0 <= randomValues n ∧ randomValues n < 1) →
  ∃ groups s,
    init options shape randomValues newApp = Some (groups, s) ∧
    ∀ x y z, (0 ≤ x < gridSize options ∧ 0 ≤ y < gridSize options ∧
              0 ≤ z < gridSize options)%Z →
      ∃ planeMesh i j θ,
        (planeMesh, i,
         mkMatrix4 (mkEuler θ θ θ)
                   (mkVector3 (inject_Z x * cellSizeOf options + j)
                              (inject_Z y * cellSizeOf options + j)
                              (inject_Z z * cellSizeOf options + j)))
          ∈ setMatrixAtCalls (calls s) ∧
        0 <= j ∧ j < cellSizeOf options / 2 ∧
        0 <= θ ∧ θ < 2 * Math_PI.
Proof.
  intros HG Hc Hrandom.
  destruct (init_spec options shape randomValues HG) as (groups & s & Hrun & Hbuilt & _).
  destruct (init_calls _ _ _ _ Hbuilt)
    as (sc & planeMesh & textGroup & pendings & reg & _ & _ & _ & _ & _ & _ & _ &
        _ & _ & _ & Hmat & _).
  exists groups, s. split; [exact Hrun|]. intros x y z Hxyz.
  apply elem_of_cells in Hxyz.
  destruct (cellCalls_elem options randomValues planeMesh 0 0 _ _ _ _ Hxyz) as [k Hk].
  exists planeMesh, (0 + k)%nat, (positionOffsetAt options randomValues (0 + 2 * k)%nat),
    (rotationAngleAt randomValues (0 + 2 * k)%nat).
  split; [by rewrite Hmat|].
  unfold positionOffsetAt, rotationAngleAt.
  destruct (Hrandom (0 + 2 * k)%nat) as [H0 H1].
  destruct (Hrandom (S (0 + 2 * k))) as [H0' H1'].
  assert (Hpi : 0 < Math_PI) by reflexivity.
  assert (Hrc : randomValues (0 + 2 * k)%nat * cellSizeOf options < 1 * cellSizeOf options)
    by (by apply Qmult_lt_compat_r).
  repeat split; try nra. unfold Qdiv. change (/ 2) with (1 # 2). lra.
Qed.

(** C5 (as amended). For a grid size [G >= 1], when [init] has returned the
    cache has exactly the distinct words of [text.split(' ')] as keys; the
    entry of a word is the one mesh built for it by [new Text()], and no
    word has two such meshes; [G^3] times the number of words meshes were
    generated, and each of them shows a word of the text and is the cache
    entry of its word or a clone of that entry. *)
Theorem cache_one_mesh_per_word :
  (0 < gridSize options)%Z →
  ∃ groups s,
    init options shape randomValues newApp = Some (groups, s) ∧
    dom (textMeshCache s) = list_to_set (split (text options)) ∧
    (∀ w r, textMeshCache s !! w = Some r ↔ CNewText r w ∈ calls s) ∧
    NoDup (newTexts (calls s)).*1 ∧
    Z.of_nat (length (syncs (calls s))) =
      (gridSize options ^ 3 * Z.of_nat (length (split (text options))))%Z ∧
    ∀ r, r ∈ syncs (calls s) →
      ∃ w src m,
        w ∈ split (text options) ∧ textMeshCache s !! w = Some src ∧
        heap s !! r = Some (OText m) ∧ Text.text m = w ∧
        (r = src ∨ (r ≠ src ∧ CClone src r ∈ calls s)).
Proof.
  intros HG. assert (HG0 : (0 ≤ gridSize options)%Z) by lia.
  destruct (init_spec options shape randomValues HG0) as (groups & s & Hrun & Hbuilt & _).
  destruct (init_calls _ _ _ _ Hbuilt)
    as (sc & planeMesh & textGroup & pendings & reg & _ & _ & _ & _ & _ & _ & _ &
        _ & Hlen & _ & _ & Hsync & Hmeshes & Hnd & Hcache & Hwords & Hsome & _).
  assert (Hentry : ∀ w r, textMeshCache s !! w = Some r ↔ CNewText r w ∈ calls s).
  { intros w r. rewrite Hcache, (cacheWith_lookup _ _ _ _ Hnd), newTexts_elem.
    split; [intros [?|[_ Hw]]; [done | by rewrite lookup_empty in Hw] | by left]. }
  assert (Hcells : Z.of_nat (length pendings) = (gridSize options ^ 3)%Z)
    by (by rewrite Hlen, length_cells).
  exists groups, s. split; [exact Hrun|]. split.
  { apply set_eq. intros w. rewrite elem_of_dom, elem_of_list_to_set. split.
    - intros [r Hr]. apply Hentry, newTexts_elem in Hr. by eapply Hwords.
    - apply Hsome. intros ->. simpl in Hcells.
      assert (0 < gridSize options ^ 3)%Z by (apply Z.pow_pos_nonneg; lia). lia. }
  split; [exact Hentry|]. split; [exact Hnd|]. split.
  { rewrite Hsync, (length_concat_fmap _ _ (length (split (text options)))).
    - rewrite Nat2Z.inj_mul. by rewrite Hcells.
    - eapply Forall_impl; [exact Hmeshes|]. intros p Hp.
      exact (eq_sym (Forall2_length _ _ _ Hp)). }
  intros r Hr. rewrite Hsync in Hr. apply list_elem_of_In, in_concat in Hr as (l & Hl & Hr).
  apply list_elem_of_In in Hl, Hr. apply list_elem_of_fmap in Hl as (p & -> & Hp).
  pose proof (proj1 (Forall_forall _ _) Hmeshes p Hp) as Hall.
  apply list_elem_of_lookup in Hr as [i Hi].
  destruct (Forall2_lookup_r _ _ _ _ _ Hall Hi) as (w & Hw & _ & (m & Hm & Ht) & Hhow).
  assert (Hin : w ∈ split (text options)) by (by eapply list_elem_of_lookup_2).
  destruct Hhow as [Hnew|(src & Hclone & Hsrc & Hne)].
  - exists w, r, m. repeat split; try done; [by apply Hentry | by left].
  - exists w, src, m. repeat split; try done. right. by split.
Qed.

(** C9 (as amended). For a grid size [G >= 0], when [init] has returned
    every cache entry is the mesh that [new Text()] built for its word, not
    a copy. If that mesh was placed by the layout (it is registered), it is
    in the scene: a child of the front group of a cell group of the text
    group, which is a child of the scene, and its position was written; and
    a frame that hovers it changes the colour of this very object, when its
    word is not empty. *)
Theorem cache_entry_is_scene_object :
  (0 ≤ gridSize options)%Z →
  ∃ groups s,
    init options shape randomValues newApp = Some (groups, s) ∧
    ∀ w r, textMeshCache s !! w = Some r →
      CNewText r w ∈ calls s ∧
      (∃ m, heap s !! r = Some (OText m) ∧ Text.text m = w) ∧
      (r ∈ interactableMeshes s →
       ∃ sc textGroup group front v,
         scene s = object sc ∧ childOf s sc textGroup ∧ group ∈ groups ∧
         childOf s textGroup group ∧ childOf s group front ∧ childOf s front r ∧
         CPositionSet r v ∈ calls s) ∧
      (∀ ray, hovered ray s = object r → truthy w = true →
         ∃ m, heap (processIntersections options ray s) !! r = Some (OText m) ∧
              Text.text m = w ∧ Text.color m = highlightedTextColor options).
Proof.
  intros HG.
  destruct (init_spec options shape randomValues HG) as (groups & s & Hrun & Hbuilt & _).
  destruct (init_calls _ _ _ _ Hbuilt)
    as (sc & planeMesh & textGroup & pendings & reg & Hsc & Hh & Hreg & Hpm & _ & Hroot &
        Htg & Hgroups & _ & Hdone & _ & _ & _ & Hnd & Hcache & _ & _ & Htyped & Hplaced).
  exists groups, s. split; [exact Hrun|]. intros w r Hc.
  destruct (Htyped w r Hc) as (m & Hm & Ht).
  split.
  { rewrite Hcache, (cacheWith_lookup _ _ _ _ Hnd), newTexts_elem in Hc.
    destruct Hc as [?|[_ Hw]]; [done | by rewrite lookup_empty in Hw]. }
  split; [by exists m|]. split.
  - intros Hr. rewrite Hreg in Hr. apply elem_of_cons in Hr as [->|Hr].
    { destruct Hpm as [im Him]. congruence. }
    destruct (Hplaced w r Hc Hr) as (p & Hp & _ & (gf & Hgf & Hchild) & v & Hv).
    destruct (proj1 (Forall_forall _ _) Hdone p Hp) as (g & Hg & Hch & _).
    destruct Hroot as (gs & Hgs & Hgsch). destruct Htg as (gt & Hgt & Hgtch).
    assert (Hin : pGroup p ∈ groups) by (rewrite Hgroups; by apply list_elem_of_fmap_2).
    exists sc, textGroup, (pGroup p), (pFrontGroup p), v.
    split; [done|]. split; [exists gs; split; [done|]; rewrite Hgsch; set_solver|].
    split; [done|]. split; [exists gt; split; [done|]; by rewrite Hgtch|].
    split; [exists g; split; [done|]; rewrite Hch; set_solver|].
    split; [by exists gf | done].
  - intros ray Hhov Hw. eexists. split.
    + apply frame_colors_hovered; [by rewrite Hh, Hhov| done | exact Hm | by rewrite Ht].
    + done.
Qed.

End AssemblyClaims.

Section HoverClaims.

Variable options : Options.
Variable shape : string → option TextRenderInfo.
Variable randomValues : nat → Q.

(** C2 (as amended). In every state between two frames, if the highlighted
    reference is an object, that object is in the registry of interactable
    meshes, and it is a text mesh or the instanced plane mesh. *)
Theorem highlighted_is_registered s r :
  reachable options shape randomValues s → highlightedTextMesh s = object r →
  r ∈ interactableMeshes s ∧ (isText s r ∨ isInstancedMesh s r).
Proof.
  intros Hs Hr.
  assert (Hin : r ∈ interactableMeshes s) by (by eapply reachable_recorded_registered).
  split; [exact Hin|].
  exact (proj1 (Forall_forall _ _) (reachable_registryTyped _ _ _ _ Hs) r Hin).
Qed.

(** C6. A frame whose nearest hit is the highlighted reference leaves the
    whole state as it is: no colour is written, no [sync] is requested, the
    cursor is not set. So a second frame with the same ray, run from any
    state, changes nothing after the first. *)
Theorem frame_same_target_changes_nothing ray s :
  (highlightedTextMesh s = hovered ray s → processIntersections options ray s = s) ∧
  processIntersections options ray (processIntersections options ray s) =
  processIntersections options ray s.
Proof.
  assert (Hsame : ∀ s', highlightedTextMesh s' = hovered ray s' →
                        processIntersections options ray s' = s').
  { intros s' Heq. rewrite processIntersections_unfold. by rewrite decide_True. }
  split; [apply Hsame|]. apply Hsame.
  rewrite frame_highlighted. unfold hovered. by rewrite frame_registry.
Qed.

(** C7 (as amended). When the default colour and the highlight colour
    differ: in every state of the interaction loop, between two frames,
    after [resetHighlight] and after [applyHighlight], at most one mesh
    carries the highlight colour; a frame that changes the target makes the
    calls of [resetHighlight] and then those of [applyHighlight]; and after
    [resetHighlight], before the new target is coloured, no mesh carries
    the highlight colour. *)
Theorem one_highlight_at_a_time :
  textColor options ≠ highlightedTextColor options →
  (∀ s r1 r2, observable options shape randomValues s →
     highlightColored options s r1 → highlightColored options s r2 → r1 = r2) ∧
  (∀ ray s, highlightedTextMesh s ≠ hovered ray s →
     calls (processIntersections options ray s) =
     calls s ++ resetCalls options s ++ applyCalls options s (hovered ray s)) ∧
  (∀ s r, reachable options shape randomValues s →
     ¬ highlightColored options (resetHighlight options s) r).
Proof.
  intros Hne.
  assert (Hreset : ∀ s r, reachable options shape randomValues s →
                          ¬ highlightColored options (resetHighlight options s) r).
  { intros s r Hs. apply reset_clears; [done|]. by eapply reachable_highlightRecorded. }
  split; [|split; [intros ray s; apply frame_calls | exact Hreset]].
  intros s r1 r2 Hs H1 H2. destruct Hs as [s Hs|ray s Hs _|ray s Hs _].
  - pose proof (reachable_highlightRecorded _ _ _ _ Hne Hs) as Hrec.
    destruct (Hrec r1 H1) as [Hr1 _]. destruct (Hrec r2 H2) as [Hr2 _]. congruence.
  - by destruct (Hreset s r1 Hs).
  - destruct (apply_colors_target options _ _ _ (λ r', Hreset s r' Hs) H1) as [Hr1 _].
    destruct (apply_colors_target options _ _ _ (λ r', Hreset s r' Hs) H2) as [Hr2 _].
    congruence.
Qed.

End HoverClaims.

(** C1, witness: the grid of the page, five cells along each axis. *)
Lemma cube_one_plane_one_group_per_cell_witness :
  (0 ≤ gridSize pageOptions)%Z ∧
  ∃ groups s,
    init pageOptions demoShape demoRandom newApp = Some (groups, s) ∧
    length (setMatrixAtCalls (calls s)) = 125%nat ∧ length groups = 125%nat.
Proof.
  assert (HG : (0 ≤ gridSize pageOptions)%Z) by (simpl; lia).
  split; [exact HG|].
  destruct (cube_one_plane_one_group_per_cell pageOptions demoShape demoRandom HG)
    as (groups & s & planeMesh & Hrun & _ & _ & _ & Hcalls & Hgroups & _).
  exists groups, s. split; [exact Hrun|]. simpl in Hcalls, Hgroups. split; lia.
Defined.

(** C8, witness: the options of the page, [Math.random()] returning 1/2. *)
Lemma cell_matrix_jitter_and_angle_witness :
  (0 ≤ gridSize pageOptions)%Z ∧ (0 < cellSizeOf pageOptions)%Q ∧
  (∀ n, (0 <= demoRandom n)%Q ∧ (demoRandom n < 1)%Q) ∧
  ∃ groups s,
    init pageOptions demoShape demoRandom newApp = Some (groups, s) ∧
    ∃ planeMesh i j θ,
      (planeMesh, i,
       mkMatrix4 (mkEuler θ θ θ)
                 (mkVector3 (inject_Z 4 * cellSizeOf pageOptions + j)
                            (inject_Z 0 * cellSizeOf pageOptions + j)
                            (inject_Z 2 * cellSizeOf pageOptions + j))%Q)
        ∈ setMatrixAtCalls (calls s) ∧
      (0 <= j)%Q ∧ (j < cellSizeOf pageOptions / 2)%Q ∧
      (0 <= θ)%Q ∧ (θ < 2 * Math_PI)%Q.
Proof.
  assert (HG : (0 ≤ gridSize pageOptions)%Z) by (simpl; lia).
  assert (Hc : (0 < cellSizeOf pageOptions)%Q) by reflexivity.
  assert (Hr : ∀ n, (0 <= demoRandom n)%Q ∧ (demoRandom n < 1)%Q)
    by (intros n; unfold demoRandom; split; lra).
  split; [exact HG|]. split; [exact Hc|]. split; [exact Hr|].
  destruct (cell_matrix_jitter_and_angle pageOptions demoShape demoRandom HG Hc Hr)
    as (groups & s & Hrun & Hcells).
  exists groups, s. split; [exact Hrun|]. apply (Hcells 4 0 2)%Z. simpl. lia.
Defined.

(** C8, as stated, fails: with planes that overlap by their whole width
    the cell size is 0, and no jitter lies in the empty interval
    [[0, 0)]; the one cell is at the origin. *)
Lemma cell_jitter_interval_empty :
  (∀ n, (0 <= demoRandom n)%Q ∧ (demoRandom n < 1)%Q) ∧
  ∃ groups s m,
    init noGap demoShape demoRandom newApp = Some (groups, s) ∧
    setMatrixAtCalls (calls s) = [(1, 0, m)%nat] ∧
    ¬ ∃ j, (0 <= j)%Q ∧ (j < cellSizeOf noGap / 2)%Q ∧
           (vx (mPosition m) == inject_Z 0 * cellSizeOf noGap + j)%Q.
Proof.
  split; [intros n; unfold demoRandom; split; lra|].
  eexists _, _, _. split; [vm_compute; reflexivity|]. split; [vm_compute; reflexivity|].
  intros (j & H0 & H1 & _). assert (Hc : (cellSizeOf noGap / 2 == 0)%Q) by reflexivity.
  rewrite Hc in H1. lra.
Qed.

(** C5, witness: one cell that shows "Hi there". *)
Lemma cache_one_mesh_per_word_witness :
  (0 < gridSize hiThere)%Z ∧
  ∃ groups s,
    init hiThere demoShape demoRandom newApp = Some (groups, s) ∧
    dom (textMeshCache s) = list_to_set (split (text hiThere)) ∧
    NoDup (newTexts (calls s)).*1.
Proof.
  assert (HG : (0 < gridSize hiThere)%Z) by (simpl; lia).
  split; [exact HG|].
  destruct (cache_one_mesh_per_word hiThere demoShape demoRandom HG)
    as (groups & s & Hrun & Hdom & _ & Hnd & _).
  exists groups, s. split; [exact Hrun|]. split; [exact Hdom | exact Hnd].
Defined.

(** C5, as stated, fails: with a grid size of 0 the assembly completes
    without a call of [generateTextMeshes], and the cache has no entry for
    the words of the text. *)
Lemma cache_empty_without_cells :
  ∃ groups s,
    init noCell demoShape demoRandom newApp = Some (groups, s) ∧
    "Hi" ∈ split (text noCell) ∧ textMeshCache s !! "Hi" = None.
Proof.
  eexists _, _. split; [vm_compute; reflexivity|].
  split; [apply list_elem_of_here | reflexivity].
Qed.

(** C9, witness: one cell that shows "Hi there". *)
Lemma cache_entry_is_scene_object_witness :
  (0 ≤ gridSize hiThere)%Z ∧
  ∃ groups s,
    init hiThere demoShape demoRandom newApp = Some (groups, s) ∧
    ∀ w r, textMeshCache s !! w = Some r → CNewText r w ∈ calls s.
Proof.
  assert (HG : (0 ≤ gridSize hiThere)%Z) by (simpl; lia).
  split; [exact HG|].
  destruct (cache_entry_is_scene_object hiThere demoShape demoRandom HG)
    as (groups & s & Hrun & Hcache).
  exists groups, s. split; [exact Hrun|]. intros w r Hc. apply (Hcache w r Hc).
Defined.

(** C9, as stated, fails: of seven words that fill a line each, the seventh
    is dropped by the layout. Its cache entry is the mesh 12, which is not
    a child of any group, is not registered and has no position written. *)
Lemma cache_entry_outside_scene :
  ∃ groups s,
    init sevenLines demoShape demoRandom newApp = Some (groups, s) ∧
    "gggggggggggggg" ∈ split (text sevenLines) ∧
    textMeshCache s !! "gggggggggggggg" = Some 12%nat ∧
    (∀ parent, ¬ childOf s parent 12) ∧
    (12%nat ∉ interactableMeshes s) ∧ (12%nat ∉ positioned (calls s)).
Proof.
  destruct (init_assembled sevenLines) as [groups Hrun]; [vm_compute; eexists; reflexivity|].
  exists groups, (assembled sevenLines). split; [exact Hrun|].
  split; [apply list_elem_of_In; vm_compute; tauto|]. split; [by vm_compute|].
  split; [intros parent Hin; apply childOf_elem in Hin|split; intros Hin];
    apply list_elem_of_In in Hin; vm_compute in Hin; intuition discriminate.
Qed.

(** C2, witness: the word "Hi" of the one cell, after a frame that hovers
    it. *)
Lemma highlighted_is_registered_witness :
  reachable hiThere demoShape demoRandom
            (processIntersections hiThere (rayAt 6) (assembled hiThere)) ∧
  highlightedTextMesh (processIntersections hiThere (rayAt 6) (assembled hiThere)) = object 6 ∧
  6%nat ∈ interactableMeshes (processIntersections hiThere (rayAt 6) (assembled hiThere)).
Proof.
  assert (H1 : reachable hiThere demoShape demoRandom
                 (processIntersections hiThere (rayAt 6) (assembled hiThere))).
  { destruct (init_assembled hiThere) as [groups Hrun]; [vm_compute; eexists; reflexivity|].
    apply reachable_frame. by eapply reachable_init. }
  assert (H2 : highlightedTextMesh
                 (processIntersections hiThere (rayAt 6) (assembled hiThere)) = object 6)
    by (vm_compute; reflexivity).
  split; [exact H1|]. split; [exact H2|].
  exact (proj1 (highlighted_is_registered hiThere demoShape demoRandom _ 6%nat H1 H2)).
Defined.

(** C2, as stated, fails: after a frame whose ray meets the plane mesh,
    the highlighted reference is the plane mesh, which has no text. *)
Lemma highlighted_plane_has_no_text :
  ∃ s,
    reachable hiThere demoShape demoRandom s ∧
    highlightedTextMesh s = object 1 ∧ isInstancedMesh s 1 ∧
    textOf s (highlightedTextMesh s) = None.
Proof.
  exists (processIntersections hiThere (rayAt 1) (assembled hiThere)). split.
  { destruct (init_assembled hiThere) as [groups Hrun]; [vm_compute; eexists; reflexivity|].
    apply reachable_frame. by eapply reachable_init. }
  split; [vm_compute; reflexivity|]. split; [|vm_compute; reflexivity].
  eexists. vm_compute. reflexivity.
Qed.

(** C6, witness: a second frame with the ray that hovers "Hi". *)
Lemma frame_same_target_changes_nothing_witness :
  highlightedTextMesh (processIntersections hiThere (rayAt 6) (assembled hiThere)) =
    hovered (rayAt 6) (processIntersections hiThere (rayAt 6) (assembled hiThere)) ∧
  processIntersections hiThere (rayAt 6)
    (processIntersections hiThere (rayAt 6) (assembled hiThere)) =
  processIntersections hiThere (rayAt 6) (assembled hiThere).
Proof.
  assert (H : highlightedTextMesh (processIntersections hiThere (rayAt 6) (assembled hiThere)) =
              hovered (rayAt 6) (processIntersections hiThere (rayAt 6) (assembled hiThere)))
    by (vm_compute; reflexivity).
  split; [exact H|].
  exact (proj1 (frame_same_target_changes_nothing hiThere (rayAt 6) _) H).
Defined.

(** C7, witness: the colours of the page. *)
Lemma one_highlight_at_a_time_witness :
  textColor pageOptions ≠ highlightedTextColor pageOptions ∧
  ∀ s r1 r2, observable pageOptions demoShape demoRandom s →
    highlightColored pageOptions s r1 → highlightColored pageOptions s r2 → r1 = r2.
Proof.
  assert (Hne : textColor pageOptions ≠ highlightedTextColor pageOptions) by discriminate.
  split; [exact Hne|].
  exact (proj1 (one_highlight_at_a_time pageOptions demoShape demoRandom Hne)).
Defined.

(** C7, as stated, fails: when the highlight colour is the default colour,
    both words carry it as soon as the scene is assembled. *)
Lemma two_meshes_highlight_coloured :
  ∃ s,
    observable oneColour demoShape demoRandom s ∧
    highlightColored oneColour s 6 ∧ highlightColored oneColour s 7.
Proof.
  exists (assembled oneColour). split.
  { destruct (init_assembled oneColour) as [groups Hrun]; [vm_compute; eexists; reflexivity|].
    apply observable_between. by eapply reachable_init. }
  split; eexists; (split; [vm_compute; reflexivity | reflexivity]).
Qed.

(** * Further properties of the code *)

(** ** Hover *)

Section FrameLemmas.

Variable options : Options.

Lemma hasText_text s (r : ref) m :
  heap s !! r = Some (OText m) → hasText s (object r) = truthy (Text.text m).
Proof. intros Hm. unfold hasText, textOf. by rewrite Hm. Qed.

Lemma reset_allDefault s :
  coloursFollow options s → allDefaultColor options (resetHighlight options s).
Proof.
  intros Hc r m Hm. rewrite heap_resetHighlight in Hm.
  destruct (highlightedTextMesh s) as [| |r0] eqn:Hh.
  - specialize (Hc r m Hm). by rewrite Hh, decide_False in Hc.
  - specialize (Hc r m Hm). by rewrite Hh, decide_False in Hc.
  - destruct (hasText s (object r0)) eqn:Ht.
    + rewrite heap_colorAndSync in Hm. case_decide as Hr.
      * subst r0. repeat case_match; by simplify_eq.
      * specialize (Hc r m Hm). rewrite Hh, decide_False in Hc; [done|congruence].
    + specialize (Hc r m Hm). rewrite Hh in Hc. case_decide as Hr; [|done].
      injection Hr as ->. rewrite (hasText_text _ _ _ Hm) in Ht. by rewrite Ht in Hc.
Qed.

Lemma frame_coloursFollow ray s :
  coloursFollow options s → coloursFollow options (processIntersections options ray s).
Proof.
  intros Hc. rewrite processIntersections_unfold. case_decide as Hsame; [done|].
  pose proof (reset_allDefault s Hc) as Hd.
  intros r m Hm. simpl in Hm. simpl highlightedTextMesh.
  rewrite heap_applyHighlight in Hm.
  destruct (hovered ray s) as [| |r0] eqn:Hh.
  - rewrite decide_False by done. by eapply Hd.
  - rewrite decide_False by done. by eapply Hd.
  - destruct (hasText (resetHighlight options s) (object r0)) eqn:Ht.
    + rewrite heap_colorAndSync in Hm. case_decide as Hr.
      * subst r0. rewrite decide_True by done.
        destruct (heap (resetHighlight options s) !! r) as [[m0|g|im]|] eqn:Hm0;
          simplify_eq.
        rewrite (hasText_text _ _ _ Hm0) in Ht. simpl. by rewrite Ht.
      * rewrite decide_False by congruence. by eapply Hd.
    + case_decide as Hr; [|by eapply Hd]. injection Hr as ->.
      rewrite (hasText_text _ _ _ Hm) in Ht. rewrite Ht. by eapply Hd.
Qed.

Lemma hoveredOf_defined l : hoveredOf l ≠ undefined.
Proof. by destruct l. Qed.

Lemma cursor_colorAndSync r c s : cursor (colorAndSync r c s) = cursor s.
Proof. unfold colorAndSync. by destruct (heap s !! r) as [[m|g|im]|]. Qed.

Lemma cursor_resetHighlight s : cursor (resetHighlight options s) = "auto".
Proof. reflexivity. Qed.

Lemma cursor_applyHighlight target c s :
  cursor (applyHighlight target c s) = if hasText s target then "pointer" else cursor s.
Proof.
  unfold applyHighlight. destruct (hasText s target) eqn:Ht; [|done].
  by destruct target.
Qed.

Lemma hasText_frame ray s o :
  hasText (processIntersections options ray s) o = hasText s o.
Proof.
  rewrite processIntersections_unfold. case_decide; [done|]. unfold hasText.
  change (textOf (set_highlightedTextMesh ?h ?s0) o) with (textOf s0 o).
  by rewrite textOf_applyHighlight, textOf_resetHighlight.
Qed.

Lemma frame_cursor ray s :
  highlightedTextMesh s = undefined ∨ cursor s = cursorFor s →
  cursor (processIntersections options ray s) =
  cursorFor (processIntersections options ray s).
Proof.
  intros Hk. unfold cursorFor. rewrite hasText_frame, frame_highlighted.
  rewrite processIntersections_unfold. case_decide as Hsame.
  - destruct Hk as [Hu|Hk]; [|by rewrite <- Hsame].
    rewrite Hu in Hsame. symmetry in Hsame. by apply hoveredOf_defined in Hsame.
  - simpl. rewrite cursor_applyHighlight, hasText_resetHighlight.
    by destruct (hasText s (hovered ray s)).
Qed.

(** The fields a frame does not write. *)
Lemma fields_frame ray s :
  textMeshCache (processIntersections options ray s) = textMeshCache s ∧
  scene (processIntersections options ray s) = scene s ∧
  randomCalls (processIntersections options ray s) = randomCalls s ∧
  length (heap (processIntersections options ray s)) = length (heap s).
Proof.
  assert (Hcol : ∀ r c s0,
             textMeshCache (colorAndSync r c s0) = textMeshCache s0 ∧
             scene (colorAndSync r c s0) = scene s0 ∧
             randomCalls (colorAndSync r c s0) = randomCalls s0 ∧
             length (heap (colorAndSync r c s0)) = length (heap s0)).
  { intros r c s0. unfold colorAndSync.
    destruct (heap s0 !! r) as [[m|g|im]|]; try done. simpl.
    by rewrite length_insert. }
  assert (Hreset : textMeshCache (resetHighlight options s) = textMeshCache s ∧
                   scene (resetHighlight options s) = scene s ∧
                   randomCalls (resetHighlight options s) = randomCalls s ∧
                   length (heap (resetHighlight options s)) = length (heap s)).
  { unfold resetHighlight. destruct (hasText s (highlightedTextMesh s)); [|done].
    destruct (highlightedTextMesh s) as [| |r]; try done. apply (Hcol r). }
  rewrite processIntersections_unfold. case_decide; [done|]. simpl.
  unfold applyHighlight. destruct (hasText _ (hovered ray s)); [|done].
  destruct (hovered ray s) as [| |r]; try done. simpl.
  destruct (Hcol r (highlightedTextColor options) (resetHighlight options s))
    as (-> & -> & -> & ->). done.
Qed.

Lemma frame_heap ray s r :
  heap (processIntersections options ray s) !! r = heap s !! r ∨
  (highlightedTextMesh s = object r ∨ hovered ray s = object r) ∧
  recoloured (heap s !! r) (heap (processIntersections options ray s) !! r).
Proof.
  rewrite processIntersections_unfold. case_decide as Hsame; [by left|]. simpl.
  assert (Hreset : heap (resetHighlight options s) !! r = heap s !! r ∨
                   highlightedTextMesh s = object r ∧
                   recoloured (heap s !! r) (heap (resetHighlight options s) !! r)).
  { rewrite heap_resetHighlight. destruct (highlightedTextMesh s) as [| |r0]; try by left.
    destruct (hasText s (object r0)); [|by left].
    rewrite heap_colorAndSync. case_decide as Hr; [subst r0|by left].
    destruct (heap s !! r) as [[m|g|im]|]; try by left.
    right. split; [done|]. by exists m, (textColor options). }
  assert (Hrest : heap (resetHighlight options s) !! r = heap s !! r ∨
                  (highlightedTextMesh s = object r ∨ hovered ray s = object r) ∧
                  recoloured (heap s !! r) (heap (resetHighlight options s) !! r)).
  { destruct Hreset as [?|[? ?]]; [by left | right; split; [by left | done]]. }
  rewrite heap_applyHighlight.
  destruct (hovered ray s) as [| |r0] eqn:Hh; try done.
  destruct (hasText (resetHighlight options s) (object r0)); [|done].
  rewrite heap_colorAndSync. case_decide as Hr; [subst r0|done].
  destruct Hreset as [Hkeep|[Hprev _]]; [|by rewrite Hprev in Hsame].
  rewrite Hkeep. destruct (heap s !! r) as [[m|g|im]|]; try by left.
  right. split; [by right|]. by exists m, (highlightedTextColor options).
Qed.

(** The nearest hit comes first. *)
Lemma insertByDistance_head i l :
  (∀ h l', l = h :: l' → ∀ j, j ∈ l → (distance h <= distance j)%Q) →
  ∀ h l', insertByDistance i l = h :: l' →
          ∀ j, j ∈ insertByDistance i l → (distance h <= distance j)%Q.
Proof.
  intros Hmin h l' Hins j Hj. apply insertByDistance_elem in Hj.
  destruct l as [|k l]; simpl in Hins.
  - injection Hins as <- <-. destruct Hj as [->|Hj]; [lra|by apply elem_of_nil in Hj].
  - pose proof (Hmin k l eq_refl) as Hk.
    destruct (Qlt_le_dec (distance k) (distance i)) as [Hlt|Hle]; injection Hins as <- <-.
    + destruct Hj as [->|Hj]; [lra | by apply Hk].
    + destruct Hj as [->|Hj]; [lra|]. specialize (Hk j Hj). lra.
Qed.

Lemma insertByDistance_elem_2 i j l :
  j = i ∨ j ∈ l → j ∈ insertByDistance i l.
Proof.
  induction l as [|k l IH]; simpl.
  - intros [->|Hj]; [left | by apply elem_of_nil in Hj].
  - destruct (Qlt_le_dec (distance k) (distance i)).
    + intros [->|[->|Hj]%elem_of_cons]; [right; apply IH; by left | left | right; apply IH; by right].
    + intros [->|Hj]; [left | by right].
Qed.

Lemma sorted_head (hits : list Intersection) :
  (∀ j, j ∈ foldr insertByDistance [] hits ↔ j ∈ hits) ∧
  ∀ h l', foldr insertByDistance [] hits = h :: l' →
          ∀ j, j ∈ hits → (distance h <= distance j)%Q.
Proof.
  induction hits as [|i hits [IHe IHm]]; [split; [done|]; intros h l' Hnil; done|].
  assert (He : ∀ j, j ∈ foldr insertByDistance [] (i :: hits) ↔ j ∈ i :: hits).
  { intros j. simpl. split.
    - intros [->|Hj]%insertByDistance_elem; [left | right; by apply IHe].
    - intros [->|Hj]%elem_of_cons; apply insertByDistance_elem_2; [by left | right; by apply IHe]. }
  split; [exact He|]. intros h l' Hs j Hj. simpl in Hs.
  eapply (insertByDistance_head i (foldr insertByDistance [] hits)); [|exact Hs|by apply He].
  intros h0 l0 H0 j0 Hj0. eapply IHm; [exact H0 | by apply IHe].
Qed.

Lemma elem_of_hits (ray : Ray) objects d o :
  mkIntersection d o ∈ concat (map (λ o, map (λ d, mkIntersection d o) (ray o)) objects) ↔
  o ∈ objects ∧ d ∈ ray o.
Proof.
  rewrite list_elem_of_In, in_concat. split.
  - intros (l & Hl & Hi). apply in_map_iff in Hl as (o' & <- & Ho').
    apply in_map_iff in Hi as (d' & Heq & Hd'). injection Heq as -> ->.
    split; by apply list_elem_of_In.
  - intros [Ho Hd]. exists (map (λ d, mkIntersection d o) (ray o)). split.
    + apply in_map_iff. exists o. split; [done | by apply list_elem_of_In].
    + apply in_map_iff. exists d. split; [done | by apply list_elem_of_In].
Qed.

End FrameLemmas.

Section FrameProperties.

Variable options : Options.
Variable shape : string → option TextRenderInfo.
Variable randomValues : nat → Q.

Lemma reachable_cursor s :
  reachable options shape randomValues s →
  highlightedTextMesh s = undefined ∨ cursor s = cursorFor s.
Proof.
  induction 1 as [groups s Hrun|ray s _ IH]; [left|right; by apply frame_cursor].
  destruct (init_facts _ _ _ _ _ Hrun) as [Hbuilt _].
  by destruct (init_calls _ _ _ _ Hbuilt) as (? & ? & ? & ? & ? & _ & Hh & _).
Qed.

(** X1. In every state between two frames the colours follow the record:
    a text mesh has the highlight colour if it is the highlighted reference
    and its text is not empty, and the default colour otherwise. *)
Theorem colours_follow_highlight s :
  reachable options shape randomValues s → coloursFollow options s.
Proof.
  induction 1 as [groups s Hrun|ray s _ IH]; [|by apply frame_coloursFollow].
  destruct (init_facts _ _ _ _ _ Hrun) as [Hbuilt Hdefault].
  destruct (init_calls _ _ _ _ Hbuilt) as (? & ? & ? & ? & ? & _ & Hh & _).
  intros r m Hm. rewrite Hh, decide_False by done. by eapply Hdefault.
Qed.

(** X2. After every frame the highlighted reference is [null] or an
    object, and the cursor style is [pointer] when that object has a text
    that is not empty, [auto] otherwise. *)
Theorem cursor_follows_highlight ray s :
  reachable options shape randomValues s →
  highlightedTextMesh (processIntersections options ray s) ≠ undefined ∧
  cursor (processIntersections options ray s) =
  cursorFor (processIntersections options ray s).
Proof.
  intros Hs. split; [|by apply frame_cursor, reachable_cursor].
  rewrite frame_highlighted. apply hoveredOf_defined.
Qed.

(** X3. A frame writes colours only. The registry, the cache, the scene
    reference, the count of random draws and the number of objects stay;
    every object stays as it is, but for the highlighted reference and the
    hovered object, which may get another colour. *)
Theorem frame_changes_only_colours ray s :
  interactableMeshes (processIntersections options ray s) = interactableMeshes s ∧
  textMeshCache (processIntersections options ray s) = textMeshCache s ∧
  scene (processIntersections options ray s) = scene s ∧
  randomCalls (processIntersections options ray s) = randomCalls s ∧
  length (heap (processIntersections options ray s)) = length (heap s) ∧
  ∀ r, heap (processIntersections options ray s) !! r = heap s !! r ∨
       (highlightedTextMesh s = object r ∨ hovered ray s = object r) ∧
       recoloured (heap s !! r) (heap (processIntersections options ray s) !! r).
Proof.
  split; [apply frame_registry|].
  destruct (fields_frame options ray s) as (Hc & Hsc & Hr & Hl).
  repeat (split; [done|]). apply frame_heap.
Qed.

(** X4. The hovered reference of a frame is [null] exactly when the ray
    meets no registered object. Otherwise it is a registered object, met
    at a distance that no hit of a registered object is below. *)
Theorem hovered_is_nearest_hit ray s :
  (hovered ray s = null ↔ ∀ r, r ∈ interactableMeshes s → ray r = []) ∧
  (∀ r, hovered ray s = object r →
        r ∈ interactableMeshes s ∧
        ∃ d, d ∈ ray r ∧
             ∀ r' d', r' ∈ interactableMeshes s → d' ∈ ray r' → (d <= d')%Q).
Proof.
  unfold hovered, intersectObjects.
  set (hits := concat (map (λ o, map (λ d, mkIntersection d o) (ray o)) (interactableMeshes s))).
  destruct (sorted_head hits) as [He Hmin].
  destruct (foldr insertByDistance [] hits) as [|[d r] l] eqn:Hs; simpl.
  - split; [|done]. split; [|done]. intros _ r Hr.
    destruct (ray r) as [|d ds] eqn:Hray; [done|].
    assert (Hin : mkIntersection d r ∈ hits).
    { apply elem_of_hits. split; [done|]. rewrite Hray. left. }
    apply He in Hin. by apply elem_of_nil in Hin.
  - assert (Hin : mkIntersection d r ∈ hits) by (apply He; left).
    apply elem_of_hits in Hin as [Hr Hd]. split.
    + split; [done|]. intros Hnone. rewrite (Hnone r Hr) in Hd. by apply elem_of_nil in Hd.
    + intros ? [= <-]. split; [done|]. exists d. split; [done|].
      intros r' d' Hr' Hd'.
      apply (Hmin _ _ eq_refl (mkIntersection d' r')). by apply elem_of_hits.
Qed.

End FrameProperties.

(** ** Layout *)

Lemma bind_inv {A B} (m : M A) (k : A → M B) s b s' :
  bind m k s = Some (b, s') → ∃ a s1, m s = Some (a, s1) ∧ k a s1 = Some (b, s').
Proof.
  unfold bind. destruct (m s) as [[a s1]|]; [|done]. intros Hk. by exists a, s1.
Qed.

Lemma length_position_set r v s a s' :
  position_set r v s = Some (a, s') → length (heap s') = length (heap s).
Proof.
  unfold position_set. destruct (heap s !! r) as [[m|g|im]|]; try done;
    intros [= <- <-]; simpl; by rewrite length_insert.
Qed.

Lemma length_clone r s r' s' :
  clone r s = Some (r', s') → length (heap s') = S (length (heap s)) ∧ r' = length (heap s).
Proof.
  unfold clone, bind, getText. destruct (heap s !! r) as [[m|g|im]|]; try done.
  intros [= <- <-]. simpl. rewrite length_app. simpl. split; [lia|done].
Qed.

Lemma length_add parent child s a s' :
  add parent child s = Some (a, s') → length (heap s') = length (heap s).
Proof.
  unfold add, bind, getGroup. destruct (heap s !! parent) as [[m|g|im]|]; try done.
  intros [= <- <-]. simpl. by rewrite length_insert.
Qed.

Section PlacementLemmas.

Variable options : Options.

Local Open Scope Q_scope.

Lemma placeWord_length mesh frontGroup backGroup x y s a s' :
  placeWord mesh frontGroup backGroup x y s = Some (a, s') →
  length (heap s') = S (length (heap s)).
Proof.
  unfold placeWord. intros Hrun.
  apply bind_inv in Hrun as (? & s1 & H1 & Hrun). apply length_position_set in H1.
  apply bind_inv in Hrun as (back & s2 & H2 & Hrun). apply length_clone in H2 as [H2 _].
  apply bind_inv in Hrun as (? & s3 & H3 & Hrun). apply length_position_set in H3.
  apply bind_inv in Hrun as (? & s4 & H4 & Hrun). apply length_add in H4.
  apply bind_inv in Hrun as (? & s5 & H5 & Hrun). apply length_add in H5.
  injection Hrun as _ <-. simpl. congruence.
Qed.

(** The widths the loop reads are those of the state it starts in. *)
Lemma placedFrom_later F evs reg s s1 x y placed :
  effect F evs reg s s1 → (∀ r, r ∈ placed.*1 → isText s r ∧ r ∉ F) →
  placedFrom options s1 x y placed → placedFrom options s x y placed.
Proof.
  intros E. revert x y. induction placed as [|[mesh v] placed IH]; intros x y Hin; [done|].
  simpl. intros (m1 & Hm1 & Hz & Hcase & Hroom & Hrest).
  destruct (Hin mesh) as [[m Hm] HF]; [left|].
  destruct (effect_text _ _ _ _ _ _ _ E Hm) as (m' & Hm' & _ & _ & Hinfo).
  assert (Some (OText m') = Some (OText m1)) as [= ->]
    by (etrans; [symmetry; exact Hm' | exact Hm1]).
  assert (Hw : measuredWidth m1 = measuredWidth m) by (by apply measuredWidth_info, Hinfo).
  exists m. rewrite <- Hw. repeat (split; [done|]).
  apply IH; [|done]. intros r Hr. apply Hin. by right.
Qed.

Lemma layoutLoop_trace frontGroup backGroup meshes :
  ∀ s x y,
    Forall (isText s) meshes → isGroup s frontGroup → isGroup s backGroup →
    ∃ s' placed,
      layoutLoop options meshes frontGroup backGroup x y s = Some (tt, s') ∧
      placed.*1 `prefix_of` meshes ∧
      calls s' = calls s ++ placementCalls frontGroup backGroup (length (heap s)) placed ∧
      interactableMeshes s' =
        interactableMeshes s ++ placementRegistry (length (heap s)) placed ∧
      length (heap s') = (length (heap s) + length placed)%nat ∧
      placedFrom options s x y placed.
Proof.
  induction meshes as [|mesh rest IH]; intros s x y Hmeshes Hfront Hback.
  { exists s, []. simpl. rewrite !app_nil_r, Nat.add_0_r. repeat split; by try apply prefix_nil. }
  apply Forall_cons in Hmeshes as [[m Hm] Hrest].
  set (x1 := if Qlt_le_dec (rectWidth options) (x + measuredWidth m) then 0 else x).
  set (y1 := if Qlt_le_dec (rectWidth options) (x + measuredWidth m)
             then y - lineHeightOf options else y).
  assert (Hcase : rectWidth options < x + measuredWidth m ∧
                  x1 = 0 ∧ y1 = y - lineHeightOf options ∨
                  x + measuredWidth m <= rectWidth options ∧ x1 = x ∧ y1 = y).
  { unfold x1, y1. destruct (Qlt_le_dec (rectWidth options) (x + measuredWidth m));
      [by left | by right]. }
  destruct (Qlt_le_dec (y1 - lineHeightOf options) (- rectWidth options)) as [Hbreak|Hroom].
  { exists s, []. simpl. rewrite !app_nil_r, Nat.add_0_r.
    split; [by eapply layoutLoop_break|]. repeat split; by try apply prefix_nil. }
  rewrite (layoutLoop_cons options frontGroup backGroup mesh rest m x y x1 y1 s Hm Hcase Hroom).
  destruct (placeWord_spec frontGroup backGroup mesh m x1 y1 s Hm Hfront Hback)
    as ([] & s1 & Hplace & E).
  pose proof (placeWord_length _ _ _ _ _ _ _ _ Hplace) as Hlen.
  destruct (IH s1 (x1 + measuredWidth m + spaceWidth options) y1)
    as (s' & placed & Hrun & Hpre & Hcalls & Hreg & Hlen' & Hfrom).
  { eapply Forall_impl; [exact Hrest|]. intros r Hr. by eapply effect_isText. }
  { by eapply effect_isGroup. }
  { by eapply effect_isGroup. }
  exists s', ((mesh, mkVector3 x1 y1 0) :: placed).
  split; [by rewrite (bind_run _ _ _ _ _ Hplace)|].
  split; [simpl; by apply prefix_cons|].
  split; [rewrite Hcalls, (effect_calls _ _ _ _ _ E), Hlen; simpl; by rewrite <- app_assoc|].
  split; [rewrite Hreg, (effect_registry _ _ _ _ _ E), Hlen; simpl; by rewrite <- app_assoc|].
  split; [rewrite Hlen', Hlen; simpl; lia|].
  simpl. exists m. repeat (split; [done|]).
  eapply placedFrom_later; [exact E| |exact Hfrom].
  intros r Hr. assert (Hin : r ∈ rest) by (eapply elem_of_prefix; [exact Hr|exact Hpre]).
  pose proof (proj1 (Forall_forall _ _) Hrest r Hin) as Ht. split; [done|].
  intros HF. apply elem_of_union in HF as [HF|HF]; apply elem_of_singleton in HF; subst r;
    by eapply isText_not_isGroup.
Qed.

End PlacementLemmas.

Section PlacementProperties.

Variable options : Options.

Local Open Scope Q_scope.

Lemma placedFrom_follows s placed :
  ∀ x y, placedFrom options s x y placed →
         ∀ i p q, placed !! i = Some p → placed !! S i = Some q → follows options s p q.
Proof.
  induction placed as [|[mesh v] placed IH]; intros x y Hfrom i p q Hp Hq; [done|].
  simpl in Hfrom. destruct Hfrom as (m & Hm & _ & _ & _ & Hrest).
  destruct i as [|i]; [|by eapply IH].
  injection Hp as <-. destruct placed as [|[mesh2 v2] placed]; [done|].
  injection Hq as <-. simpl in Hrest. destruct Hrest as (m2 & _ & _ & Hcase & _).
  exists m. split; [done|]. simpl.
  destruct Hcase as [(_ & ? & ?)|(_ & ? & ?)]; [by right | by left].
Qed.

Lemma placedFrom_quadrant s placed :
  0 <= lineHeightOf options → 0 <= spaceWidth options →
  (∀ r m, r ∈ placed.*1 → heap s !! r = Some (OText m) → 0 <= measuredWidth m) →
  ∀ x y, 0 <= x → y <= 0 → placedFrom options s x y placed →
         ∀ p, p ∈ placed → 0 <= vx p.2 ∧ vy p.2 <= 0 ∧ vz p.2 = 0.
Proof.
  intros Hlh Hsp. induction placed as [|[mesh v] placed IH]; intros Hw x y Hx Hy Hfrom p Hp.
  { by apply elem_of_nil in Hp. }
  simpl in Hfrom. destruct Hfrom as (m & Hm & Hz & Hcase & _ & Hrest).
  assert (Hwm : 0 <= measuredWidth m) by (eapply Hw; [left | done]).
  assert (Hv : 0 <= vx v ∧ vy v <= 0).
  { destruct Hcase as [(_ & -> & ->)|(_ & -> & ->)]; split; lra. }
  apply elem_of_cons in Hp as [->|Hp]; [simpl; tauto|].
  eapply (IH (λ r m' Hr, Hw r m' (list_elem_of_further _ _ _ Hr))); [| |exact Hrest|exact Hp]; lra.
Qed.

Lemma placementCalls_position frontGroup backGroup next placed r v :
  CPositionSet r v ∈ placementCalls frontGroup backGroup next placed →
  ∃ mesh, (mesh, v) ∈ placed.
Proof.
  revert next. induction placed as [|[mesh v'] placed IH]; intros next Hin; simpl in Hin.
  { by apply elem_of_nil in Hin. }
  unfold placeCalls in Hin. rewrite !elem_of_cons in Hin.
  destruct Hin as [[= _ <-]|[?|[[= _ <-]|[?|[?|Hin]]]]]; try done;
    try (exists mesh; left).
  destruct (IH _ Hin) as [mesh' ?]. exists mesh'. by right.
Qed.

(** X5. The layout makes five calls for each word it places, in this
    order: the position of the word is written, the word is cloned, the
    same position is written to the copy, the word is added to the front
    group and the copy to the back group. The words placed are the first
    of the list; each copy is a new object; word and copy are registered
    in this order, and nothing else is. *)
Theorem layout_places_word_and_copy meshes frontGroup backGroup s :
  Forall (isText s) meshes → isGroup s frontGroup → isGroup s backGroup →
  ∃ s' placed,
    layoutTextMeshes options meshes frontGroup backGroup s = Some (tt, s') ∧
    placed.*1 `prefix_of` meshes ∧
    calls s' = calls s ++ placementCalls frontGroup backGroup (length (heap s)) placed ∧
    interactableMeshes s' =
      interactableMeshes s ++ placementRegistry (length (heap s)) placed ∧
    length (heap s') = (length (heap s) + length placed)%nat.
Proof.
  intros Hmeshes Hfront Hback.
  destruct (layoutLoop_trace options frontGroup backGroup meshes s 0 0 Hmeshes Hfront Hback)
    as (s' & placed & Hrun & Hpre & Hcalls & Hreg & Hlen & _).
  by exists s', placed.
Qed.

(** X6. The first word the layout places is at [x = 0], on the first line
    or, if it is wider than the rectangle, one line height lower. Every
    further word is on the line of the word before it, the space width
    behind its end, or at [x = 0] one line height lower. *)
Theorem layout_words_follow_each_other meshes frontGroup backGroup s :
  Forall (isText s) meshes → isGroup s frontGroup → isGroup s backGroup →
  ∃ s' placed,
    layoutTextMeshes options meshes frontGroup backGroup s = Some (tt, s') ∧
    calls s' = calls s ++ placementCalls frontGroup backGroup (length (heap s)) placed ∧
    (∀ p, placed !! 0%nat = Some p →
          vx p.2 = 0 ∧ (vy p.2 = 0 ∨ vy p.2 = 0 - lineHeightOf options)) ∧
    (∀ i p q, placed !! i = Some p → placed !! S i = Some q → follows options s p q).
Proof.
  intros Hmeshes Hfront Hback.
  destruct (layoutLoop_trace options frontGroup backGroup meshes s 0 0 Hmeshes Hfront Hback)
    as (s' & placed & Hrun & _ & Hcalls & _ & _ & Hfrom).
  exists s', placed. split; [exact Hrun|]. split; [exact Hcalls|].
  split; [|by eapply placedFrom_follows].
  intros p Hp. destruct placed as [|[mesh v] placed]; [done|]. injection Hp as <-.
  simpl in Hfrom. destruct Hfrom as (m & _ & _ & Hcase & _). simpl.
  destruct Hcase as [(_ & -> & ->)|(_ & -> & ->)]; [split; [done | by right]|split; [done | by left]].
Qed.

(** X7. With a line height and a space width that are not negative and
    words whose measured width is not negative, every position the layout
    writes has [0 <= x], [y <= 0] and [z = 0]. *)
Theorem layout_starts_inside meshes frontGroup backGroup s :
  0 <= lineHeightOf options → 0 <= spaceWidth options →
  (∀ r m, r ∈ meshes → heap s !! r = Some (OText m) → 0 <= measuredWidth m) →
  Forall (isText s) meshes → isGroup s frontGroup → isGroup s backGroup →
  ∃ s' evs,
    layoutTextMeshes options meshes frontGroup backGroup s = Some (tt, s') ∧
    calls s' = calls s ++ evs ∧
    ∀ r v, CPositionSet r v ∈ evs → 0 <= vx v ∧ vy v <= 0 ∧ vz v = 0.
Proof.
  intros Hlh Hsp Hw Hmeshes Hfront Hback.
  destruct (layoutLoop_trace options frontGroup backGroup meshes s 0 0 Hmeshes Hfront Hback)
    as (s' & placed & Hrun & Hpre & Hcalls & _ & _ & Hfrom).
  exists s', (placementCalls frontGroup backGroup (length (heap s)) placed).
  split; [exact Hrun|]. split; [exact Hcalls|]. intros r v Hin.
  apply placementCalls_position in Hin as [mesh Hin].
  eapply (placedFrom_quadrant s placed Hlh Hsp) with (p := (mesh, v)) (x := 0) (y := 0);
    [|lra|lra|exact Hfrom|exact Hin].
  intros r' m' Hr'. apply Hw. by eapply elem_of_prefix.
Qed.


End PlacementProperties.

(** ** Words and their meshes *)

Lemma split_cons s : ∃ w ws, split s = w :: ws.
Proof.
  induction s as [|c s (w & ws & IH)]; simpl; [by eexists _, _|].
  destruct (Ascii.eqb c Ascii.Space); [by eexists _, _|]. rewrite IH. by eexists _, _.
Qed.

Lemma joinWords_split s : joinWords (split s) = s.
Proof.
  induction s as [|c s IH]; [done|]. simpl.
  destruct (Ascii.eqb c Ascii.Space) eqn:Hc.
  - apply Ascii.eqb_eq in Hc as ->. destruct (split_cons s) as (w & ws & Hs).
    rewrite Hs in *. simpl. by rewrite <- IH.
  - destruct (split_cons s) as (w & ws & Hs). rewrite Hs in *.
    rewrite <- IH. by destruct ws.
Qed.

Lemma length_split s : length (split s) = S (countSpaces s).
Proof.
  induction s as [|c s IH]; [done|]. simpl.
  destruct (Ascii.eqb c Ascii.Space); simpl; [by rewrite IH|].
  destruct (split_cons s) as (w & ws & Hs). rewrite Hs in *. simpl in *. lia.
Qed.

Lemma countSpaces_split s : Forall (λ w, countSpaces w = 0%nat) (split s).
Proof.
  induction s as [|c s IH]; simpl; [by constructor|].
  destruct (Ascii.eqb c Ascii.Space) eqn:Hc; [by constructor|].
  destruct (split_cons s) as (w & ws & Hs). rewrite Hs in *.
  apply Forall_cons in IH as [Hw Hws]. constructor; [|done]. simpl. by rewrite Hc.
Qed.

Lemma length_sync r s a s' : sync r s = Some (a, s') → heap s' = heap s.
Proof.
  unfold sync, bind, getText. destruct (heap s !! r) as [[m|g|im]|]; try done.
  by intros [= <- <-].
Qed.

Section GenerateRuns.

Variable options : Options.

Lemma textMeshOf_fresh word s r s' :
  textMeshOf options word s = Some (r, s') →
  r = length (heap s) ∧ length (heap s') = S (length (heap s)).
Proof.
  unfold textMeshOf, bind, gets. destruct (textMeshCache s !! word) as [cached|].
  - intros Hrun. apply length_clone in Hrun. tauto.
  - intros [= <- <-]. simpl. rewrite length_app. simpl. split; [done|lia].
Qed.

Lemma words_map_fresh words :
  ∀ s meshes s',
    mapM (textMeshOf options) words s = Some (meshes, s') →
    meshes = seq (length (heap s)) (length words) ∧
    length (heap s') = (length (heap s) + length words)%nat.
Proof.
  induction words as [|w words IH]; intros s meshes s' Hrun.
  { injection Hrun as <- <-. simpl. split; [done|lia]. }
  simpl in Hrun. apply bind_inv in Hrun as (r & s1 & H1 & Hrun).
  apply bind_inv in Hrun as (rs & s2 & H2 & Hrun). injection Hrun as <- <-.
  apply textMeshOf_fresh in H1 as [-> Hlen1]. apply IH in H2 as [-> Hlen2].
  rewrite Hlen1 in *. simpl. split; [done|lia].
Qed.

Lemma syncPromises_spec_result meshes :
  ∀ s res s', mapM syncPromise meshes s = Some (res, s') → res = meshes.
Proof.
  induction meshes as [|r meshes IH]; intros s res s' Hrun.
  { by injection Hrun as <- <-. }
  simpl in Hrun. apply bind_inv in Hrun as (r' & s1 & H1 & Hrun).
  apply bind_inv in Hrun as (rs & s2 & H2 & Hrun). injection Hrun as <- <-.
  unfold syncPromise in H1. apply bind_inv in H1 as (? & s0 & H0 & H1).
  injection H1 as <- <-. f_equal. by eapply IH.
Qed.

Lemma syncPromises_heap meshes :
  ∀ s res s', mapM syncPromise meshes s = Some (res, s') → heap s' = heap s.
Proof.
  induction meshes as [|r meshes IH]; intros s res s' Hrun.
  { by injection Hrun as <- <-. }
  simpl in Hrun. apply bind_inv in Hrun as (r' & s1 & H1 & Hrun).
  apply bind_inv in Hrun as (rs & s2 & H2 & Hrun). injection Hrun as <- <-.
  unfold syncPromise in H1. apply bind_inv in H1 as (? & s0 & H0 & H1).
  injection H1 as <- <-. apply length_sync in H0. apply IH in H2. congruence.
Qed.

Lemma generateTextMeshes_fresh s meshes s' :
  generateTextMeshes options s = Some (meshes, s') →
  meshes = seq (length (heap s)) (length (split (text options))) ∧
  length (heap s') = (length (heap s) + length (split (text options)))%nat.
Proof.
  unfold generateTextMeshes. intros Hrun.
  apply bind_inv in Hrun as (ms & s1 & H1 & Hrun).
  pose proof (syncPromises_spec_result ms s1 meshes s' Hrun) as ->.
  apply syncPromises_heap in Hrun. apply words_map_fresh in H1 as [-> Hlen].
  by rewrite Hrun.
Qed.

End GenerateRuns.

Section GenerateProperties.

Variable options : Options.

Lemma built_texts s0 s' evs words meshes :
  Forall2 (builtFrom s0 s' evs) words meshes →
  ∃ ms, Forall2 (λ r m, heap s' !! r = Some (OText m)) meshes ms ∧ Text.text <$> ms = words.
Proof.
  induction 1 as [|w r words meshes (_ & (m & Hm & Ht) & _) _ (ms & Hms & Hw)].
  - by exists [].
  - exists (m :: ms). split; [by constructor|]. rewrite fmap_cons. by rewrite Ht, Hw.
Qed.

(** X9. When every cache entry is a text mesh, [generateTextMeshes]
    returns one new object for each word of the text, in the order of the
    words: as many as the text has spaces, and one more. Joined by single
    spaces, the texts of the meshes are the text of the options. One
    [sync] is requested for each mesh, in this order, and no mesh is
    registered. *)
Theorem generateTextMeshes_one_new_mesh_per_word s :
  cacheTyped s →
  ∃ meshes s' ms,
    generateTextMeshes options s = Some (meshes, s') ∧
    meshes = seq (length (heap s)) (S (countSpaces (text options))) ∧
    length (heap s') = (length (heap s) + S (countSpaces (text options)))%nat ∧
    Forall2 (λ r m, heap s' !! r = Some (OText m)) meshes ms ∧
    joinWords (Text.text <$> ms) = text options ∧
    syncs (calls s') = syncs (calls s) ++ meshes ∧
    interactableMeshes s' = interactableMeshes s.
Proof.
  intros Htyped.
  destruct (generateTextMeshes_spec options s Htyped)
    as (meshes & s' & Hrun & evs & E & _ & Hbuilt & _ & _ & _ & Hbuild & _).
  destruct (generateTextMeshes_fresh options _ _ _ Hrun) as [Hseq Hlen].
  destruct (built_texts _ _ _ _ _ Hbuilt) as (ms & Hms & Hw).
  rewrite length_split in Hseq, Hlen.
  exists meshes, s', ms. split; [exact Hrun|]. split; [exact Hseq|]. split; [exact Hlen|].
  split; [exact Hms|]. split; [by rewrite Hw, joinWords_split|]. split.
  - rewrite (effect_calls _ _ _ _ _ E), !syncs_app, syncs_map.
    destruct (isBuild_quiet _ Hbuild) as [-> _]. done.
  - rewrite (effect_registry _ _ _ _ _ E). apply app_nil_r.
Qed.

(** X10. When the cache has a text mesh for every word of the text,
    [generateTextMeshes] builds no mesh with [new Text()] and leaves the
    cache as it is: every mesh it returns is a clone of the cache entry of
    its word. *)
Theorem generateTextMeshes_clones_cached_words s :
  cacheTyped s →
  (∀ w, w ∈ split (text options) → is_Some (textMeshCache s !! w)) →
  ∃ meshes s' evs,
    generateTextMeshes options s = Some (meshes, s') ∧
    calls s' = calls s ++ evs ∧ newTexts evs = [] ∧
    textMeshCache s' = textMeshCache s ∧
    Forall2 (λ w r, ∃ src, textMeshCache s !! w = Some src ∧ CClone src r ∈ evs ∧ src ≠ r)
            (split (text options)) meshes.
Proof.
  intros Htyped Hwarm.
  destruct (generateTextMeshes_spec options s Htyped)
    as (meshes & s' & Hrun & evs & E & _ & Hbuilt & _ & _ & Hnew & _ & _).
  assert (Hnone : newTexts evs = []).
  { destruct (newTexts evs) as [|[w r] l] eqn:Hl; [done|].
    destruct (Hnew w r) as [Hc Hw]; [left|].
    destruct (Hwarm w Hw) as [src Hsrc]. congruence. }
  assert (Hquiet : newTexts (evs ++ map CSync meshes) = []).
  { by rewrite newTexts_app, newTexts_syncs, Hnone. }
  assert (Hcache : textMeshCache s' = textMeshCache s).
  { rewrite (effect_cache _ _ _ _ _ E), Hquiet. done. }
  exists meshes, s', (evs ++ map CSync meshes).
  split; [exact Hrun|]. split; [apply (effect_calls _ _ _ _ _ E)|].
  split; [exact Hquiet|]. split; [exact Hcache|].
  eapply Forall2_impl; [exact Hbuilt|].
  intros w r (_ & _ & [Hin|(src & Hin & Hsrc & Hne)]).
  - apply newTexts_elem in Hin. rewrite Hnone in Hin. by apply elem_of_nil in Hin.
  - exists src. rewrite <- Hcache. split; [done|]. split; [|done].
    apply elem_of_app. by left.
Qed.

End GenerateProperties.

Section InitProperties.

Variable options : Options.
Variable shape : string → option TextRenderInfo.
Variable randomValues : nat → Q.



End InitProperties.

(** ** Transforms through the assembly *)

#[global] Instance placeKept_evolution F : Evolution (placeKept F).
Proof.
  split.
  - intros r [m|g|im]; simpl; auto.
  - intros r [m1|g1|im1] [m2|g2|im2] [m3|g3|im3]; simpl; try done.
    + intros (-> & -> & H1) (-> & -> & H2). split; [done|]. split; [done|]. by etrans.
    + intros H1 H2 HF. by rewrite H2, H1.
Qed.

Lemma placeKept_mono F F' s s' :
  F ⊆ F' → evolves (placeKept F) s s' → evolves (placeKept F') s s'.
Proof.
  intros HF He r o Hr. destruct (He r o Hr) as (o' & Hr' & Hk). exists o'. split; [done|].
  destruct o as [m|g|im], o' as [m'|g'|im']; simpl in *; try done.
  intros Hout. apply Hk. set_solver.
Qed.

Lemma placeKept_group F s s' r g :
  evolves (placeKept F) s s' → heap s !! r = Some (OGroup g) →
  ∃ g', heap s' !! r = Some (OGroup g') ∧
        Group.position g' = Group.position g ∧ Group.rotation g' = Group.rotation g ∧
        Group.children g `prefix_of` Group.children g'.
Proof.
  intros He Hr. destruct (He r _ Hr) as ([m'|g'|im'] & Hr' & Hk); try done. by exists g'.
Qed.

Lemma placeKept_instanced F s s' r im :
  evolves (placeKept F) s s' → r ∉ F → heap s !! r = Some (OInstancedMesh im) →
  heap s' !! r = Some (OInstancedMesh im).
Proof.
  intros He HF Hr. destruct (He r _ Hr) as ([m'|g'|im'] & Hr' & Hk); try done.
  simpl in Hk. by rewrite Hr', (Hk HF).
Qed.

Lemma placeKept_text F s s' r :
  evolves (placeKept F) s s' → isText s r → isText s' r.
Proof.
  intros He [m Hr]. destruct (He r _ Hr) as ([m'|g'|im'] & Hr' & Hk); try done. by exists m'.
Qed.

Lemma placeKept_length F s s' :
  evolves (placeKept F) s s' → length (heap s) ≤ length (heap s').
Proof.
  intros He. destruct (decide (length (heap s) ≤ length (heap s'))) as [|Hlt]; [done|].
  destruct (lookup_lt_is_Some_2 (heap s) (length (heap s'))) as [o Ho]; [lia|].
  destruct (He _ _ Ho) as (o' & Ho' & _). apply lookup_lt_Some in Ho'. lia.
Qed.

(** What the steps of the assembly keep. *)
Section PlaceRuns.

Variable F : gset ref.

Lemma place_alloc o s r s' :
  alloc o s = Some (r, s') → evolves (placeKept F) s s'.
Proof. intros [= <- <-]. apply evolves_alloc. apply _. Qed.

Lemma place_call c s a s' : call c s = Some (a, s') → evolves (placeKept F) s s'.
Proof. intros [= <- <-]. by apply evolves_same_heap; [apply _|]. Qed.

Lemma place_store_text r m' s a s' :
  isText s r → store r (OText m') s = Some (a, s') → evolves (placeKept F) s s'.
Proof. intros [m Hm] [= <- <-]. by eapply evolves_store; [apply _|exact Hm|]. Qed.

Lemma place_position_set_text r v s a s' :
  isText s r → position_set r v s = Some (a, s') → evolves (placeKept F) s s'.
Proof.
  intros [m Hm]. unfold position_set. rewrite Hm. intros Hrun.
  apply bind_inv in Hrun as (? & s1 & H1 & H2).
  eapply evolves_trans; [apply _| |by eapply place_call].
  eapply place_store_text; [by exists m | exact H1].
Qed.

Lemma place_clone r s r' s' :
  clone r s = Some (r', s') → evolves (placeKept F) s s' ∧ isText s' r'.
Proof.
  unfold clone, bind, getText. destruct (heap s !! r) as [[m|g|im]|]; try done.
  intros [= <- <-]. split.
  - eapply evolves_trans; [apply _|apply evolves_alloc; apply _|].
    by apply evolves_same_heap; [apply _|].
  - eexists. simpl. apply lookup_snoc_new.
Qed.

Lemma place_sync r s a s' : sync r s = Some (a, s') → evolves (placeKept F) s s'.
Proof. intros Hrun. apply length_sync in Hrun. by apply evolves_same_heap; [apply _|]. Qed.

Lemma place_add parent child s a s' :
  add parent child s = Some (a, s') →
  evolves (placeKept F) s s' ∧
  ∃ g, heap s !! parent = Some (OGroup g) ∧
       heap s' !! parent = Some (OGroup (Group.add child g)).
Proof.
  unfold add, bind, getGroup. destruct (heap s !! parent) as [[m|g|im]|] eqn:Hp; try done.
  intros [= <- <-]. split.
  - eapply evolves_trans; [apply _| |by apply evolves_same_heap; [apply _|]].
    eapply evolves_store; [apply _|exact Hp|]. simpl.
    split; [done|]. split; [done|]. by apply prefix_app_r.
  - exists g. split; [done|]. simpl. apply list_lookup_insert_eq. by eapply lookup_lt_Some.
Qed.

Lemma place_modify f s a s' :
  (∀ s0, heap (f s0) = heap s0) → modify f s = Some (a, s') → evolves (placeKept F) s s'.
Proof. intros Hf [= <- <-]. by apply evolves_same_heap; [apply _|]. Qed.

Lemma place_mapM {A B} (f : A → M B) l :
  (∀ a s b s', f a s = Some (b, s') → evolves (placeKept F) s s') →
  ∀ s bs s', mapM f l s = Some (bs, s') → evolves (placeKept F) s s'.
Proof.
  intros Hf. induction l as [|a l IH]; intros s bs s' Hrun.
  { injection Hrun as <- <-. apply evolves_refl. apply _. }
  simpl in Hrun. apply bind_inv in Hrun as (b & s1 & H1 & Hrun).
  apply bind_inv in Hrun as (bs' & s2 & H2 & Hrun). injection Hrun as <- <-.
  eapply evolves_trans; [apply _|by eapply Hf|by eapply IH].
Qed.

End PlaceRuns.

Lemma getText_inv r s m s' : getText r s = Some (m, s') → s' = s ∧ heap s !! r = Some (OText m).
Proof.
  unfold getText. destruct (heap s !! r) as [[m0|g|im]|]; try done. by intros [= <- <-].
Qed.

Section PlaceMethods.

Variable options : Options.
Variable shape : string → option TextRenderInfo.
Variable randomValues : nat → Q.
Variable F : gset ref.

Lemma place_textMeshOf word s r s' :
  textMeshOf options word s = Some (r, s') → evolves (placeKept F) s s'.
Proof.
  unfold textMeshOf, bind, gets. destruct (textMeshCache s !! word) as [cached|].
  - intros Hrun. by apply (place_clone F) in Hrun as [? _].
  - intros [= <- <-]. eapply evolves_trans; [apply _|apply evolves_alloc; apply _|].
    by apply evolves_same_heap; [apply _|].
Qed.

Lemma place_generateTextMeshes s meshes s' :
  generateTextMeshes options s = Some (meshes, s') → evolves (placeKept F) s s'.
Proof.
  unfold generateTextMeshes. intros Hrun.
  apply bind_inv in Hrun as (ms & s1 & H1 & Hrun).
  eapply evolves_trans; [apply _| |].
  - eapply place_mapM; [|exact H1]. intros w s0 r s0'. apply place_textMeshOf.
  - apply syncPromises_heap in Hrun. by apply evolves_same_heap; [apply _|].
Qed.

Lemma place_synced r s a s' :
  synced shape r s = Some (a, s') → evolves (placeKept F) s s'.
Proof.
  unfold synced. intros Hrun. apply bind_inv in Hrun as (m & s1 & H1 & Hrun).
  apply getText_inv in H1 as [-> Hm]. eapply place_store_text; [by exists m | exact Hrun].
Qed.

Lemma place_placeWord mesh frontGroup backGroup x y s a s' :
  isText s mesh → placeWord mesh frontGroup backGroup x y s = Some (a, s') →
  evolves (placeKept F) s s'.
Proof.
  intros Hmesh Hrun. unfold placeWord in Hrun.
  apply bind_inv in Hrun as (? & s1 & H1 & Hrun).
  apply bind_inv in Hrun as (back & s2 & H2 & Hrun).
  apply bind_inv in Hrun as (? & s3 & H3 & Hrun).
  apply bind_inv in Hrun as (? & s4 & H4 & Hrun).
  apply bind_inv in Hrun as (? & s5 & H5 & Hrun).
  apply (place_position_set_text F) in H1; [|done].
  apply (place_clone F) in H2 as [H2 Hback].
  apply (place_position_set_text F) in H3; [|done].
  apply (place_add F) in H4 as [H4 _]. apply (place_add F) in H5 as [H5 _].
  apply (place_modify F) in Hrun; [|done].
  repeat (eapply evolves_trans; [apply _|eassumption|]). apply evolves_refl. apply _.
Qed.

Lemma place_layoutLoop frontGroup backGroup meshes :
  ∀ x y s a s',
    layoutLoop options meshes frontGroup backGroup x y s = Some (a, s') →
    evolves (placeKept F) s s'.
Proof.
  induction meshes as [|mesh rest IH]; intros x y s a s' Hrun.
  { injection Hrun as <- <-. apply evolves_refl. apply _. }
  assert (∃ m, heap s !! mesh = Some (OText m)) as [m Hm].
  { simpl in Hrun. apply bind_inv in Hrun as (m & s0 & H0 & _).
    apply getText_inv in H0 as [_ Hm]. by exists m. }
  set (x1 := if Qlt_le_dec (rectWidth options) (x + measuredWidth m) then 0%Q else x).
  set (y1 := if Qlt_le_dec (rectWidth options) (x + measuredWidth m)
             then (y - lineHeightOf options)%Q else y).
  assert (Hcase : (rectWidth options < x + measuredWidth m)%Q ∧
                  x1 = 0%Q ∧ y1 = (y - lineHeightOf options)%Q ∨
                  (x + measuredWidth m <= rectWidth options)%Q ∧ x1 = x ∧ y1 = y).
  { unfold x1, y1. destruct (Qlt_le_dec (rectWidth options) (x + measuredWidth m));
      [by left | by right]. }
  destruct (Qlt_le_dec (y1 - lineHeightOf options) (- rectWidth options)) as [Hbreak|Hroom].
  { rewrite (layoutLoop_break options frontGroup backGroup mesh rest m x y s Hm Hbreak) in Hrun.
    injection Hrun as <- <-. apply evolves_refl. apply _. }
  rewrite (layoutLoop_cons options frontGroup backGroup mesh rest m x y x1 y1 s Hm Hcase Hroom)
    in Hrun.
  apply bind_inv in Hrun as (? & s1 & H1 & Hrun).
  eapply evolves_trans; [apply _| |by eapply IH].
  eapply place_placeWord; [by exists m | exact H1].
Qed.

Lemma place_resume p s g s' :
  createTextMeshes_resume options shape p s = Some (g, s') →
  g = pGroup p ∧ evolves (placeKept F) s s' ∧
  ∃ grp before, heap s' !! pGroup p = Some (OGroup grp) ∧
                Group.children grp = before ++ [pFrontGroup p; pBackGroup p].
Proof.
  unfold createTextMeshes_resume, layoutTextMeshes. intros Hrun.
  apply bind_inv in Hrun as (? & s1 & H1 & Hrun).
  apply bind_inv in Hrun as (? & s2 & H2 & Hrun).
  apply bind_inv in Hrun as (? & s3 & H3 & Hrun).
  apply bind_inv in Hrun as (? & s4 & H4 & Hrun). injection Hrun as <- <-.
  eapply (place_mapM F) in H1; [|intros r s0 a s0'; apply place_synced].
  apply place_layoutLoop in H2.
  apply (place_add F) in H3 as [H3 (g3 & Hg3 & Hg3')].
  apply (place_add F) in H4 as [H4 (g4 & Hg4 & Hg4')].
  split; [done|]. split.
  { repeat (eapply evolves_trans; [apply _|eassumption|]). apply evolves_refl. apply _. }
  assert (g4 = Group.add (pFrontGroup p) g3) as -> by congruence.
  eexists _, (Group.children g3). split; [exact Hg4'|]. simpl. by rewrite <- app_assoc.
Qed.

Lemma place_resumeCells textGroup ps :
  ∀ s groups s',
    mapM (resumeCell options shape textGroup) ps s = Some (groups, s') →
    groups = pGroup <$> ps ∧ evolves (placeKept F) s s' ∧
    ∀ p, p ∈ ps →
         ∃ grp before behind,
           heap s' !! pGroup p = Some (OGroup grp) ∧
           Group.children grp = before ++ [pFrontGroup p; pBackGroup p] ++ behind.
Proof.
  induction ps as [|p ps IH]; intros s groups s' Hrun.
  { injection Hrun as <- <-. split; [done|]. split; [apply evolves_refl; apply _|].
    intros p Hp. by apply elem_of_nil in Hp. }
  simpl in Hrun. apply bind_inv in Hrun as (g & s1 & H1 & Hrun).
  apply bind_inv in Hrun as (gs & s2 & H2 & Hrun). injection Hrun as <- <-.
  unfold resumeCell in H1. apply bind_inv in H1 as (g' & s0 & H0 & H1).
  apply bind_inv in H1 as (? & s0' & H0' & H1). injection H1 as <- <-.
  apply place_resume in H0 as (-> & H0 & grp & before & Hgrp & Hch).
  apply (place_add F) in H0' as [H0' _].
  destruct (IH _ _ _ H2) as (-> & Hrest & Hps).
  assert (Hlate : evolves (placeKept F) s0 s2).
  { eapply evolves_trans; [apply _|exact H0'|exact Hrest]. }
  split; [done|]. split; [eapply evolves_trans; [apply _|exact H0|exact Hlate]|].
  intros q [->|Hq]%elem_of_cons; [|by apply Hps].
  destruct (placeKept_group _ _ _ _ _ Hlate Hgrp) as (grp' & Hgrp' & _ & _ & [behind Hpre]).
  exists grp', before, behind. split; [done|]. by rewrite Hpre, Hch, <- app_assoc.
Qed.

End PlaceMethods.

Lemma lookup_three (h : list Object3D) a b c :
  (((h ++ [a]) ++ [b]) ++ [c]) !! length h = Some a ∧
  (((h ++ [a]) ++ [b]) ++ [c]) !! S (length h) = Some b ∧
  (((h ++ [a]) ++ [b]) ++ [c]) !! S (S (length h)) = Some c.
Proof.
  rewrite <- !app_assoc. simpl. split; [by apply list_lookup_middle|].
  split; rewrite lookup_app_r by lia.
  - by replace (S (length h) - length h)%nat with 1%nat by lia.
  - by replace (S (S (length h)) - length h)%nat with 2%nat by lia.
Qed.

Lemma getGroup_inv r s g s' :
  getGroup r s = Some (g, s') → s' = s ∧ heap s !! r = Some (OGroup g).
Proof.
  unfold getGroup. destruct (heap s !! r) as [[m|g0|im]|]; try done. by intros [= <- <-].
Qed.

(** The writes to the transform of a group. *)
Lemma position_set_group r v g s a s' :
  heap s !! r = Some (OGroup g) → position_set r v s = Some (a, s') →
  heap s' = <[r := OGroup (Group.set_position v g)]> (heap s).
Proof. unfold position_set. intros ->. by intros [= <- <-]. Qed.

Lemma rotation_copy_group r e g s a s' :
  heap s !! r = Some (OGroup g) → rotation_copy r e s = Some (a, s') →
  heap s' = <[r := OGroup (Group.set_rotation e g)]> (heap s).
Proof. unfold rotation_copy, bind, getGroup. intros ->. by intros [= <- <-]. Qed.

Lemma rotateY_group r angle g s a s' :
  heap s !! r = Some (OGroup g) → rotateY r angle s = Some (a, s') →
  heap s' = <[r := OGroup (Group.set_rotation
                             (mkEuler (ex (Group.rotation g))
                                      (ey (Group.rotation g) + angle)
                                      (ez (Group.rotation g))) g)]> (heap s).
Proof. unfold rotateY, bind, getGroup. intros ->. by intros [= <- <-]. Qed.

Section PlaceCells.

Variable options : Options.
Variable shape : string → option TextRenderInfo.
Variable randomValues : nat → Q.

Lemma begin_run F position rotation s p s' :
  createTextMeshes_begin options position rotation s = Some (p, s') →
  pGroup p = length (heap s) ∧ pFrontGroup p = S (length (heap s)) ∧
  pBackGroup p = S (S (length (heap s))) ∧
  evolves (placeKept F) s s' ∧
  ∃ grp front back,
    heap s' !! length (heap s) = Some (OGroup grp) ∧
    Group.position grp = position ∧ Group.rotation grp = rotation ∧
    heap s' !! S (length (heap s)) = Some (OGroup front) ∧
    Group.position front = frontPosition options ∧ Group.rotation front = mkEuler 0 0 0 ∧
    heap s' !! S (S (length (heap s))) = Some (OGroup back) ∧
    Group.position back = backPosition options ∧ Group.rotation back = backRotation.
Proof.
  unfold createTextMeshes_begin. intros Hrun. set (n := length (heap s)).
  apply bind_inv in Hrun as (g1 & s1 & H1 & Hrun). injection H1 as <- <-.
  apply bind_inv in Hrun as (g2 & s2 & H2 & Hrun). injection H2 as <- <-.
  apply bind_inv in Hrun as (g3 & s3 & H3 & Hrun). injection H3 as <- <-.
  simpl in Hrun. rewrite !length_app in Hrun. simpl in Hrun.
  replace (length (heap s) + 1)%nat with (S n) in Hrun by (unfold n; lia).
  replace (S n + 1)%nat with (S (S n)) in Hrun by lia. fold n in Hrun.
  set (s3 := set_heap _ _) in Hrun.
  destruct (lookup_three (heap s) (OGroup Group.empty) (OGroup Group.empty)
              (OGroup Group.empty)) as (L1 & L2 & L3). fold n in L1, L2, L3.
  change (heap s3 !! n = Some (OGroup Group.empty)) in L1.
  change (heap s3 !! S n = Some (OGroup Group.empty)) in L2.
  change (heap s3 !! S (S n) = Some (OGroup Group.empty)) in L3.
  assert (K3 : ∀ r o, heap s !! r = Some o → heap s3 !! r = Some o).
  { intros r o Hr. simpl. by do 3 apply lookup_app_l_Some. }
  apply bind_inv in Hrun as (? & s4 & H4 & Hrun).
  apply (position_set_group _ _ _ _ _ _ L1) in H4.
  assert (L1' : heap s4 !! n = Some (OGroup (Group.set_position position Group.empty))).
  { rewrite H4. apply list_lookup_insert_eq. by eapply lookup_lt_Some. }
  apply bind_inv in Hrun as (? & s5 & H5 & Hrun).
  apply (rotation_copy_group _ _ _ _ _ _ L1') in H5.
  apply bind_inv in Hrun as (? & s6 & H6 & Hrun).
  assert (L2' : heap s5 !! S n = Some (OGroup Group.empty)).
  { rewrite H5, H4, !list_lookup_insert_ne by lia. exact L2. }
  apply (position_set_group _ _ _ _ _ _ L2') in H6.
  apply bind_inv in Hrun as (? & s7 & H7 & Hrun).
  assert (L3' : heap s6 !! S (S n) = Some (OGroup Group.empty)).
  { rewrite H6, H5, H4, !list_lookup_insert_ne by lia. exact L3. }
  apply (position_set_group _ _ _ _ _ _ L3') in H7.
  apply bind_inv in Hrun as (? & s8 & H8 & Hrun).
  assert (L3'' : heap s7 !! S (S n) =
                 Some (OGroup (Group.set_position (backPosition options) Group.empty))).
  { rewrite H7. apply list_lookup_insert_eq.
    rewrite H6, H5, H4, !length_insert. by eapply lookup_lt_Some. }
  apply (rotateY_group _ _ _ _ _ _ L3'') in H8.
  apply bind_inv in Hrun as (meshes & s9 & H9 & Hrun). injection Hrun as <- <-.
  assert (K8 : ∀ r o, heap s !! r = Some o → heap s8 !! r = Some o).
  { intros r o Hr. pose proof (lookup_lt_Some _ _ _ Hr). fold n in H.
    rewrite H8, H7, H6, H5, H4, !list_lookup_insert_ne by lia. by apply K3. }
  assert (E8 : evolves (placeKept F) s s8).
  { intros r o Hr. exists o. split; [by apply K8|apply evolution_refl]. }
  pose proof (place_generateTextMeshes options F _ _ _ H9) as E9.
  split; [done|]. split; [done|]. split; [done|].
  split; [eapply evolves_trans; [apply _|exact E8|exact E9]|].
  assert (G1 : heap s8 !! n = Some (OGroup (Group.set_rotation rotation
                                     (Group.set_position position Group.empty)))).
  { rewrite H8, H7, H6, !list_lookup_insert_ne by lia. rewrite H5.
    apply list_lookup_insert_eq. rewrite H4, length_insert. by eapply lookup_lt_Some. }
  assert (G2 : heap s8 !! S n = Some (OGroup (Group.set_position (frontPosition options)
                                                Group.empty))).
  { rewrite H8, H7, !list_lookup_insert_ne by lia. rewrite H6.
    apply list_lookup_insert_eq. rewrite H5, H4, !length_insert. by eapply lookup_lt_Some. }
  assert (G3 : ∃ back, heap s8 !! S (S n) = Some (OGroup back) ∧
                       Group.position back = backPosition options ∧
                       Group.rotation back = backRotation).
  { eexists. split.
    - rewrite H8. apply list_lookup_insert_eq.
      rewrite H7, H6, H5, H4, !length_insert. by eapply lookup_lt_Some.
    - split; reflexivity. }
  destruct G3 as (back & G3 & Hbp & Hbr).
  destruct (placeKept_group _ _ _ _ _ E9 G1) as (grp' & Hg1 & Hp1 & Hr1 & _).
  destruct (placeKept_group _ _ _ _ _ E9 G2) as (front' & Hg2 & Hp2 & Hr2 & _).
  destruct (placeKept_group _ _ _ _ _ E9 G3) as (back' & Hg3 & Hp3 & Hr3 & _).
  exists grp', front', back'. rewrite Hp1, Hr1, Hp2, Hr2, Hp3, Hr3. done.
Qed.

End PlaceCells.

Lemma setMatrixAt_run mesh index mx im s a s' :
  heap s !! mesh = Some (OInstancedMesh im) →
  setMatrixAt mesh index mx s = Some (a, s') →
  heap s' = <[mesh := OInstancedMesh (InstancedMesh.setMatrixAt index mx im)]> (heap s) ∧
  randomCalls s' = randomCalls s.
Proof. unfold setMatrixAt, bind, getInstancedMesh. intros ->. by intros [= <- <-]. Qed.

Section PlaceLoops.

Variable options : Options.
Variable shape : string → option TextRenderInfo.
Variable randomValues : nat → Q.

Lemma onPlane_kept F s s' n c g :
  evolves (placeKept F) s s' →
  onPlane options randomValues s n c g → onPlane options randomValues s' n c g.
Proof.
  intros E (grp & front & back & H1 & Hp1 & Hr1 & H2 & Hp2 & Hr2 & H3 & Hp3 & Hr3).
  destruct (placeKept_group _ _ _ _ _ E H1) as (grp' & H1' & Hp1' & Hr1' & _).
  destruct (placeKept_group _ _ _ _ _ E H2) as (front' & H2' & Hp2' & Hr2' & _).
  destruct (placeKept_group _ _ _ _ _ E H3) as (back' & H3' & Hp3' & Hr3' & _).
  exists grp', front', back'. rewrite Hp1', Hr1', Hp2', Hr2', Hp3', Hr3'. done.
Qed.

Lemma cubeCell_run planeMesh x y z idx ps im s acc' s' :
  heap s !! planeMesh = Some (OInstancedMesh im) →
  cubeCell options randomValues planeMesh x y z (idx, ps) s = Some (acc', s') →
  ∃ p, acc' = (S idx, ps ++ [p]) ∧
       pFrontGroup p = S (pGroup p) ∧ pBackGroup p = S (S (pGroup p)) ∧
       heap s' !! planeMesh =
         Some (OInstancedMesh
                 (InstancedMesh.setMatrixAt idx
                    (cellMatrix options randomValues (randomCalls s) x y z) im)) ∧
       evolves (placeKept {[planeMesh]}) s s' ∧
       onPlane options randomValues s' (randomCalls s) (x, y, z) (pGroup p).
Proof.
  intros Hpm Hrun. unfold cubeCell in Hrun.
  apply bind_inv in Hrun as (r1 & s1 & H1 & Hrun). injection H1 as <- <-.
  apply bind_inv in Hrun as (r2 & s2 & H2 & Hrun). injection H2 as <- <-.
  apply bind_inv in Hrun as (? & s3 & H3 & Hrun).
  apply bind_inv in Hrun as (p & s4 & H4 & Hrun). injection Hrun as <- <-.
  apply (setMatrixAt_run _ _ _ im) in H3 as [H3 _]; [|exact Hpm].
  simpl in H3.
  destruct (begin_run options ∅ _ _ _ _ _ H4)
    as (Hg & Hf & Hb & E4 & grp & front & back & G1 & Hp1 & Hr1 & G2 & Hp2 & Hr2 & G3 & Hp3 & Hr3).
  assert (Hlen : length (heap s3) = length (heap s)) by (by rewrite H3, length_insert).
  rewrite Hlen in *.
  assert (Hpm3 : heap s3 !! planeMesh =
                 Some (OInstancedMesh
                         (InstancedMesh.setMatrixAt idx
                            (cellMatrix options randomValues (randomCalls s) x y z) im))).
  { rewrite H3. apply list_lookup_insert_eq. by eapply lookup_lt_Some. }
  assert (E3 : evolves (placeKept {[planeMesh]}) s s3).
  { intros r o Hr. destruct (decide (r = planeMesh)) as [->|Hne].
    - eexists. split; [exact Hpm3|]. rewrite Hpm in Hr. injection Hr as <-. simpl. set_solver.
    - exists o. split; [|apply evolution_refl]. by rewrite H3, list_lookup_insert_ne. }
  exists p. split; [done|]. split; [by rewrite Hf, Hg|]. split; [by rewrite Hb, Hg|].
  split; [eapply placeKept_instanced; [exact E4|set_solver|exact Hpm3]|].
  split.
  { eapply evolves_trans; [apply _|exact E3|]. eapply placeKept_mono; [|exact E4]. set_solver. }
  rewrite Hg. by exists grp, front, back.
Qed.

Lemma planesInv_start planeMesh s0 :
  isInstancedMesh s0 planeMesh →
  planesInv options randomValues planeMesh s0 [] (0%nat, []) s0.
Proof.
  intros [im Him]. split; [apply evolves_refl; apply _|].
  split; [by exists im, im|]. split; [intros p Hp; by apply elem_of_nil in Hp|].
  intros k c p Hc. done.
Qed.

Lemma planesInv_step planeMesh s0 done x y z acc s acc' s' :
  cubeInv options randomValues planeMesh s0 done acc s →
  planesInv options randomValues planeMesh s0 done acc s →
  cubeCell options randomValues planeMesh x y z acc s = Some (acc', s') →
  planesInv options randomValues planeMesh s0 (done ++ [(x, y, z)]) acc' s'.
Proof.
  intros (Hidx & Hlen & evs & E & _) (E0 & (im0 & im & Him0 & Him & Hcount & Hbuf & Hof) &
                                      Hnext & Hplanes) Hrun.
  destruct acc as [idx ps]. cbn [fst snd] in *.
  assert (Hrandom : randomCalls s = (randomCalls s0 + 2 * length done)%nat).
  { rewrite (effect_random _ _ _ _ _ E). unfold drew. simpl. lia. }
  destruct (cubeCell_run _ _ _ _ _ _ _ _ _ _ Him Hrun)
    as (p & -> & Hf & Hb & Him' & E' & Hon).
  rewrite Hrandom in Him', Hon. cbn [fst snd].
  split; [eapply evolves_trans; [apply _|exact E0|exact E']|]. split.
  { eexists im0, _. split; [done|]. split; [exact Him'|]. split; [done|].
    split; [simpl; by rewrite length_insert|].
    intros Hof0 k Hk. simpl in *. rewrite length_insert in Hk.
    specialize (Hof Hof0 k Hk). destruct (decide (k = idx)) as [->|Hne].
    - rewrite list_lookup_insert_eq by done. subst idx.
      by rewrite list_lookup_middle.
    - rewrite list_lookup_insert_ne by done. rewrite Hof. f_equal.
      destruct (decide (k < length done)) as [Hlt|Hge].
      + by rewrite lookup_app_l.
      + rewrite !lookup_ge_None_2; [done| |lia]. rewrite length_app. simpl. lia. }
  split.
  { intros q [Hq|Hq]%elem_of_app; [by apply Hnext|].
    apply list_elem_of_singleton in Hq as ->. done. }
  intros k c q Hc Hq. cbn [fst snd] in Hq.
  destruct (decide (k < length done)) as [Hlt|Hge].
  - rewrite lookup_app_l in Hc by done. rewrite lookup_app_l in Hq by lia.
    eapply onPlane_kept; [exact E'|]. by eapply Hplanes.
  - assert (k = length done) as ->.
    { apply lookup_lt_Some in Hc. rewrite length_app in Hc. simpl in Hc. lia. }
    rewrite list_lookup_middle in Hc by done. injection Hc as <-.
    rewrite <- Hlen in Hq. rewrite list_lookup_middle in Hq by done. injection Hq as <-.
    exact Hon.
Qed.

Lemma cubeLoops_planes planeMesh s0 acc s :
  isInstancedMesh s0 planeMesh → cacheTyped s0 →
  cubeLoops options randomValues planeMesh s0 = Some (acc, s) →
  cubeInv options randomValues planeMesh s0 (cells (gridSize options)) acc s ∧
  planesInv options randomValues planeMesh s0 (cells (gridSize options)) acc s.
Proof.
  intros Hpm Htyped Hrun. rewrite cubeLoops_flat in Hrun.
  set (I := λ done acc s, cubeInv options randomValues planeMesh s0 done acc s ∧
                          planesInv options randomValues planeMesh s0 done acc s).
  assert (Hstep : ∀ done c acc s,
             I done acc s →
             wp (cubeCell options randomValues planeMesh c.1.1 c.1.2 c.2 acc)
                (λ acc' s', I (done ++ [c]) acc' s') s).
  { intros done [[x y] z] acc1 s1 [HI HP].
    destruct (cubeInv_step options randomValues planeMesh s0 done x y z acc1 s1 Hpm HI)
      as (acc' & s' & Hcell & HI').
    exists acc', s'. split; [exact Hcell|]. split; [exact HI'|].
    by eapply planesInv_step. }
  eapply (wp_run _ _ _ _ _ (wp_foldM_inv _ I (cells (gridSize options)) Hstep []
                              (0%nat, []) s0 _) Hrun).
  Unshelve. split; [by apply cubeInv_start | by apply planesInv_start].
Qed.

End PlaceLoops.

Section PlaceInit.

Variable options : Options.
Variable shape : string → option TextRenderInfo.
Variable randomValues : nat → Q.

Lemma bufferOf_new n count : bufferOf options randomValues n [] (replicate count None).
Proof.
  intros k Hk. rewrite length_replicate in Hk. by rewrite lookup_replicate_2.
Qed.

Lemma init_planes groups s :
  init options shape randomValues newApp = Some (groups, s) →
  (∃ root, heap s !! 0%nat = Some (OGroup root) ∧
           Group.position root =
             mkVector3 (- calculateSceneSize options * (1 # 2))
                       (- calculateSceneSize options * (1 # 2))
                       (- calculateSceneSize options * (1 # 2)) ∧
           Group.rotation root = mkEuler 0 0 0 ∧
           [1%nat] `prefix_of` Group.children root) ∧
  (∃ im, heap s !! 1%nat = Some (OInstancedMesh im) ∧
         InstancedMesh.count im = (gridSize options ^ 3)%Z ∧
         length (InstancedMesh.instanceMatrix im) = Z.to_nat (gridSize options ^ 3) ∧
         bufferOf options randomValues 0 (cells (gridSize options))
                  (InstancedMesh.instanceMatrix im)) ∧
  ∃ ps, groups = pGroup <$> ps ∧ length ps = length (cells (gridSize options)) ∧
        (∀ p, p ∈ ps → pFrontGroup p = S (pGroup p) ∧ pBackGroup p = S (S (pGroup p))) ∧
        (∀ k c p, cells (gridSize options) !! k = Some c → ps !! k = Some p →
                  onPlane options randomValues s (2 * k) c (pGroup p)) ∧
        ∀ p, p ∈ ps →
             ∃ grp before behind,
               heap s !! pGroup p = Some (OGroup grp) ∧
               Group.children grp = before ++ [pFrontGroup p; pBackGroup p] ++ behind.
Proof.
  intros Hrun. pose proof (init_returns _ _ _ _ _ Hrun) as HG.
  unfold init in Hrun. rewrite (bind_run _ _ _ _ _ (setupScene_newApp options)) in Hrun.
  unfold createCubeOfPlanes, newInstancedMesh in Hrun.
  rewrite decide_True in Hrun by (by apply Z.pow_nonneg).
  apply bind_inv in Hrun as (pm & s1 & H1 & Hrun). injection H1 as <- <-.
  apply bind_inv in Hrun as (tg & s2 & H2 & Hrun). injection H2 as <- <-.
  apply bind_inv in Hrun as ([idx ps] & s3 & H3 & Hrun).
  apply bind_inv in Hrun as (? & s4 & H4 & Hrun). injection H4 as <- <-.
  apply bind_inv in Hrun as (sc & s5 & H5 & Hrun). injection H5 as <- <-.
  simpl in H3. set (s2 := set_heap _ _) in H3.
  set (im0 := InstancedMesh.new (gridSize options ^ 3)) in *.
  assert (Hpm2 : heap s2 !! 1%nat = Some (OInstancedMesh im0)) by reflexivity.
  assert (Htyped2 : cacheTyped s2).
  { intros w r Hw. simpl in Hw. by rewrite lookup_empty in Hw. }
  destruct (cubeLoops_planes options randomValues 1%nat s2 (idx, ps) s3) as [HI HP];
    [by exists im0 | exact Htyped2 | exact H3 |].
  destruct HI as (_ & Hlen & evs & E & _).
  destruct HP as (E3 & (im0' & im & Him0 & Him & Hcount & Hbuf & Hof) & Hnext & Hplanes).
  cbn [fst snd] in *.
  assert (Some (OInstancedMesh im0') = Some (OInstancedMesh im0)) as [= ->]
    by (etrans; [symmetry; exact Him0 | exact Hpm2]).
  rewrite (effect_scene _ _ _ _ _ E) in Hrun. simpl scene in Hrun.
  set (s4 := set_interactableMeshes _ s3) in Hrun.
  apply bind_inv in Hrun as (? & s5 & H5 & Hrun).
  apply bind_inv in Hrun as (? & s6 & H6 & Hrun).
  assert (E4 : evolves (placeKept ∅) s3 s4) by (by apply evolves_same_heap; [apply _|]).
  apply (place_add ∅) in H5 as [E5 (g4 & Hg4 & Hg5)].
  apply (place_add ∅) in H6 as [E6 _].
  destruct (place_resumeCells options shape ∅ _ _ _ _ _ Hrun) as (Hgroups & E7 & Hchildren).
  assert (Elate : evolves (placeKept ∅) s3 s).
  { eapply evolves_trans; [apply _|exact E4|].
    eapply evolves_trans; [apply _|exact E5|].
    eapply evolves_trans; [apply _|exact E6|exact E7]. }
  assert (Eall : evolves (placeKept {[1%nat]}) s2 s).
  { eapply evolves_trans; [apply _|exact E3|]. eapply placeKept_mono; [|exact Elate].
    set_solver. }
  split.
  { destruct (placeKept_group _ _ _ 0%nat _ Eall eq_refl) as (root & Hroot & Hp & Hr & _).
    exists root. split; [done|]. split; [done|]. split; [done|].
    assert (Hout : 0%nat ∉ ({[1%nat]} : gset ref)) by set_solver.
    destruct (effect_children _ _ _ _ _ 0%nat _ E Hout eq_refl) as (g3 & Hg3 & Hc3).
    assert (Some (OGroup g4) = Some (OGroup g3)) as [= ->]
      by (etrans; [symmetry; exact Hg4 | exact Hg3]).
    assert (Elast : evolves (placeKept ∅) s5 s).
    { eapply evolves_trans; [apply _|exact E6|exact E7]. }
    destruct (placeKept_group _ _ _ _ _ Elast Hg5) as (root' & Hroot' & _ & _ & Hpre).
    assert (Some (OGroup root') = Some (OGroup root)) as [= ->]
      by (etrans; [symmetry; exact Hroot' | exact Hroot]).
    simpl in Hpre. by rewrite Hc3 in Hpre. }
  split.
  { exists im. split; [eapply placeKept_instanced; [exact Elate|set_solver|exact Him]|].
    split; [by rewrite Hcount|]. rewrite Hbuf. unfold im0. simpl.
    split; [apply length_replicate|]. apply Hof, bufferOf_new. }
  exists ps. split; [done|]. split; [done|]. split; [done|]. split; [|done].
  intros k c p Hc Hp. eapply onPlane_kept; [exact Elate|].
  replace (2 * k)%nat with (randomCalls s2 + 2 * k)%nat by (simpl; lia).
  by eapply Hplanes.
Qed.

End PlaceInit.

Section PlaneProperties.

Variable options : Options.
Variable shape : string → option TextRenderInfo.
Variable randomValues : nat → Q.

Local Open Scope Q_scope.

Lemma init_scene groups s :
  init options shape randomValues newApp = Some (groups, s) → scene s = object 0%nat.
Proof.
  intros Hrun. destruct (init_facts _ _ _ _ _ Hrun) as [Hbuilt _].
  destruct Hbuilt as (? & ? & ? & ? & ? & ? & ? & _ & E & _).
  by rewrite (effect_scene _ _ _ _ _ E).
Qed.

(** X13. When [init] has returned, the plane mesh, the first object of the
    registry, has [gridSize^3] instances and as many matrix slots, and
    every slot is written: slot [k] holds the matrix of the [k]-th cell
    the loops visit. *)
Theorem init_writes_every_instance_matrix groups s :
  init options shape randomValues newApp = Some (groups, s) →
  ∃ planeMesh reg im,
    interactableMeshes s = planeMesh :: reg ∧
    heap s !! planeMesh = Some (OInstancedMesh im) ∧
    InstancedMesh.count im = (gridSize options ^ 3)%Z ∧
    Z.of_nat (length (InstancedMesh.instanceMatrix im)) = (gridSize options ^ 3)%Z ∧
    ∀ k, (k < length (InstancedMesh.instanceMatrix im))%nat →
         ∃ c, cells (gridSize options) !! k = Some c ∧
              InstancedMesh.instanceMatrix im !! k =
              Some (Some (cellMatrix options randomValues (2 * k) c.1.1 c.1.2 c.2)).
Proof.
  intros Hrun. pose proof (init_returns _ _ _ _ _ Hrun) as HG.
  destruct (init_planes _ _ _ _ _ Hrun)
    as ((root & Hroot & _ & _ & Hpre) & (im & Him & Hcount & Hlen & Hbuf) & _).
  destruct (init_facts _ _ _ _ _ Hrun) as [Hbuilt _].
  destruct (init_calls _ _ _ _ Hbuilt)
    as (sc & planeMesh & textGroup & pendings & reg & Hsc & _ & Hreg & _ & _ &
        (gs & Hgs & Hcs) & _).
  rewrite (init_scene _ _ Hrun) in Hsc. injection Hsc as <-.
  assert (Some (OGroup gs) = Some (OGroup root)) as [= ->]
    by (etrans; [symmetry; exact Hgs | exact Hroot]).
  rewrite Hcs in Hpre. destruct Hpre as [rest Hpre]. injection Hpre as -> _.
  exists 1%nat, reg, im. split; [done|]. split; [done|]. split; [done|].
  assert (Hcells : length (InstancedMesh.instanceMatrix im) = length (cells (gridSize options))).
  { apply Nat2Z.inj. rewrite Hlen, length_cells by done.
    apply Z2Nat.id. by apply Z.pow_nonneg. }
  split; [rewrite Hlen; apply Z2Nat.id; by apply Z.pow_nonneg|].
  intros k Hk. specialize (Hbuf k Hk).
  destruct (lookup_lt_is_Some_2 (cells (gridSize options)) k) as [c Hc]; [lia|].
  exists c. split; [done|]. by rewrite Hbuf, Hc.
Qed.

Lemma cellCalls_coords planeMesh pm i m :
  0 < cellSizeOf options → (∀ n, 0 <= randomValues n ∧ randomValues n < 1) →
  (pm, i, m) ∈ cellCalls options randomValues planeMesh 0 0 (cells (gridSize options)) →
  coordsIn 0 (calculateSceneSize options) (mPosition m).
Proof.
  intros Hc Hrandom Hin. apply list_elem_of_lookup in Hin as [k Hk].
  rewrite cellCalls_lookup in Hk.
  destruct (cells (gridSize options) !! k) as [[[x y] z]|] eqn:Hcell; [|done].
  injection Hk as _ _ <-. apply list_elem_of_lookup_2, elem_of_cells in Hcell.
  destruct (Hrandom (0 + 2 * k)%nat) as [H0 H1].
  assert (Hcoord : ∀ a : Z, (0 ≤ a < gridSize options)%Z →
            0 <= inject_Z a * cellSizeOf options +
                 positionOffsetAt options randomValues (0 + 2 * k) ∧
            inject_Z a * cellSizeOf options +
              positionOffsetAt options randomValues (0 + 2 * k) <
            calculateSceneSize options).
  { intros a [Ha0 Ha1]. unfold positionOffsetAt, calculateSceneSize.
    fold (cellSizeOf options).
    assert (Hq0 : 0 <= inject_Z a) by (change 0 with (inject_Z 0); rewrite <- Zle_Qle; lia).
    assert (Hq1 : inject_Z a + 1 <= inject_Z (gridSize options)).
    { change 1 with (inject_Z 1). rewrite <- inject_Z_plus, <- Zle_Qle. lia. }
    split; nra. }
  simpl. unfold coordsIn. simpl.
  destruct (Hcoord x) as [? ?]; [lia|]. destruct (Hcoord y) as [? ?]; [lia|].
  destruct (Hcoord z) as [? ?]; [lia|]. done.
Qed.

(** X14. For a grid size [G >= 0], a cell size [c > 0] and values of
    [Math.random()] in [[0, 1)], the scene is moved by [-S/2] along each
    axis, where [S = c * G] is the scene size, and every plane is at a
    position with the three coordinates in [[0, S)]: seen from the origin
    the planes lie in the cube from [-S/2] to [S/2]. *)
Theorem scene_is_centred :
  (0 ≤ gridSize options)%Z → 0 < cellSizeOf options →
  (∀ n, 0 <= randomValues n ∧ randomValues n < 1) →
  ∃ groups s sc root,
    init options shape randomValues newApp = Some (groups, s) ∧
    scene s = object sc ∧ heap s !! sc = Some (OGroup root) ∧
    Group.position root =
      mkVector3 (- calculateSceneSize options * (1 # 2))
                (- calculateSceneSize options * (1 # 2))
                (- calculateSceneSize options * (1 # 2)) ∧
    ∀ planeMesh i m,
      (planeMesh, i, m) ∈ setMatrixAtCalls (calls s) →
      coordsIn 0 (calculateSceneSize options) (mPosition m).
Proof.
  intros HG Hc Hrandom.
  destruct (init_spec options shape randomValues HG) as (groups & s & Hrun & Hbuilt & _).
  destruct (init_planes _ _ _ _ _ Hrun) as ((root & Hroot & Hp & _) & _).
  destruct (init_calls _ _ _ _ Hbuilt)
    as (sc & planeMesh & textGroup & pendings & reg & _ & _ & _ & _ & _ & _ & _ &
        _ & _ & _ & Hmat & _).
  exists groups, s, 0%nat, root. split; [exact Hrun|].
  split; [by eapply init_scene|]. split; [exact Hroot|]. split; [exact Hp|].
  intros pm i m Hin. rewrite Hmat in Hin. by eapply cellCalls_coords.
Qed.

(** X15. When [init] has returned, the [k]-th group it returns has the
    position and the rotation the [k]-th plane matrix is built from. Its
    children are the two objects made right after it: the front group at
    [(-rectWidth/2, rectWidth/2, 0.001)], not rotated, and the back group
    at [(rectWidth/2, rectWidth/2, -0.001)], turned by [Math.PI] about
    the Y axis. *)
Theorem text_groups_sit_on_their_planes groups s :
  init options shape randomValues newApp = Some (groups, s) →
  ∀ k g, groups !! k = Some g →
    ∃ planeMesh grp front back,
      setMatrixAtCalls (calls s) !! k =
        Some (planeMesh, k, mkMatrix4 (Group.rotation grp) (Group.position grp)) ∧
      heap s !! g = Some (OGroup grp) ∧ Group.children grp = [S g; S (S g)] ∧
      heap s !! S g = Some (OGroup front) ∧
      Group.position front = frontPosition options ∧
      Group.rotation front = mkEuler 0 0 0 ∧
      heap s !! S (S g) = Some (OGroup back) ∧
      Group.position back = backPosition options ∧
      Group.rotation back = backRotation.
Proof.
  intros Hrun k g Hg.
  destruct (init_planes _ _ _ _ _ Hrun) as (_ & _ & ps & Hgroups & Hlen & Hnext & Hon & Hch).
  destruct (init_facts _ _ _ _ _ Hrun) as [Hbuilt _].
  destruct (init_calls _ _ _ _ Hbuilt)
    as (sc & planeMesh & textGroup & pendings & reg & _ & _ & _ & _ & _ & _ & _ &
        Hgroups' & _ & Hdone & Hmat & _).
  rewrite Hgroups, list_lookup_fmap in Hg.
  destruct (ps !! k) as [p|] eqn:Hp; [|done]. injection Hg as <-.
  destruct (lookup_lt_is_Some_2 (cells (gridSize options)) k) as [c Hc].
  { rewrite <- Hlen. by eapply lookup_lt_Some. }
  destruct (Hon k c p Hc Hp)
    as (grp & front & back & H1 & Hp1 & Hr1 & H2 & Hp2 & Hr2 & H3 & Hp3 & Hr3).
  exists planeMesh, grp, front, back. split.
  { rewrite Hmat, cellCalls_lookup, Hc. simpl. by rewrite Hp1, Hr1. }
  split; [done|]. split; [|done].
  assert (Hin : pGroup p ∈ pGroup <$> pendings).
  { rewrite <- Hgroups', Hgroups. apply list_elem_of_fmap_2. by eapply list_elem_of_lookup_2. }
  apply list_elem_of_fmap in Hin as (p' & Heq & Hp').
  destruct (proj1 (Forall_forall _ _) Hdone p' Hp') as (grp' & Hgrp' & Hch' & _).
  rewrite <- Heq in Hgrp'.
  destruct (Hch p) as (grp'' & before & behind & Hgrp'' & Hch''); [by eapply list_elem_of_lookup_2|].
  assert (Some (OGroup grp') = Some (OGroup grp)) as [= ->]
    by (etrans; [symmetry; exact Hgrp' | exact H1]).
  assert (Some (OGroup grp'') = Some (OGroup grp)) as [= ->]
    by (etrans; [symmetry; exact Hgrp'' | exact H1]).
  destruct (Hnext p) as [Hf Hb]; [by eapply list_elem_of_lookup_2|].
  assert (Hlens : length (Group.children grp) = 2%nat) by (by rewrite Hch').
  rewrite Hch'', !length_app in Hlens. simpl in Hlens.
  rewrite Hch'', Hf, Hb.
  destruct before; [|simpl in Hlens; lia]. destruct behind; [|simpl in Hlens; lia]. done.
Qed.

End PlaneProperties.

(** ** Pointer and camera *)

(** X16. For a container with a width and a height above zero and a
    pointer inside it, [handlePointerMove] gives finite coordinates in
    [[-1, 1]], growing to the right and upwards, from which the pointer
    position can be read back. *)
Theorem pointer_is_normalised container event :
  (0 < clientWidth container)%Q → (0 < clientHeight container)%Q →
  (0 <= clientX event ∧ clientX event <= clientWidth container)%Q →
  (0 <= clientY event ∧ clientY event <= clientHeight container)%Q →
  ∃ x y,
    handlePointerMove container event = mkVector2 (Some x) (Some y) ∧
    (-1 <= x ∧ x <= 1)%Q ∧ (-1 <= y ∧ y <= 1)%Q ∧
    (clientX event == (x + 1) * (1 # 2) * clientWidth container)%Q ∧
    (clientY event == (1 - y) * (1 # 2) * clientHeight container)%Q.
Proof.
  intros Hw Hh [Hx0 Hx1] [Hy0 Hy1]. unfold handlePointerMove, js_div.
  destruct (Qeq_bool (clientWidth container) 0) eqn:Ew.
  { apply Qeq_bool_iff in Ew. lra. }
  destruct (Qeq_bool (clientHeight container) 0) eqn:Eh.
  { apply Qeq_bool_iff in Eh. lra. }
  eexists _, _. split; [reflexivity|].
  assert (Hdx : (clientX event / clientWidth container * clientWidth container
                 == clientX event)%Q) by (field; lra).
  assert (Hdy : (clientY event / clientHeight container * clientHeight container
                 == clientY event)%Q) by (field; lra).
  set (tx := (clientX event / clientWidth container)%Q) in *.
  set (ty := (clientY event / clientHeight container)%Q) in *.
  assert (0 <= tx ∧ tx <= 1)%Q as [? ?] by (split; nra).
  assert (0 <= ty ∧ ty <= 1)%Q as [? ?] by (split; nra).
  repeat split; lra.
Qed.

Section CameraProperties.

Variable options : Options.
Variable shape : string → option TextRenderInfo.
Variable randomValues : nat → Q.

Local Open Scope Q_scope.

(** X17. For a scene size of at least 2 the camera starts between the
    least and the largest distance the controls allow, measured from the
    origin: the square of its distance is 3/8 of the square of the scene
    size. Its far plane is ten scene sizes away. *)
Theorem camera_starts_in_orbit_range container :
  2 <= calculateSceneSize options →
  distance2 (cameraPosition (setupCamera options container)) (mkVector3 0 0 0) ==
    (3 # 8) * (calculateSceneSize options * calculateSceneSize options) ∧
  minDistance (setupControls options) * minDistance (setupControls options) <=
    distance2 (cameraPosition (setupCamera options container)) (mkVector3 0 0 0) ∧
  distance2 (cameraPosition (setupCamera options container)) (mkVector3 0 0 0) <=
    maxDistance (setupControls options) * maxDistance (setupControls options) ∧
  far (setupCamera options container) == 10 * maxDistance (setupControls options).
Proof.
  intros HS. unfold distance2, setupCamera, setupControls. simpl.
  set (size := calculateSceneSize options) in *.
  split; [ring|]. split; [nra|]. split; [nra | ring].
Qed.

(** X18. For a grid size [G >= 0], a cell size [c > 0] and values of
    [Math.random()] in [[0, 1)], every plane, at its position in the scene
    moved by the position of the scene, is nearer to the start position of
    the camera than the far plane of the camera. *)
Theorem planes_are_nearer_than_far_plane container :
  (0 ≤ gridSize options)%Z → 0 < cellSizeOf options →
  (∀ n, 0 <= randomValues n ∧ randomValues n < 1) →
  ∃ groups s sc root,
    init options shape randomValues newApp = Some (groups, s) ∧
    scene s = object sc ∧ heap s !! sc = Some (OGroup root) ∧
    ∀ planeMesh i m,
      (planeMesh, i, m) ∈ setMatrixAtCalls (calls s) →
      distance2 (cameraPosition (setupCamera options container))
                (movedBy (Group.position root) (mPosition m)) <
      far (setupCamera options container) * far (setupCamera options container).
Proof.
  intros HG Hc Hrandom.
  destruct (init_spec options shape randomValues HG) as (groups & s & Hrun & Hbuilt & _).
  destruct (init_planes _ _ _ _ _ Hrun) as ((root & Hroot & Hp & _) & _).
  destruct (init_calls _ _ _ _ Hbuilt)
    as (sc & planeMesh & textGroup & pendings & reg & _ & _ & _ & _ & _ & _ & _ &
        _ & _ & _ & Hmat & _).
  exists groups, s, 0%nat, root. split; [exact Hrun|].
  split; [by eapply init_scene|]. split; [exact Hroot|].
  intros pm i m Hin. rewrite Hmat in Hin.
  destruct (cellCalls_coords options randomValues _ _ _ _ Hc Hrandom Hin)
    as ([Hx0 Hx1] & [Hy0 Hy1] & [Hz0 Hz1]).
  unfold distance2, movedBy, setupCamera. rewrite Hp. simpl.
  set (size := calculateSceneSize options) in *.
  set (x := vx (mPosition m)) in *. set (y := vy (mPosition m)) in *.
  set (z := vz (mPosition m)) in *.
  assert (Hdx : (size * (1 # 4) - (- size * (1 # 2) + x)) *
                (size * (1 # 4) - (- size * (1 # 2) + x)) <= size * size) by nra.
  assert (Hdy : (size * (1 # 4) - (- size * (1 # 2) + y)) *
                (size * (1 # 4) - (- size * (1 # 2) + y)) <= size * size) by nra.
  assert (Hdz : (size * (1 # 2) - (- size * (1 # 2) + z)) *
                (size * (1 # 2) - (- size * (1 # 2) + z)) <= size * size) by nra.
  assert (Hpos : 0 < size * size) by nra.
  lra.
Qed.

End CameraProperties.

(** ** The properties at concrete scenes *)

Lemma hiThere_assembled :
  ∃ groups, init hiThere demoShape demoRandom newApp = Some (groups, assembled hiThere).
Proof. apply init_assembled. vm_compute. eexists. reflexivity. Qed.

Lemma hiThere_reachable : reachable hiThere demoShape demoRandom (assembled hiThere).
Proof. destruct hiThere_assembled as [groups Hrun]. by eapply reachable_init. Qed.

Lemma pageOptions_assembled :
  ∃ groups, init pageOptions demoShape demoRandom newApp = Some (groups, assembled pageOptions).
Proof.
  apply init_assembled.
  destruct (init_spec pageOptions demoShape demoRandom) as (groups & s & Hrun & _);
    [simpl; lia|]. by eexists.
Qed.

Lemma twoWords_ready :
  Forall (isText twoWords) [2; 3] ∧ isGroup twoWords 0 ∧ isGroup twoWords 1.
Proof. split; [repeat constructor; by eexists|]. split; by eexists. Qed.

Lemma cacheTyped_newApp : cacheTyped newApp.
Proof. intros w r Hw. simpl in Hw. by rewrite lookup_empty in Hw. Qed.

Lemma warmed_ready :
  cacheTyped warmed ∧ ∀ w, w ∈ split (text hiThere) → is_Some (textMeshCache warmed !! w).
Proof.
  destruct (generateTextMeshes_spec hiThere newApp cacheTyped_newApp)
    as (meshes & s' & Hrun & evs & _ & Htyped & _ & Hsome & _).
  unfold warmed. rewrite Hrun. done.
Qed.

Lemma demoRandom_range n : (0 <= demoRandom n)%Q ∧ (demoRandom n < 1)%Q.
Proof. unfold demoRandom. split; lra. Qed.

(** X1, witness: after a frame that hovers "Hi". *)
Lemma colours_follow_highlight_witness :
  reachable hiThere demoShape demoRandom
            (processIntersections hiThere (rayAt 6) (assembled hiThere)) ∧
  coloursFollow hiThere (processIntersections hiThere (rayAt 6) (assembled hiThere)).
Proof.
  assert (H : reachable hiThere demoShape demoRandom
                (processIntersections hiThere (rayAt 6) (assembled hiThere)))
    by apply reachable_frame, hiThere_reachable.
  split; [exact H|]. exact (colours_follow_highlight hiThere demoShape demoRandom _ H).
Defined.

(** X2, witness: a frame that hovers "Hi". *)
Lemma cursor_follows_highlight_witness :
  reachable hiThere demoShape demoRandom (assembled hiThere) ∧
  cursor (processIntersections hiThere (rayAt 6) (assembled hiThere)) =
  cursorFor (processIntersections hiThere (rayAt 6) (assembled hiThere)).
Proof.
  split; [exact hiThere_reachable|].
  exact (proj2 (cursor_follows_highlight hiThere demoShape demoRandom (rayAt 6) _
                  hiThere_reachable)).
Defined.

(** X5, witness: the two words of "Hi there". *)
Lemma layout_places_word_and_copy_witness :
  Forall (isText twoWords) [2; 3] ∧ isGroup twoWords 0 ∧ isGroup twoWords 1 ∧
  ∃ s' placed,
    layoutTextMeshes pageOptions [2; 3] 0 1 twoWords = Some (tt, s') ∧
    placed.*1 `prefix_of` [2; 3] ∧
    calls s' = calls twoWords ++ placementCalls 0 1 (length (heap twoWords)) placed ∧
    interactableMeshes s' =
      interactableMeshes twoWords ++ placementRegistry (length (heap twoWords)) placed ∧
    length (heap s') = (length (heap twoWords) + length placed)%nat.
Proof.
  destruct twoWords_ready as (H1 & H2 & H3).
  split; [exact H1|]. split; [exact H2|]. split; [exact H3|].
  exact (layout_places_word_and_copy pageOptions [2; 3] 0 1 twoWords H1 H2 H3).
Defined.

(** X6, witness: the two words of "Hi there". *)
Lemma layout_words_follow_each_other_witness :
  Forall (isText twoWords) [2; 3] ∧ isGroup twoWords 0 ∧ isGroup twoWords 1 ∧
  ∃ s' placed,
    layoutTextMeshes pageOptions [2; 3] 0 1 twoWords = Some (tt, s') ∧
    calls s' = calls twoWords ++ placementCalls 0 1 (length (heap twoWords)) placed ∧
    ∀ i p q, placed !! i = Some p → placed !! S i = Some q → follows pageOptions twoWords p q.
Proof.
  destruct twoWords_ready as (H1 & H2 & H3).
  split; [exact H1|]. split; [exact H2|]. split; [exact H3|].
  destruct (layout_words_follow_each_other pageOptions [2; 3] 0 1 twoWords H1 H2 H3)
    as (s' & placed & Hrun & Hcalls & _ & Hnext).
  exists s', placed. split; [exact Hrun|]. split; [exact Hcalls | exact Hnext].
Defined.

(** X7, witness: the two words of "Hi there". *)
Lemma layout_starts_inside_witness :
  (0 <= lineHeightOf pageOptions)%Q ∧ (0 <= spaceWidth pageOptions)%Q ∧
  (∀ r m, r ∈ [2; 3] → heap twoWords !! r = Some (OText m) → (0 <= measuredWidth m)%Q) ∧
  ∃ s' evs,
    layoutTextMeshes pageOptions [2; 3] 0 1 twoWords = Some (tt, s') ∧
    calls s' = calls twoWords ++ evs ∧
    ∀ r v, CPositionSet r v ∈ evs → (0 <= vx v)%Q ∧ (vy v <= 0)%Q ∧ vz v = 0%Q.
Proof.
  destruct twoWords_ready as (H1 & H2 & H3).
  assert (Hlh : (0 <= lineHeightOf pageOptions)%Q) by (by vm_compute).
  assert (Hsp : (0 <= spaceWidth pageOptions)%Q) by (by vm_compute).
  assert (Hw : ∀ r m, r ∈ [2; 3] → heap twoWords !! r = Some (OText m) →
                      (0 <= measuredWidth m)%Q).
  { intros r m Hr Hm. apply elem_of_cons in Hr as [->|Hr].
    - injection Hm as <-. by vm_compute.
    - apply list_elem_of_singleton in Hr as ->. injection Hm as <-. by vm_compute. }
  split; [exact Hlh|]. split; [exact Hsp|]. split; [exact Hw|].
  exact (layout_starts_inside pageOptions [2; 3] 0 1 twoWords Hlh Hsp Hw H1 H2 H3).
Defined.


(** X9, witness: "Hi there" with an empty cache. *)
Lemma generateTextMeshes_one_new_mesh_per_word_witness :
  cacheTyped newApp ∧
  ∃ meshes s',
    generateTextMeshes hiThere newApp = Some (meshes, s') ∧ meshes = [0; 1]%nat.
Proof.
  split; [exact cacheTyped_newApp|].
  destruct (generateTextMeshes_one_new_mesh_per_word hiThere newApp cacheTyped_newApp)
    as (meshes & s' & ms & Hrun & Hseq & _).
  exists meshes, s'. split; [exact Hrun | exact Hseq].
Defined.

(** X10, witness: "Hi there" a second time. *)
Lemma generateTextMeshes_clones_cached_words_witness :
  cacheTyped warmed ∧
  (∀ w, w ∈ split (text hiThere) → is_Some (textMeshCache warmed !! w)) ∧
  ∃ meshes s' evs,
    generateTextMeshes hiThere warmed = Some (meshes, s') ∧
    calls s' = calls warmed ++ evs ∧ newTexts evs = [] ∧
    textMeshCache s' = textMeshCache warmed.
Proof.
  destruct warmed_ready as [H1 H2]. split; [exact H1|]. split; [exact H2|].
  destruct (generateTextMeshes_clones_cached_words hiThere warmed H1 H2)
    as (meshes & s' & evs & Hrun & Hcalls & Hnew & Hcache & _).
  exists meshes, s', evs. split; [exact Hrun|]. split; [exact Hcalls|].
  split; [exact Hnew | exact Hcache].
Defined.


(** X13, witness: the grid of the page. *)
Lemma init_writes_every_instance_matrix_witness :
  ∃ groups,
    init pageOptions demoShape demoRandom newApp = Some (groups, assembled pageOptions) ∧
    ∃ planeMesh reg im,
      interactableMeshes (assembled pageOptions) = planeMesh :: reg ∧
      heap (assembled pageOptions) !! planeMesh = Some (OInstancedMesh im) ∧
      InstancedMesh.count im = 125%Z ∧
      Z.of_nat (length (InstancedMesh.instanceMatrix im)) = 125%Z.
Proof.
  destruct pageOptions_assembled as [groups Hrun]. exists groups. split; [exact Hrun|].
  destruct (init_writes_every_instance_matrix pageOptions demoShape demoRandom groups _ Hrun)
    as (planeMesh & reg & im & Hreg & Him & Hcount & Hlen & _).
  exists planeMesh, reg, im. split; [exact Hreg|]. split; [exact Him|].
  split; [exact Hcount | exact Hlen].
Defined.

(** X14, witness: the options of the page, [Math.random()] returning 1/2. *)
Lemma scene_is_centred_witness :
  (0 ≤ gridSize pageOptions)%Z ∧ (0 < cellSizeOf pageOptions)%Q ∧
  (∀ n, (0 <= demoRandom n)%Q ∧ (demoRandom n < 1)%Q) ∧
  ∃ groups s sc root,
    init pageOptions demoShape demoRandom newApp = Some (groups, s) ∧
    scene s = object sc ∧ heap s !! sc = Some (OGroup root) ∧
    Group.position root =
      mkVector3 (- calculateSceneSize pageOptions * (1 # 2))
                (- calculateSceneSize pageOptions * (1 # 2))
                (- calculateSceneSize pageOptions * (1 # 2))%Q.
Proof.
  assert (HG : (0 ≤ gridSize pageOptions)%Z) by (simpl; lia).
  assert (Hc : (0 < cellSizeOf pageOptions)%Q) by reflexivity.
  split; [exact HG|]. split; [exact Hc|]. split; [exact demoRandom_range|].
  destruct (scene_is_centred pageOptions demoShape demoRandom HG Hc demoRandom_range)
    as (groups & s & sc & root & Hrun & Hsc & Hroot & Hp & _).
  exists groups, s, sc, root. split; [exact Hrun|]. split; [exact Hsc|].
  split; [exact Hroot | exact Hp].
Defined.

(** X15, witness: one cell that shows "Hi there". *)
Lemma text_groups_sit_on_their_planes_witness :
  ∃ groups,
    init hiThere demoShape demoRandom newApp = Some (groups, assembled hiThere) ∧
    ∀ k g, groups !! k = Some g →
           ∃ grp, heap (assembled hiThere) !! g = Some (OGroup grp) ∧
                  Group.children grp = [S g; S (S g)].
Proof.
  destruct hiThere_assembled as [groups Hrun]. exists groups. split; [exact Hrun|].
  intros k g Hg.
  destruct (text_groups_sit_on_their_planes hiThere demoShape demoRandom _ _ Hrun k g Hg)
    as (planeMesh & grp & front & back & _ & Hgrp & Hch & _).
  exists grp. split; [exact Hgrp | exact Hch].
Defined.

(** X16, witness: a pointer at a quarter of a container of 800 by 600. *)
Lemma pointer_is_normalised_witness :
  (0 < clientWidth smallWindow)%Q ∧ (0 < clientHeight smallWindow)%Q ∧
  (0 <= clientX pointerAtQuarter ∧ clientX pointerAtQuarter <= clientWidth smallWindow)%Q ∧
  (0 <= clientY pointerAtQuarter ∧ clientY pointerAtQuarter <= clientHeight smallWindow)%Q ∧
  ∃ x y,
    handlePointerMove smallWindow pointerAtQuarter = mkVector2 (Some x) (Some y) ∧
    (-1 <= x ∧ x <= 1)%Q ∧ (-1 <= y ∧ y <= 1)%Q.
Proof.
  assert (Hw : (0 < clientWidth smallWindow)%Q) by reflexivity.
  assert (Hh : (0 < clientHeight smallWindow)%Q) by reflexivity.
  assert (Hx : (0 <= clientX pointerAtQuarter ∧
                clientX pointerAtQuarter <= clientWidth smallWindow)%Q)
    by (split; by vm_compute).
  assert (Hy : (0 <= clientY pointerAtQuarter ∧
                clientY pointerAtQuarter <= clientHeight smallWindow)%Q)
    by (split; by vm_compute).
  split; [exact Hw|]. split; [exact Hh|]. split; [exact Hx|]. split; [exact Hy|].
  destruct (pointer_is_normalised smallWindow pointerAtQuarter Hw Hh Hx Hy)
    as (x & y & Hrun & Hxr & Hyr & _).
  exists x, y. split; [exact Hrun|]. split; [exact Hxr | exact Hyr].
Defined.

(** X17, witness: the scene of the page, of size 30. *)
Lemma camera_starts_in_orbit_range_witness :
  (2 <= calculateSceneSize pageOptions)%Q ∧
  (far (setupCamera pageOptions smallWindow) ==
   10 * maxDistance (setupControls pageOptions))%Q.
Proof.
  assert (H : (2 <= calculateSceneSize pageOptions)%Q) by (by vm_compute).
  split; [exact H|].
  exact (proj2 (proj2 (proj2 (camera_starts_in_orbit_range pageOptions smallWindow H)))).
Defined.

(** X18, witness: the options of the page, [Math.random()] returning 1/2. *)
Lemma planes_are_nearer_than_far_plane_witness :
  (0 ≤ gridSize pageOptions)%Z ∧ (0 < cellSizeOf pageOptions)%Q ∧
  (∀ n, (0 <= demoRandom n)%Q ∧ (demoRandom n < 1)%Q) ∧
  ∃ groups s,
    init pageOptions demoShape demoRandom newApp = Some (groups, s) ∧
    ∀ planeMesh i m,
      (planeMesh, i, m) ∈ setMatrixAtCalls (calls s) →
      ∃ root, (distance2 (cameraPosition (setupCamera pageOptions smallWindow))
                         (movedBy (Group.position root) (mPosition m)) <
               far (setupCamera pageOptions smallWindow) *
               far (setupCamera pageOptions smallWindow))%Q.
Proof.
  assert (HG : (0 ≤ gridSize pageOptions)%Z) by (simpl; lia).
  assert (Hc : (0 < cellSizeOf pageOptions)%Q) by reflexivity.
  split; [exact HG|]. split; [exact Hc|]. split; [exact demoRandom_range|].
  destruct (planes_are_nearer_than_far_plane pageOptions demoShape demoRandom smallWindow
              HG Hc demoRandom_range)
    as (groups & s & sc & root & Hrun & _ & _ & Hnear).
  exists groups, s. split; [exact Hrun|]. intros planeMesh i m Hin.
  exists root. exact (Hnear planeMesh i m Hin).
Defined.
